(** * Glyph-pattern model of the feature-file compiler (FeatCtx.h)

    A shallow embedding of the header's inline code: lookup labels,
    [AnchorMarkInfo], [GPat] with its [GlyphRec], [ClassRec] and
    [CrossProductIterator], and [FeatCtx::addTag].

    Conventions.  Every C++ integer is a [Z] holding the value of the
    variable; a fixed width shows up only where the code can wrap
    ([uint16_t] indices of the iterator, the [int] returned by
    [classSize]).  A [std::vector] is a [list], a [std::unordered_set<Tag>]
    a [gset Z], a [std::string] a [string]. *)

From Stdlib Require Import ZArith Lia Bool List Sorted Permutation.
From stdpp Require Import base option list sorting gmap sets strings.

Local Open Scope Z_scope.

(** ** Outcomes of a call

    A call either returns, stops at a failed [assert], or runs into
    behaviour the C++ standard leaves undefined (an out-of-range
    [operator[]], a range insert from the vector itself). *)

Inductive result (A : Type) : Type :=
| Ret (a : A)
| AssertFail
| Undefined.

Arguments Ret {A} a.
Arguments AssertFail {A}.
Arguments Undefined {A}.

#[global] Instance result_ret : MRet result := fun A a => Ret a.

#[global] Instance result_bind : MBind result := fun A B f m =>
  match m with
  | Ret a => f a
  | AssertFail => AssertFail
  | Undefined => Undefined
  end.

(** [assert(cond)] from <cassert>: compiled out when [NDEBUG] is defined,
    otherwise a false condition aborts the program. *)
Definition assert (NDEBUG : bool) (cond : bool) : result unit :=
  if NDEBUG || cond then Ret tt else AssertFail.

(** [v[i]] on a vector: undefined when [i] is out of range. *)
Definition at_index {A : Type} (v : list A) (i : Z) : result A :=
  if i <? 0 then Undefined
  else match v !! Z.to_nat i with
       | Some a => Ret a
       | None => Undefined
       end.

Abbreviation GID := Z (only parsing).
Abbreviation Tag := Z (only parsing).

(** Conversions of a value to a fixed-width integer type. *)
Definition to_uint16 (z : Z) : Z := z mod 65536.
Definition to_int (z : Z) : Z := (z + 2147483648) mod 4294967296 - 2147483648.

(** ** Lookup labels *)

Module Label.

Definition FEAT_NAMED_LKP_BEG : Z := 0.
Definition FEAT_NAMED_LKP_END : Z := 0x1FFF.
Definition FEAT_ANON_LKP_BEG : Z := FEAT_NAMED_LKP_END + 1.
Definition FEAT_ANON_LKP_END : Z := 0x7FFE.

Definition LAB_UNDEF : Z := 0xFFFF.

Definition REF_LAB : Z := Z.shiftl 1 15.

(** [#define IS_REF_LAB(L) ((L) != LAB_UNDEF && (L)&REF_LAB)] *)
Definition IS_REF_LAB (L : Z) : bool :=
  negb (L =? LAB_UNDEF) && negb (Z.land L REF_LAB =? 0).

(** [(L) & ~REF_LAB] on a 16-bit label. *)
Definition clear_ref (L : Z) : Z := Z.land L (Z.lnot REF_LAB).

Definition IS_NAMED_LAB (L : Z) : bool :=
  (FEAT_NAMED_LKP_BEG <=? clear_ref L) && (clear_ref L <=? FEAT_NAMED_LKP_END).

Definition IS_ANON_LAB (L : Z) : bool :=
  (FEAT_ANON_LKP_BEG <=? clear_ref L) && (clear_ref L <=? FEAT_ANON_LKP_END).

(** A [Label] is a [uint16_t]. *)
Definition is_label (L : Z) : Prop := 0 <= L < 65536.

(** The high bit 0x8000 of a label. *)
Definition high_bit (L : Z) : bool := Z.testbit L 15.

End Label.

(** ** Anchors *)

Module AnchorMarkInfo.

Record t : Type := mk {
  format : Z;           (* uint32_t *)
  markClassIndex : Z;   (* int32_t *)
  componentIndex : Z;   (* int32_t *)
  x : Z;                (* int16_t *)
  y : Z;                (* int16_t *)
  contourpoint : Z;     (* uint16_t *)
  markClassName : string
}.

(** The member initialisers: every number 0, the name empty. *)
Definition init : t := mk 0 0 0 0 0 0 EmptyString.

(** [operator<]: a cascade of "differ? then decide here". *)
Definition lt (a rhs : t) : bool :=
  if negb (componentIndex a =? componentIndex rhs) then
    componentIndex a <? componentIndex rhs
  else if negb (markClassIndex a =? markClassIndex rhs) then
    markClassIndex a <? markClassIndex rhs
  else if negb (format a =? format rhs) then
    format a <? format rhs
  else if negb (x a =? x rhs) then
    x a <? x rhs
  else if negb (y a =? y rhs) then
    y a <? y rhs
  else if (format a =? 2) && negb (contourpoint a =? contourpoint rhs) then
    contourpoint a <? contourpoint rhs
  else false.

(** [operator==] *)
Definition eqb (a rhs : t) : bool :=
  (componentIndex a =? componentIndex rhs) &&
  (markClassIndex a =? markClassIndex rhs) &&
  (format a =? format rhs) &&
  (x a =? x rhs) && (y a =? y rhs) &&
  (negb (format a =? 2) || (contourpoint a =? contourpoint rhs)).

(** [reset()] *)
Definition reset (a : t) : t := mk 0 0 0 0 0 0 EmptyString.

(** The sort key the specification names; the contour point counts only
    for format 2. *)
Definition key (a : t) : list Z :=
  [componentIndex a; markClassIndex a; format a; x a; y a;
   if format a =? 2 then contourpoint a else 0].

(** "All components match", as the specification lists them. *)
Definition all_components_match (a b : t) : Prop :=
  format a = format b /\ x a = x b /\ y a = y b /\
  markClassIndex a = markClassIndex b /\
  componentIndex a = componentIndex b /\
  markClassName a = markClassName b /\
  (format a = 2 -> contourpoint a = contourpoint b).

(** The components [operator==] looks at. *)
Definition compared_components_match (a b : t) : Prop :=
  format a = format b /\ x a = x b /\ y a = y b /\
  markClassIndex a = markClassIndex b /\
  componentIndex a = componentIndex b /\
  (format a = 2 -> contourpoint a = contourpoint b).

End AnchorMarkInfo.

(** Strict lexicographic order on tuples of integers. *)
Fixpoint lex_ltb (a b : list Z) : bool :=
  match a, b with
  | [], [] => false
  | [], _ :: _ => true
  | _ :: _, [] => false
  | u :: a', v :: b' => (u <? v) || ((u =? v) && lex_ltb a' b')
  end.

(** ** Glyph patterns *)

Module GPat.

Module GlyphRec.

Record t : Type := mk {
  gid : GID;
  markClassAnchorInfo : AnchorMarkInfo.t
}.

(** [explicit GlyphRec(GID g) : gid(g) {}] *)
Definition of_gid (g : GID) : t := mk g AnchorMarkInfo.init.

(** [operator<(const GlyphRec &)] *)
Definition lt (a gr : t) : bool := gid a <? gid gr.

(** [operator==(const GlyphRec &)] *)
Definition eqb (a gr : t) : bool := gid a =? gid gr.

(** [operator==(GID)] *)
Definition eqb_gid (a : t) (g : GID) : bool := g =? gid a.

End GlyphRec.

Module ClassRec.

Record t : Type := mk {
  glyphs : list GlyphRec.t;
  lookupLabels : list Z;
  metricsInfo : list Z;          (* MetricsInfo: its vector of int16_t *)
  markClassName : string;
  marked : bool;
  gclass : bool;
  backtrack : bool;
  input : bool;
  lookahead : bool;
  basenode : bool;
  marknode : bool;
  used_mark_class : bool
}.

(** [ClassRec()] *)
Definition init : t :=
  mk [] [] [] EmptyString false false false false false false false false.

(** Assignment to the member [glyphs], every other member kept. *)
Definition set_glyphs (c : t) (g : list GlyphRec.t) : t :=
  mk g (lookupLabels c) (metricsInfo c) (markClassName c) (marked c)
     (gclass c) (backtrack c) (input c) (lookahead c) (basenode c)
     (marknode c) (used_mark_class c).

(** [explicit ClassRec(GID gid)] *)
Definition of_gid (g : GID) : t := set_glyphs init [GlyphRec.of_gid g].

(** [operator==]: the glyph vectors are equal element by element under
    [GlyphRec::operator==]. *)
Fixpoint glyphs_eqb (a b : list GlyphRec.t) : bool :=
  match a, b with
  | [], [] => true
  | u :: a', v :: b' => GlyphRec.eqb u v && glyphs_eqb a' b'
  | _, _ => false
  end.

Definition eqb (c rhs : t) : bool := glyphs_eqb (glyphs c) (glyphs rhs).

Definition reset (c : t) : t := init.

(** [std::find(glyphs.begin(), glyphs.end(), gid) != glyphs.end()] *)
Definition glyphInClass (c : t) (g : GID) : bool :=
  existsb (fun r => GlyphRec.eqb_gid r g) (glyphs c).

Definition size (c : t) : Z := Z.of_nat (length (glyphs c)).

Definition is_glyph (c : t) : bool := (size c =? 1) && negb (gclass c).
Definition is_multi_class (c : t) : bool := 1 <? size c.
Definition is_class (c : t) : bool := is_multi_class c || gclass c.
Definition has_lookups (c : t) : bool :=
  0 <? Z.of_nat (length (lookupLabels c)).

(** [int classSize() const { return glyphs.size(); }] *)
Definition classSize (c : t) : Z := to_int (size c).

(** [void addGlyph(GID gid) { glyphs.emplace_back(gid); }] *)
Definition addGlyph (c : t) (g : GID) : t :=
  set_glyphs c (glyphs c ++ [GlyphRec.of_gid g]).

(** [glyphs.insert(glyphs.end(), other.glyphs.begin(), other.glyphs.end())]
    for an [other] that is a different object. *)
Definition concat (c other : t) : t :=
  set_glyphs c (glyphs c ++ glyphs other).

Section Sort.

(** [std::sort] at [std::vector<GlyphRec>::iterator] with [operator<]: the
    algorithm belongs to the C++ library, the header only calls it. *)
Variable std_sort : list GlyphRec.t -> list GlyphRec.t.

(** [void sort() { std::sort(glyphs.begin(), glyphs.end()); }] *)
Definition sort (c : t) : t := set_glyphs c (std_sort (glyphs c)).

End Sort.

(** Every member but [glyphs] agrees. *)
Definition same_but_glyphs (c c' : t) : Prop :=
  lookupLabels c' = lookupLabels c /\ metricsInfo c' = metricsInfo c /\
  markClassName c' = markClassName c /\ marked c' = marked c /\
  gclass c' = gclass c /\ backtrack c' = backtrack c /\
  input c' = input c /\ lookahead c' = lookahead c /\
  basenode c' = basenode c /\ marknode c' = marknode c /\
  used_mark_class c' = used_mark_class c.

End ClassRec.

(** *** Objects behind references

    [concat] takes its argument by reference, so the two ClassRecs of a
    call live in a store of objects and may be one and the same. *)
Module Store.

Abbreviation addr := positive.
Abbreviation t := (gmap positive ClassRec.t).

(** [c.concat(other)] for the objects at [this] and [other].  The range
    given to [vector::insert] must not point into the vector itself. *)
Definition concat (h : t) (this other : addr) : result t :=
  match h !! this, h !! other with
  | Some c, Some o =>
      if decide (this = other) then Undefined
      else Ret (<[this := ClassRec.concat c o]> h)
  | _, _ => Undefined
  end.

End Store.

Module CrossProductIterator.

Record t : Type := mk {
  classes : list ClassRec.t;    (* the ClassRecs the pointers refer to *)
  indices : list Z;             (* std::vector<uint16_t> *)
  first : bool
}.

(** [CrossProductIterator(c) : classes(c), indices(classes.size(), 0)],
    with [first {true}]. *)
Definition new (c : list ClassRec.t) : t :=
  mk c (repeat 0 (length c)) true.

(** The stepping loop of [next], from the current position [i] on with the
    classes and indices still ahead:
    [for (...; i < classes.size(); i++) {
       if (++indices[i] < classes[i]->glyphs.size()) break;
       indices[i] = 0; }].
    The boolean tells whether the loop ran off the end
    ([i == classes.size()]). *)
Fixpoint advance (cs : list ClassRec.t) (ix : list Z) : result (list Z * bool) :=
  match cs with
  | [] => Ret (ix, true)
  | c :: cs' =>
      match ix with
      | [] => Undefined
      | n :: ix' =>
          let n' := to_uint16 (n + 1) in
          if n' <? ClassRec.size c then Ret (n' :: ix', false)
          else '(ix'', off) ← advance cs' ix'; Ret (0 :: ix'', off)
      end
  end.

(** The filling loop:
    [gids.push_back(classes[i]->glyphs[indices[i]].gid)] for every [i]. *)
Fixpoint gather (cs : list ClassRec.t) (ix : list Z) : result (list GID) :=
  match cs with
  | [] => Ret []
  | c :: cs' =>
      match ix with
      | [] => Undefined
      | n :: ix' =>
          r ← at_index (ClassRec.glyphs c) n;
          rest ← gather cs' ix';
          Ret (GlyphRec.gid r :: rest)
      end
  end.

Section Next.

Variable NDEBUG : bool.

(** [bool next(std::vector<GID> &gids)]: the value returned, the contents
    of [gids] after the call and the iterator after the call. *)
Definition next (it : t) (gids : list GID) : result (bool * list GID * t) :=
  assert NDEBUG (Nat.eqb (length (classes it)) (length (indices it)));;
  '(ix, off) ← (if negb (first it) then advance (classes it) (indices it)
                else Ret (indices it, false));
  if (off : bool) then Ret (false, gids, mk (classes it) ix (first it))
  else
    out ← gather (classes it) ix;
    Ret (true, out, mk (classes it) ix false).

(** [n] calls of [next] in a row on the same [gids]: for each call the
    value returned and the contents of [gids] after it. *)
Fixpoint calls (n : nat) (it : t) (gids : list GID)
  : result (list (bool * list GID)) :=
  match n with
  | O => Ret []
  | S n' =>
      '(b, gids', it') ← next it gids;
      rest ← calls n' it' gids';
      Ret ((b, gids') :: rest)
  end.

End Next.

End CrossProductIterator.

Record t : Type := mk {
  classes : list ClassRec.t;
  has_marked : bool;
  ignore_clause : bool;
  lookup_node : bool;
  enumerate : bool
}.

(** [GPat()] *)
Definition init : t := mk [] false false false false.

Definition set_classes (p : t) (cs : list ClassRec.t) : t :=
  mk cs (has_marked p) (ignore_clause p) (lookup_node p) (enumerate p).

(** [explicit GPat(GID gid)] *)
Definition of_gid (g : GID) : t := set_classes init [ClassRec.of_gid g].

Definition size (p : t) : Z := Z.of_nat (length (classes p)).

(** [classes.size() == 1 && classes[0].is_glyph()] and its siblings. *)
Definition is_glyph (p : t) : bool :=
  match classes p with [c] => ClassRec.is_glyph c | _ => false end.
Definition is_class (p : t) : bool :=
  match classes p with [c] => ClassRec.is_class c | _ => false end.
Definition is_mult_class (p : t) : bool :=
  match classes p with [c] => ClassRec.is_multi_class c | _ => false end.
Definition is_unmarked_glyph (p : t) : bool := is_glyph p && negb (has_marked p).
Definition is_unmarked_class (p : t) : bool := is_class p && negb (has_marked p).

Definition patternLen (p : t) : Z := to_uint16 (size p).

Definition addClass (p : t) (cr : ClassRec.t) : t :=
  set_classes p (classes p ++ [cr]).

Section Accessors.

Variable NDEBUG : bool.

(** [std::sort], see [ClassRec.sort]. *)
Variable std_sort : list GlyphRec.t -> list GlyphRec.t.

(** The font context [hotCtx] and [ClassRec::makeUnique(g, report)], which
    the header declares and another translation unit defines: it may change
    the ClassRec and, through its messages, the context. *)
Variable hotCtx : Type.
Variable makeUnique : ClassRec.t -> hotCtx -> bool -> ClassRec.t * hotCtx.

(** [bool glyphInClass(GID gid, uint16_t idx = 0) const] *)
Definition glyphInClass (p : t) (gid : GID) (idx : Z) : result bool :=
  assert NDEBUG (idx <? size p);;
  if size p <=? idx then Ret false
  else c ← at_index (classes p) idx; Ret (ClassRec.glyphInClass c gid).

(** [void sortClass(uint16_t idx = 0)]: the pattern after the call. *)
Definition sortClass (p : t) (idx : Z) : result t :=
  assert NDEBUG (idx <? size p);;
  if size p <=? idx then Ret p
  else
    c ← at_index (classes p) idx;
    Ret (set_classes p (<[Z.to_nat idx := ClassRec.sort std_sort c]> (classes p))).

(** [void makeClassUnique(hotCtx g, uint16_t idx = 0, bool report = false)]:
    the pattern and the context after the call. *)
Definition makeClassUnique (p : t) (g : hotCtx) (idx : Z) (report : bool)
  : result (t * hotCtx) :=
  assert NDEBUG (idx <? size p);;
  if size p <=? idx then Ret (p, g)
  else
    c ← at_index (classes p) idx;
    let '(c', g') := makeUnique c g report in
    Ret (set_classes p (<[Z.to_nat idx := c']> (classes p)), g').

(** [int classSize(uint16_t idx = 0) const] *)
Definition classSize (p : t) (idx : Z) : result Z :=
  assert NDEBUG (idx <? size p);;
  if size p <=? idx then Ret 0
  else c ← at_index (classes p) idx; Ret (ClassRec.classSize c).

End Accessors.

End GPat.

(** ** The feature context *)

Module FeatCtx.

(** [typedef std::unordered_set<Tag> TagArray] *)
Abbreviation TagArray := (gset Z).

(** [a.emplace(t)]: the set with [t] in it. *)
Definition emplace (a : TagArray) (t : Tag) : TagArray := {[t]} ∪ a.

(** [inline bool addTag(TagArray &a, Tag t)]: the value returned and the
    set after the call. *)
Definition addTag (a : TagArray) (t : Tag) : bool * TagArray :=
  if decide (t ∉ a) then (false, a)
  else (true, emplace a t).

End FeatCtx.

(** ** Vocabulary of the statements *)

(** Of three booleans exactly one is true. *)
Definition exactly_one (p q r : bool) : Prop :=
  (p = true /\ q = false /\ r = false) \/
  (p = false /\ q = true /\ r = false) \/
  (p = false /\ q = false /\ r = true).

(** *** What the C++ library promises of [std::sort] *)

Module StdSort.

Import GPat.

(** [alg.sort]: the result holds the same elements, and no element is less
    than one before it.  The order of equivalent elements is not promised. *)
Definition conforming (std_sort : list GlyphRec.t -> list GlyphRec.t) : Prop :=
  forall l, Permutation l (std_sort l) /\
            StronglySorted (fun a b => GlyphRec.lt b a = false) (std_sort l).

(** Ascending by GID. *)
Definition ascending (l : list GlyphRec.t) : Prop :=
  forall (i j : nat) a b, (i < j)%nat -> l !! i = Some a -> l !! j = Some b ->
                          GlyphRec.gid a <= GlyphRec.gid b.

(** Stability: the records of any one GID come in the same order before
    and after. *)
Definition stable (l l' : list GlyphRec.t) : Prop :=
  forall g : GID,
    List.filter (fun r => GlyphRec.gid r =? g) l' =
    List.filter (fun r => GlyphRec.gid r =? g) l.

(** Insertion sort, putting [x] in front of the first [y] with
    [before x y]. *)
Fixpoint insert (before : GlyphRec.t -> GlyphRec.t -> bool)
         (x : GlyphRec.t) (l : list GlyphRec.t) : list GlyphRec.t :=
  match l with
  | [] => [x]
  | y :: l' => if before x y then x :: l else y :: insert before x l'
  end.

Definition insertion_sort (before : GlyphRec.t -> GlyphRec.t -> bool)
  (l : list GlyphRec.t) : list GlyphRec.t :=
  fold_right (insert before) [] l.

(** Two sorting algorithms a C++ library could ship: one keeps equal
    elements in their order, the other reverses them. *)
Definition keeping_sort : list GlyphRec.t -> list GlyphRec.t :=
  insertion_sort (fun x y => negb (GlyphRec.lt y x)).

Definition reversing_sort : list GlyphRec.t -> list GlyphRec.t :=
  insertion_sort GlyphRec.lt.

(** A class holding glyph 5 twice, with two different anchors. *)
Definition twice_anchored : ClassRec.t :=
  ClassRec.set_glyphs ClassRec.init
    [GlyphRec.mk 5 (AnchorMarkInfo.mk 1 0 0 10 0 0 EmptyString);
     GlyphRec.mk 5 (AnchorMarkInfo.mk 1 0 0 20 0 0 EmptyString)].

End StdSort.

(** *** Index tuples of a cross product *)

Module CrossProduct.

Import GPat.

Definition sizes (cs : list ClassRec.t) : list Z := map ClassRec.size cs.

(** The number of index tuples. *)
Definition total (ss : list Z) : Z := fold_right Z.mul 1 ss.

(** Every class has at least one glyph and no more than a [uint16_t] index
    can count. *)
Definition countable (cs : list ClassRec.t) : Prop :=
  Forall (fun c => 1 <= ClassRec.size c <= 65535) cs.

(** An index tuple within the bounds [ss]. *)
Definition in_bounds (ss ix : list Z) : Prop :=
  Forall2 (fun n s => 0 <= n < s) ix ss.

(** The [k]-th index tuple when position 0 varies fastest: the digits of
    [k] in the mixed radix [ss], least significant first. *)
Fixpoint digits (ss : list Z) (k : Z) : list Z :=
  match ss with
  | [] => []
  | s :: ss' => k mod s :: digits ss' (k / s)
  end.

(** Colexicographic order: tuples are compared from the last position
    backwards. *)
Fixpoint colex_lt (a b : list Z) : Prop :=
  match a, b with
  | u :: a', v :: b' => colex_lt a' b' \/ (a' = b' /\ u < v)
  | _, _ => False
  end.

(** The GID tuple at an index tuple. *)
Definition tuple (cs : list ClassRec.t) (ix : list Z) : list GID :=
  zip_with (fun c n => from_option GlyphRec.gid 0 (ClassRec.glyphs c !! Z.to_nat n))
           cs ix.

(** All index tuples within [ss] in lexicographic order, first position
    most significant. *)
Fixpoint lex_indices (ss : list Z) : list (list Z) :=
  match ss with
  | [] => [[]]
  | s :: ss' =>
      flat_map (fun n => map (cons n) (lex_indices ss')) (seqZ 0 s)
  end.

(** The iteration as the specification words it: the first [total] calls
    return true with the tuples in lexicographic order of their indices. *)
Definition yields_in_lex_order (NDEBUG : bool) (cs : list ClassRec.t) : Prop :=
  forall gids,
    CrossProductIterator.calls NDEBUG (Z.to_nat (total (sizes cs)))
      (CrossProductIterator.new cs) gids =
    Ret (map (fun ix => (true, tuple cs ix)) (lex_indices (sizes cs))).

(** ... and every call after those returns false. *)
Definition false_ever_after (NDEBUG : bool) (cs : list ClassRec.t) : Prop :=
  forall (n : nat) gids out,
    CrossProductIterator.calls NDEBUG n (CrossProductIterator.new cs) gids = Ret out ->
    forall (i : nat) b g, (Z.to_nat (total (sizes cs)) <= i)%nat ->
                          out !! i = Some (b, g) -> b = false.

(** The iterator after the call that yielded the [k]-th tuple. *)
Definition at_tuple (cs : list ClassRec.t) (k : Z) : CrossProductIterator.t :=
  CrossProductIterator.mk cs (digits (sizes cs) k) false.

(** A class of plain glyphs. *)
Definition class_of (l : list GID) : ClassRec.t :=
  ClassRec.set_glyphs ClassRec.init (map GlyphRec.of_gid l).

End CrossProduct.


(** ** Mark classes

    Modelled from the spec: [FeatCtx::addMark] and [FeatCtx::addMarkClass]
    are declared in FeatCtx.h, and their bodies are not among the sources.
    By the specification the mark classes are a namespace of named
    ClassRecs, looked up by string key, that accumulate: a definition under
    a name already there adds its glyphs to that class.  A mark class
    referenced in a position rule has [used_mark_class] set, and adding a
    glyph to it afterwards is an error that adds nothing.  Glyphs are
    added with the header's own [ClassRec::concat]. *)
Module MarkClasses.

Import GPat.

Abbreviation t := (gmap string ClassRec.t).

Inductive error : Type :=
| AddToUsedMarkClass (name : string).

(** A mark class without glyphs yet. *)
Definition named (name : string) : ClassRec.t :=
  ClassRec.mk [] [] [] name false false false false false false false false.

(** The class with [used_mark_class] set, every other member kept. *)
Definition set_used (c : ClassRec.t) : ClassRec.t :=
  ClassRec.mk (ClassRec.glyphs c) (ClassRec.lookupLabels c) (ClassRec.metricsInfo c)
              (ClassRec.markClassName c) (ClassRec.marked c) (ClassRec.gclass c)
              (ClassRec.backtrack c) (ClassRec.input c) (ClassRec.lookahead c)
              (ClassRec.basenode c) (ClassRec.marknode c) true.

(** [void addMark(const std::string &name, GPat::ClassRec &cr)]: the
    glyphs of [cr] join the mark class [name], unless that class has been
    used in a position rule. *)
Definition addMark (marks : t) (name : string) (cr : ClassRec.t)
  : t * option error :=
  match marks !! name with
  | Some c =>
      if ClassRec.used_mark_class c then (marks, Some (AddToUsedMarkClass name))
      else (<[name := ClassRec.concat c cr]> marks, None)
  | None => (<[name := ClassRec.concat (named name) cr]> marks, None)
  end.

(** [void addMarkClass(const std::string &markClassName)]: a position
    rule refers to the mark class. *)
Definition addMarkClass (marks : t) (name : string) : t :=
  match marks !! name with
  | Some c => <[name := set_used c]> marks
  | None => marks
  end.

(** The statements of a feature file that touch the mark classes. *)
Inductive statement : Type :=
| Define (name : string) (cr : ClassRec.t)
| Reference (name : string).

Definition step (s : t * list error) (st : statement) : t * list error :=
  match st with
  | Define name cr =>
      match addMark s.1 name cr with
      | (marks, Some e) => (marks, s.2 ++ [e])
      | (marks, None) => (marks, s.2)
      end
  | Reference name => (addMarkClass s.1 name, s.2)
  end.

(** The mark classes and the errors after the statements, in order. *)
Definition run (sts : list statement) (marks : t) : t * list error :=
  fold_left step sts (marks, []).

End MarkClasses.
(** ** Feature parameters of character variants (FeatCtx.h) *)

Module CVParameterFormat.

Record t : Type := mk {
  FeatUILabelNameID : Z;          (* uint16_t *)
  FeatUITooltipTextNameID : Z;    (* uint16_t *)
  SampleTextNameID : Z;           (* uint16_t *)
  NumNamedParameters : Z;         (* uint16_t *)
  FirstParamUILabelNameID : Z;    (* uint16_t *)
  charValues : list Z             (* std::vector<uint32_t> *)
}.

(** [CVParameterFormat()] *)
Definition init : t := mk 0 0 0 0 0 [].

(** [void reset()] *)
Definition reset (p : t) : t := mk 0 0 0 0 0 [].

(** [int size() { return 7 * sizeof(uint16_t) + 3 * charValues.size(); }] *)
Definition size (p : t) : Z := to_int (7 * 2 + 3 * Z.of_nat (length (charValues p))).

End CVParameterFormat.

(** ** Glyph substitution table (GSUB.cpp) *)

Module GSUB.

(** *** Messages

    Modelled from the spec: [hotMsg] is defined outside these files.  By
    the specification's diagnostics a NOTE only informs and a FATAL aborts
    the compile.  A message is kept by its kind and the glyphs it names,
    not by its text. *)
Inductive message : Type :=
| RemovingDuplicateSingle (t r : Z)
| DuplicateTargetSingle (t : Z)
| RemovingDuplicateLigature (targ : list Z) (r : Z)
| DuplicateLigatureTarget (targ : list Z)
| DuplicateTarget (t : Z).

(** What a call comes to: it returns, stops in a FATAL message, reads
    through a null pointer or an unset variable, or, for a loop run on
    fuel, is still running when the fuel is spent. *)
Inductive run (A : Type) : Type :=
| Done (a : A)
| Fatal (m : message)
| Undef
| OutOfFuel.

Arguments Done {A} a.
Arguments Fatal {A} m.
Arguments Undef {A}.
Arguments OutOfFuel {A}.

#[global] Instance run_ret : MRet run := fun A a => Done a.

#[global] Instance run_bind : MBind run := fun A B f m =>
  match m with
  | Done a => f a
  | Fatal e => Fatal e
  | Undef => Undef
  | OutOfFuel => OutOfFuel
  end.

Definition to_uint32 (z : Z) : Z := z mod 4294967296.

(** *** The map of single substitutions

    [si.singles] is a [std::map<GID, GID>]: a finite map that is walked in
    ascending order of its keys. *)

Definition key_le (p q : Z * Z) : Prop := fst p <= fst q.

#[global] Instance key_le_dec (p q : Z * Z) : Decision (key_le p q) :=
  Z_le_dec (fst p) (fst q).

(** [for (auto [t, r] : m)] *)
Definition in_order (m : gmap Z Z) : list (Z * Z) :=
  merge_sort key_le (map_to_list m).

(** [m.insert({k, v})]: nothing changes when [k] is already a key. *)
Definition map_insert (k v : Z) (m : gmap Z Z) : gmap Z Z :=
  match m !! k with
  | Some _ => m
  | None => <[k := v]> m
  end.

(** *** Rules

    A [GNode] chain is the list of its nodes: a class is the chain along
    [nextCl], a sequence the chain along [nextSeq], the null pointer the
    empty list.  A [SubstRule] holds the target and replacement chains by
    the GIDs of their nodes, and [data] (for a ligature rule the length of
    the target, as [addSubstRule] stores it). *)
Record SubstRule : Type := mkRule {
  targ : list Z;
  repl : list Z;
  data : Z
}.

(** *** Single substitution *)

(** The step of [r] in a loop over a target class:
    [if (r->nextCl != nullptr) r = r->nextCl;] *)
Definition next_repl (r : Z) (rest : list Z) : Z * list Z :=
  match rest with
  | [] => (r, [])
  | r' :: rest' => (r', rest')
  end.

(** The loop of [addSubstRule] for [lkpType == GSUBSingle], from target
    node [t] on with replacement node [r] (and the nodes [rest] after it):
    [auto [i, b] = si.singles.insert({t->gid, r->gid});
     if (!b) { if (i->second == r->gid) NOTE else FATAL }]. *)
Fixpoint addSingles (ts : list Z) (r : Z) (rest : list Z)
         (singles : gmap Z Z) (notes : list message)
  : run (gmap Z Z * list message) :=
  match ts with
  | [] => Done (singles, notes)
  | t :: ts' =>
      let '(r', rest') := next_repl r rest in
      match singles !! t with
      | None => addSingles ts' r' rest' (<[t := r]> singles) notes
      | Some r0 =>
          if r0 =? r
          then addSingles ts' r' rest' singles
                          (notes ++ [RemovingDuplicateSingle t r])
          else Fatal (DuplicateTargetSingle t)
      end
  end.

(** [addSubstRule(si, targ, repl)] with [si.lkpType == GSUBSingle]: the map
    of singles and the notes after the call.  Recycling the nodes is not
    part of the model. *)
Definition addSubstRule_single (ts rs : list Z) (singles : gmap Z Z)
  : run (gmap Z Z * list message) :=
  match ts, rs with
  | [], _ => Done (singles, [])
  | _ :: _, [] => Undef
  | _ :: _, r :: rest => addSingles ts r rest singles []
  end.

(** The replacement glyph that goes with the [j]-th glyph of the target
    class: the [j]-th of the replacement class, or its last when the class
    is shorter. *)
Definition paired (rs : list Z) (j : nat) : option Z :=
  rs !! Nat.min j (length rs - 1).

Inductive format : Type :=
| SingleSubstFormat1 (delta : Z)
| SingleSubstFormat2.

(** The loop of [SingleSubst::fill] that picks the format, once [delta]
    is set:
    [else if (delta != r - t) { ...SingleSubstFormat2...; return; }]. *)
Fixpoint same_delta (pairs : list (Z * Z)) (delta : Z) : format :=
  match pairs with
  | [] => SingleSubstFormat1 delta
  | (t, r) :: pairs' =>
      if negb (delta =? r - t) then SingleSubstFormat2
      else same_delta pairs' delta
  end.

(** Which subtable [SingleSubst::fill] adds.  With no pair at all [delta]
    is passed on without ever being set. *)
Definition SingleSubst_format (singles : gmap Z Z) : run format :=
  match in_order singles with
  | [] => Undef
  | (t, r) :: pairs => Done (same_delta pairs (r - t))
  end.

(** *** Anonymous single substitutions *)

(** The fields of a [GNode] that [addSingleToAnonSubtbl] touches. *)
Record GNode : Type := mkNode {
  gid : Z;
  flags : Z
}.

Section Anon.

(** [NDEBUG], and [FEAT_MISC] from the feature-file header. *)
Variable NDEBUG : bool.
Variable FEAT_MISC : Z.

(** [t->flags &= ~FEAT_MISC;] *)
Definition clear_found (t : GNode) : GNode :=
  mkNode (gid t) (Z.land (flags t) (Z.lnot FEAT_MISC)).

(** The first loop of [addSingleToAnonSubtbl]: [None] for [return false],
    else the map [needed]; and the target nodes after the loop. *)
Fixpoint anon_needed (singles : gmap Z Z) (ts : list GNode) (r : Z)
         (rest : list Z) (needed : gmap Z Z)
  : option (gmap Z Z) * list GNode :=
  match ts with
  | [] => (Some needed, [])
  | t :: ts' =>
      let '(r', rest') := next_repl r rest in
      match singles !! gid t with
      | Some r0 =>
          if negb (r0 =? r) then (None, clear_found t :: ts')
          else
            let '(res, ts'') := anon_needed singles ts' r' rest' needed in
            (res, clear_found t :: ts'')
      | None =>
          let '(res, ts'') :=
            anon_needed singles ts' r' rest' (map_insert (gid t) r needed) in
          (res, clear_found t :: ts'')
      end
  end.

(** [for (auto [tgid, rgid] : needed) si.singles.insert({tgid, rgid});] *)
Definition insert_all (needed singles : gmap Z Z) : gmap Z Z :=
  fold_left (fun m p => map_insert (fst p) (snd p) m) (in_order needed) singles.

(** [bool addSingleToAnonSubtbl(si, targ, repl)]: the value returned, the
    map of singles and the target nodes after the call; [is_single] is
    [si.lkpType == GSUBSingle].  Recycling the nodes is not part of the
    model. *)
Definition addSingleToAnonSubtbl (is_single : bool) (singles : gmap Z Z)
           (ts : list GNode) (rs : list Z)
  : result (bool * gmap Z Z * list GNode) :=
  assert NDEBUG is_single;;
  match ts, rs with
  | [], _ => Ret (true, singles, [])
  | _ :: _, [] => Undefined
  | _ :: _, r :: rest =>
      match anon_needed singles ts r rest ∅ with
      | (None, ts') => Ret (false, singles, ts')
      | (Some needed, ts') => Ret (true, insert_all needed singles, ts')
      end
  end.

End Anon.

(** *** Ligature substitution *)

(** The last branch of [cmpLigature], walking both targets:
    [for (; ga != NULL; ga = ga->nextSeq, gb = gb->nextSeq)
       if (ga->gid != gb->gid) return ga->gid < gb->gid;
     return false;] *)
Fixpoint cmp_rest (ga gb : list Z) : run bool :=
  match ga with
  | [] => Done false
  | u :: ga' =>
      match gb with
      | [] => Undef
      | v :: gb' => if negb (u =? v) then Done (u <? v) else cmp_rest ga' gb'
      end
  end.

(** [static bool cmpLigature(const SubstRule &a, const SubstRule &b)] *)
Definition cmpLigature (a b : SubstRule) : run bool :=
  match targ a, targ b with
  | u :: _, v :: _ =>
      if negb (u =? v) then Done (u <? v)
      else if negb (data a =? data b) then Done (data b <? data a)
      else cmp_rest (targ a) (targ b)
  | _, _ => Undef
  end.

(** [!cmpLigature(curr, prev) && !cmpLigature(prev, curr)] *)
Definition same_target (curr prev : SubstRule) : run bool :=
  c ← cmpLigature curr prev;
  if (c : bool) then Done false
  else c' ← cmpLigature prev curr; Done (negb c').

(** The loop of [LigatureSubst::checkAndSort], run on fuel:
    [while (i < si.rules.size()) { ... si.rules.erase(si.rules.begin() + i)
     ... else i++; }].
    A rule of the vector goes with a mark that tells whether
    [featRecycleNodes] has been called on its [repl].  Every ligature rule
    has a replacement node of its own ([addSubstRule]:
    [i == 0 ? repl : featSetNewNode(g, repl->gid)]), so the mark belongs
    to the rule.  On a duplicate the loop recycles [curr.targ] and
    [prev.repl] and erases [curr]: the target recycled goes with the rule
    erased, the replacement recycled is that of the rule that stays.
    [featRecycleNodes] is not among the sources, so what a recycled node
    holds is not known: the test [curr.repl->gid == prev.repl->gid] on a
    recycled node is given no result. *)
Fixpoint dedup_loop (fuel : nat) (i : nat) (rules : list (SubstRule * bool))
         (notes : list message) : run (list (SubstRule * bool) * list message) :=
  match fuel with
  | O => OutOfFuel
  | S fuel' =>
      if (i <? length rules)%nat then
        match rules !! i, rules !! (i - 1)%nat with
        | Some (curr, curr_recycled), Some (prev, prev_recycled) =>
            dup ← same_target curr prev;
            if (dup : bool) then
              if curr_recycled || prev_recycled then Undef
              else
                match repl curr, repl prev with
                | rc :: _, rp :: _ =>
                    if rc =? rp then
                      dedup_loop fuel' i
                        (delete i (<[(i - 1)%nat := (prev, true)]> rules))
                        (notes ++ [RemovingDuplicateLigature (targ curr) rc])
                    else Fatal (DuplicateLigatureTarget (targ curr))
                | _, _ => Undef
                end
            else dedup_loop fuel' (S i) rules notes
        | _, _ => Undef
        end
      else Done (rules, notes)
  end.

Section CheckAndSort.

(** [std::sort] at [std::vector<SubstRule>::iterator] with [cmpLigature]. *)
Variable std_sort : list SubstRule -> list SubstRule.

(** [void LigatureSubst::checkAndSort(GSUB &h, SubtableInfo &si)]: the
    rules with their marks and the notes after the call.  No replacement
    node of the rules that come in has been recycled. *)
Definition checkAndSort (rules : list SubstRule)
  : run (list (SubstRule * bool) * list message) :=
  dedup_loop (S (length rules)) 1 ((fun r => (r, false)) <$> std_sort rules) [].

End CheckAndSort.

(** *** Multiple and alternate substitution *)

(** The arguments of one call of the subtable constructor:
    [MultipleSubst(h, si, beg, end, sz, nSubs)]. *)
Record subtable_call : Type := mkCall {
  call_beg : Z;
  call_end : Z;
  call_sz : Z;
  call_nSubs : Z
}.

Section AutoBreak.

(** [size(nRules, nGlyphs)] of the subtable class, declared in GSUB.h, and
    the conversion of the last constructor argument to its parameter type
    ([uint32_t nSubs] for multiple, [uint16_t numAlts] for alternate
    substitution). *)
Variable size : Z -> Z -> Z.
Variable to_count : Z -> Z.

(** The duplicate check of the loop:
    [j != 0 && rule.targ->gid == si.rules[j-1].targ->gid]. *)
Definition duplicate_target (rules : list SubstRule) (j : Z) (rule : SubstRule)
  : run bool :=
  if j =? 0 then Done false
  else
    match targ rule, rules !! Z.to_nat (j - 1) with
    | g :: _, Some prev =>
        match targ prev with
        | [] => Undef
        | g' :: _ => Done (g =? g')
        end
    | _, _ => Undef
    end.

(** The loop of [MultipleSubst::fill] and of [AlternateSubst::fill] (the
    two differ in the chain that holds the replacement glyphs and in the
    text of the message), run on fuel; the result is the list of constructor
    calls in the order they are made.  The constructor itself is not run
    here: a call is kept by its arguments, and the size check the
    constructor makes in [HOT_DEBUG] builds is outside this definition.
    [if (sizeNew > 0xFFFF) { ...(i, j-1, sz, nSubs); sz = nSubs = 0; i = j--; }
     else if (j == si.rules.size() - 1) { ...(i, j, sizeNew, nSubsNew); }
     else { sz = sizeNew; nSubs = nSubsNew; }] *)
Fixpoint fill_loop (fuel : nat) (rules : list SubstRule) (i j sz nSubs : Z)
         (calls : list subtable_call) : run (list subtable_call) :=
  match fuel with
  | O => OutOfFuel
  | S fuel' =>
      if j <? Z.of_nat (length rules) then
        match rules !! Z.to_nat j with
        | None => Undef
        | Some rule =>
            dup ← duplicate_target rules j rule;
            if (dup : bool) then
              match targ rule with
              | g :: _ => Fatal (DuplicateTarget g)
              | [] => Undef
              end
            else
              let nSubsNew := to_uint32 (nSubs + Z.of_nat (length (repl rule))) in
              let sizeNew := size (j - i + 1) nSubsNew in
              if 0xFFFF <? sizeNew then
                fill_loop fuel' rules j j 0 0
                          (calls ++ [mkCall i (j - 1) sz (to_count nSubs)])
              else if j =? Z.of_nat (length rules) - 1 then
                fill_loop fuel' rules i (j + 1) sz nSubs
                          (calls ++ [mkCall i j sizeNew (to_count nSubsNew)])
              else
                fill_loop fuel' rules i (j + 1) sizeNew nSubsNew calls
        end
      else Done calls
  end.

(** The loop from its start, on rules already sorted by target:
    [long sz = 0; uint32_t nSubs = 0; int i = 0; for (size_t j = 0; ...)]. *)
Definition fill_sorted (fuel : nat) (rules : list SubstRule)
  : run (list subtable_call) :=
  fill_loop fuel rules 0 0 0 0 [].

End AutoBreak.

(** *** Feature parameters *)

(** [si.feature >> k & 0xFF] *)
Definition tag_byte (feature k : Z) : Z := Z.land (Z.shiftr feature k) 0xFF.

(** [uint16_t ssNumber = ((si.feature >> 8 & 0xFF) - (int)'0') * 10;
     ssNumber += (si.feature & 0xFF) - (int)'0';] *)
Definition feature_number (feature : Z) : Z :=
  let n := to_uint16 ((tag_byte feature 8 - 48) * 10) in
  to_uint16 (n + (Z.land feature 0xFF - 48)).

(** The test of [FeatureNameParam::fill]; when it fails the FATAL message
    "only allowed in Stylistic Set (ssXX) features" follows. *)
Definition is_stylistic_set (feature : Z) : bool :=
  (tag_byte feature 24 =? 115) && (tag_byte feature 16 =? 115) &&
  (feature_number feature <=? 99).

(** The test of [CVParam::fill]; when it fails the FATAL message "only
    allowed in Character Variant (cvXX) features" follows. *)
Definition is_character_variant (feature : Z) : bool :=
  (tag_byte feature 24 =? 99) && (tag_byte feature 16 =? 118) &&
  (feature_number feature <=? 99).

(** Modelled from the spec: [OUT1] and [OUT2] are macros of a header that
    is not among these files.  By the specification they emit fixed-width
    big-endian integers: one byte, two bytes. *)
Definition OUT1 (v : Z) : list Z := [v mod 256].
Definition OUT2 (v : Z) : list Z := [(v / 256) mod 256; v mod 256].

Definition to_int8 (z : Z) : Z := (z + 128) mod 256 - 128.

(** The body of the loop of [CVParam::write] for one character value:
    [int8_t val1 = (int8_t)(uv >> 16);
     uint16_t val2 = (uint16_t)(uv & 0x0000FFFF);
     OUT1(val1); OUT2(val2);] *)
Definition write_char_value (uv : Z) : list Z :=
  let val1 := to_int8 (Z.shiftr uv 16) in
  let val2 := to_uint16 (Z.land uv 0x0000FFFF) in
  OUT1 val1 ++ OUT2 val2.

(** [void CVParam::write(GSUB *h)]: the bytes written; [subformat] is the
    value of [subformat()], declared in GSUB.h. *)
Definition CVParam_write (subformat : Z) (params : CVParameterFormat.t) : list Z :=
  OUT2 subformat ++
  OUT2 (CVParameterFormat.FeatUILabelNameID params) ++
  OUT2 (CVParameterFormat.FeatUITooltipTextNameID params) ++
  OUT2 (CVParameterFormat.SampleTextNameID params) ++
  OUT2 (CVParameterFormat.NumNamedParameters params) ++
  OUT2 (CVParameterFormat.FirstParamUILabelNameID params) ++
  OUT2 (to_uint16 (Z.of_nat (length (CVParameterFormat.charValues params)))) ++
  flat_map write_char_value (CVParameterFormat.charValues params).

(** Three bytes read back as a big-endian number. *)
Definition read24 (bs : list Z) : option Z :=
  match bs with
  | [b0; b1; b2] => Some (b0 * 65536 + b1 * 256 + b2)
  | _ => None
  end.

(** [static void check_overflow(g, offsetType, offset, subType)]: whether
    the FATAL message is raised. *)
Definition check_overflow (offset : Z) : bool := 0xFFFF <? offset.

End GSUB.

(** ** Pascal strings of the BLND table (BLND.c) *)

Module BLND.

(** [~length & 1]: the pad byte after a string of even length. *)
Definition pad (length : Z) : Z := Z.land (Z.lnot length) 1.

(** The bytes one string takes, as [readString] consumes them, as
    [BLNDRead] adds them up ([size += 1 + len + (~len & 1)]) and as
    [dumpString] steps over them ([p + 1 + length + (~length & 1)]). *)
Definition span (length : Z) : Z := 1 + length + pad length.

(** The loop of [BLNDRead] that computes the length of the master FOND name
    table, for the length bytes [lens] that [IN1(len)] reads in turn;
    [size] is an [int]. *)
Definition masterNames_size (lens : list Z) : Z :=
  fold_left (fun size len => to_int (size + 1 + len + pad len)) lens 0.

End BLND.

(** *** Vocabulary for the substitution table *)

Module Ligature.

(** A ligature rule as [addSubstRule] stores it: a target of at least one
    glyph, one replacement glyph, and the length of the target in [data]. *)
Definition well_formed (r : GSUB.SubstRule) : Prop :=
  GSUB.targ r <> [] /\ GSUB.repl r <> [] /\
  GSUB.data r = Z.of_nat (length (GSUB.targ r)).

(** The sort key that the comment on [cmpLigature] names: first GID of the
    target, its length (decreasing), then all its GIDs. *)
Definition key (r : GSUB.SubstRule) : list Z :=
  hd 0 (GSUB.targ r) :: - GSUB.data r :: GSUB.targ r.

(** What the C++ library promises of [std::sort] with [cmpLigature], on
    rules the comparison is defined for. *)
Definition conforming (std_sort : list GSUB.SubstRule -> list GSUB.SubstRule) : Prop :=
  forall l, Forall well_formed l ->
    Permutation l (std_sort l) /\
    StronglySorted (fun a b => GSUB.cmpLigature b a = GSUB.Done false) (std_sort l).

(** An insertion sort by the key, as one conforming algorithm. *)
Fixpoint insert (a : GSUB.SubstRule) (l : list GSUB.SubstRule) : list GSUB.SubstRule :=
  match l with
  | [] => [a]
  | b :: l' => if lex_ltb (key b) (key a) then b :: insert a l' else a :: l
  end.

Definition insertion_sort (l : list GSUB.SubstRule) : list GSUB.SubstRule :=
  fold_right insert [] l.

(** How many of the rules have the target sequence [t]. *)
Definition occurrences (t : list Z) (rules : list GSUB.SubstRule) : nat :=
  length (filter (fun r => GSUB.targ r = t) rules).

(** Two of the rules have the same target sequence and different
    replacement glyphs. *)
Definition conflict (rules : list GSUB.SubstRule) : Prop :=
  exists r1 r2, r1 ∈ rules /\ r2 ∈ rules /\ GSUB.targ r1 = GSUB.targ r2 /\
                hd 0 (GSUB.repl r1) <> hd 0 (GSUB.repl r2).

(** The loop of [checkAndSort] told by structure: [prev], with the mark
    on its replacement node, and what follows it once the duplicates among
    [rest] are gone, and the notes made on the way. *)
Fixpoint dedup_after (prev : GSUB.SubstRule) (recycled : bool)
         (rest : list GSUB.SubstRule)
  : GSUB.run (list (GSUB.SubstRule * bool) * list GSUB.message) :=
  match rest with
  | [] => GSUB.Done ([(prev, recycled)], [])
  | curr :: rest' =>
      if bool_decide (GSUB.targ curr = GSUB.targ prev) then
        if recycled then GSUB.Undef
        else if hd 0 (GSUB.repl curr) =? hd 0 (GSUB.repl prev) then
          '(l, ns) ← dedup_after prev true rest';
          GSUB.Done (l, GSUB.RemovingDuplicateLigature (GSUB.targ curr)
                          (hd 0 (GSUB.repl curr)) :: ns)
        else GSUB.Fatal (GSUB.DuplicateLigatureTarget (GSUB.targ curr))
      else
        '(l, ns) ← dedup_after curr false rest';
        GSUB.Done ((prev, recycled) :: l, ns)
  end.

End Ligature.

Module AutoBreak.

(** The number of replacement glyphs of the rules [i], ..., [j - 1]. *)
Definition glyphs_between (rules : list GSUB.SubstRule) (i j : Z) : Z :=
  foldr (fun r s => Z.of_nat (length (GSUB.repl r)) + s) 0
        (take (Z.to_nat (j - i)) (drop (Z.to_nat i) rules)).

(** Rules the loop can run on: each has a target, no two neighbours share
    their target glyph, and each one fits a subtable of its own. *)
Definition breakable (size : Z -> Z -> Z) (rules : list GSUB.SubstRule) : Prop :=
  Forall (fun r => GSUB.targ r <> [] /\
                   size 1 (GSUB.to_uint32 (Z.of_nat (length (GSUB.repl r)))) <= 0xFFFF)
         rules /\
  forall (j : nat) a b, rules !! j = Some a -> rules !! S j = Some b ->
                        hd 0 (GSUB.targ a) <> hd 0 (GSUB.targ b).

(** The constructor calls tile the rules from [i] on: each call takes the
    rules from where the one before stopped, at least one of them; its
    size is the one computed for exactly its rules and fits 16 bits; and
    unless it is the last, one more rule would not have fitted. *)
Fixpoint tiles (size : Z -> Z -> Z) (to_count : Z -> Z)
         (rules : list GSUB.SubstRule) (i : Z) (calls : list GSUB.subtable_call)
  : Prop :=
  match calls with
  | [] => i = Z.of_nat (length rules)
  | c :: calls' =>
      GSUB.call_beg c = i /\ i <= GSUB.call_end c < Z.of_nat (length rules) /\
      GSUB.call_nSubs c =
        to_count (GSUB.to_uint32 (glyphs_between rules i (GSUB.call_end c + 1))) /\
      GSUB.call_sz c =
        size (GSUB.call_end c - i + 1)
             (GSUB.to_uint32 (glyphs_between rules i (GSUB.call_end c + 1))) /\
      GSUB.call_sz c <= 0xFFFF /\
      (calls' <> [] ->
       0xFFFF < size (GSUB.call_end c - i + 2)
                     (GSUB.to_uint32 (glyphs_between rules i (GSUB.call_end c + 2)))) /\
      tiles size to_count rules (GSUB.call_end c + 1) calls'
  end.

End AutoBreak.

(** * Properties *)

Import GPat.

(** ** ClassRec predicates *)

(** C3: [is_glyph] holds exactly when the glyph sequence has one element
    and [gclass] is unset; [is_class] holds exactly when the glyph sequence
    has more than one element or [gclass] is set. *)
Theorem classrec_is_glyph_is_class (c : ClassRec.t) :
  (ClassRec.is_glyph c = true <->
   length (ClassRec.glyphs c) = 1%nat /\ ClassRec.gclass c = false) /\
  (ClassRec.is_class c = true <->
   (1 < length (ClassRec.glyphs c))%nat \/ ClassRec.gclass c = true).
Proof.
  unfold ClassRec.is_glyph, ClassRec.is_class, ClassRec.is_multi_class,
    ClassRec.size.
  split.
  - rewrite andb_true_iff, negb_true_iff, Z.eqb_eq. split; intros [H1 H2]; split; auto; lia.
  - rewrite orb_true_iff, Z.ltb_lt. split; intros [H | H]; auto; left; lia.
Qed.

(** ** Anchors *)

(** C4, as the code has it: [a == b] holds exactly when format, x, y,
    markClassIndex and componentIndex match, and the contour point too when
    the format is 2.  The mark class name is not looked at. *)
Theorem anchor_eq_compared_components (a b : AnchorMarkInfo.t) :
  AnchorMarkInfo.eqb a b = true <-> AnchorMarkInfo.compared_components_match a b.
Proof.
  unfold AnchorMarkInfo.eqb, AnchorMarkInfo.compared_components_match.
  rewrite !andb_true_iff, orb_true_iff, negb_true_iff, !Z.eqb_eq, Z.eqb_neq.
  split.
  - intros [[[[[H1 H2] H3] H4] H5] H6]. repeat split; auto.
    intros Hf. destruct H6 as [H6 | H6]; [contradiction | exact H6].
  - intros (H1 & H2 & H3 & H4 & H5 & H6). repeat split; auto.
    destruct (Z.eq_dec (AnchorMarkInfo.format a) 2) as [E | E]; auto.
Qed.

(** C4, counterexample: two anchors that differ in the mark class name only
    are equal for [operator==]. *)
Lemma anchor_eq_ignores_name :
  ~ (AnchorMarkInfo.eqb (AnchorMarkInfo.mk 1 0 0 10 20 0 "top")
                        (AnchorMarkInfo.mk 1 0 0 10 20 0 "bottom") = true <->
     AnchorMarkInfo.all_components_match
       (AnchorMarkInfo.mk 1 0 0 10 20 0 "top")
       (AnchorMarkInfo.mk 1 0 0 10 20 0 "bottom")).
Proof.
  intros [H _]. specialize (H eq_refl).
  destruct H as (_ & _ & _ & _ & _ & Hname & _). simpl in Hname. discriminate Hname.
Qed.

(** *** The order on anchors *)

Lemma lex_ltb_irrefl (a : list Z) : lex_ltb a a = false.
Proof.
  induction a as [| u a IH]; simpl; [reflexivity |].
  rewrite Z.ltb_irrefl, Z.eqb_refl, IH. reflexivity.
Qed.

Lemma lex_ltb_trans (a b c : list Z) :
  lex_ltb a b = true -> lex_ltb b c = true -> lex_ltb a c = true.
Proof.
  revert b c. induction a as [| u a IH]; intros [| v b] [| w c]; simpl;
    try congruence.
  rewrite !orb_true_iff, !andb_true_iff, !Z.ltb_lt, !Z.eqb_eq.
  intros [H1 | [H1 H1']] [H2 | [H2 H2']].
  - left; lia.
  - left; lia.
  - left; lia.
  - right; split; [lia | eauto].
Qed.

Lemma lex_ltb_trichotomy (a b : list Z) :
  length a = length b ->
  exactly_one (lex_ltb a b) (lex_ltb b a) (bool_decide (a = b)).
Proof.
  revert b. induction a as [| u a IH]; intros [| v b] Hlen; simpl in Hlen;
    try discriminate.
  - right; right. repeat split.
  - injection Hlen as Hlen. specialize (IH b Hlen). simpl.
    destruct (Z.lt_total u v) as [Hlt | [Heq | Hgt]].
    + left. repeat split.
      * apply orb_true_iff; left; apply Z.ltb_lt; lia.
      * apply orb_false_iff; split; [apply Z.ltb_ge; lia |].
        apply andb_false_iff; left; apply Z.eqb_neq; lia.
      * apply bool_decide_eq_false. intros E; injection E; lia.
    + subst v. rewrite Z.ltb_irrefl, Z.eqb_refl. simpl.
      destruct IH as [(H1 & H2 & H3) | [(H1 & H2 & H3) | (H1 & H2 & H3)]].
      * left. repeat split; auto.
        apply bool_decide_eq_false. apply bool_decide_eq_false in H3. congruence.
      * right; left. repeat split; auto.
        apply bool_decide_eq_false. apply bool_decide_eq_false in H3. congruence.
      * right; right. repeat split; auto.
        apply bool_decide_eq_true. apply bool_decide_eq_true in H3. congruence.
    + right; left. repeat split.
      * apply orb_false_iff; split; [apply Z.ltb_ge; lia |].
        apply andb_false_iff; left; apply Z.eqb_neq; lia.
      * apply orb_true_iff; left; apply Z.ltb_lt; lia.
      * apply bool_decide_eq_false. intros E; injection E; lia.
Qed.

Lemma anchor_lt_key (a b : AnchorMarkInfo.t) :
  AnchorMarkInfo.lt a b = lex_ltb (AnchorMarkInfo.key a) (AnchorMarkInfo.key b).
Proof.
  destruct a as [fa ma ca xa ya pa na], b as [fb mb cb xb yb pb nb].
  unfold AnchorMarkInfo.lt, AnchorMarkInfo.key; simpl.
  destruct (Z.eqb_spec ca cb) as [-> | Hc]; simpl.
  2: now rewrite orb_false_r.
  rewrite Z.ltb_irrefl; simpl.
  destruct (Z.eqb_spec ma mb) as [-> | Hm]; simpl.
  2: now rewrite orb_false_r.
  rewrite Z.ltb_irrefl; simpl.
  destruct (Z.eqb_spec fa fb) as [-> | Hf]; simpl.
  2: now rewrite orb_false_r.
  rewrite Z.ltb_irrefl; simpl.
  destruct (Z.eqb_spec xa xb) as [-> | Hx]; simpl.
  2: now rewrite orb_false_r.
  rewrite Z.ltb_irrefl; simpl.
  destruct (Z.eqb_spec ya yb) as [-> | Hy]; simpl.
  2: now rewrite orb_false_r.
  rewrite Z.ltb_irrefl; simpl.
  destruct (Z.eqb_spec fb 2) as [-> | Hf2]; simpl.
  - destruct (Z.eqb_spec pa pb) as [-> | Hp]; simpl.
    + now rewrite Z.ltb_irrefl.
    + now rewrite orb_false_r.
  - reflexivity.
Qed.

Lemma anchor_eqb_key (a b : AnchorMarkInfo.t) :
  AnchorMarkInfo.eqb a b = bool_decide (AnchorMarkInfo.key a = AnchorMarkInfo.key b).
Proof.
  destruct a as [fa ma ca xa ya pa na], b as [fb mb cb xb yb pb nb].
  unfold AnchorMarkInfo.eqb, AnchorMarkInfo.key; simpl.
  apply eq_true_iff_eq. rewrite bool_decide_eq_true.
  rewrite !andb_true_iff, orb_true_iff, negb_true_iff, !Z.eqb_eq, Z.eqb_neq.
  split.
  - intros [[[[[-> ->] ->] ->] ->] H].
    destruct (Z.eqb_spec fb 2) as [E | E]; [| reflexivity].
    destruct H as [H | ->]; [contradiction | reflexivity].
  - intros E. injection E as -> -> -> -> -> E6. repeat split.
    destruct (Z.eqb_spec fb 2) as [E | E]; [right; exact E6 | left; exact E].
Qed.

(** C5: [operator<] is the strict lexicographic order on the key
    (componentIndex, markClassIndex, format, x, y, contourpoint), the
    contour point counting only for format 2; it is irreflexive and
    transitive, and of [a < b], [b < a], [a == b] exactly one holds. *)
Theorem anchor_lt_lexicographic_total :
  (forall a b, AnchorMarkInfo.lt a b =
               lex_ltb (AnchorMarkInfo.key a) (AnchorMarkInfo.key b)) /\
  (forall a, AnchorMarkInfo.lt a a = false) /\
  (forall a b c, AnchorMarkInfo.lt a b = true -> AnchorMarkInfo.lt b c = true ->
                 AnchorMarkInfo.lt a c = true) /\
  (forall a b, exactly_one (AnchorMarkInfo.lt a b) (AnchorMarkInfo.lt b a)
                           (AnchorMarkInfo.eqb a b)).
Proof.
  split; [exact anchor_lt_key |]. split; [| split].
  - intros a. rewrite anchor_lt_key. apply lex_ltb_irrefl.
  - intros a b c. rewrite !anchor_lt_key. apply lex_ltb_trans.
  - intros a b. rewrite !anchor_lt_key, anchor_eqb_key.
    apply lex_ltb_trichotomy. reflexivity.
Qed.

(** ** Lookup labels *)

Lemma land_ref_lab (L : Z) :
  Z.land L Label.REF_LAB = 0 <-> Z.testbit L 15 = false.
Proof.
  change Label.REF_LAB with (2 ^ 15). split.
  - intros H.
    assert (E : Z.testbit (Z.land L (2 ^ 15)) 15 = Z.testbit 0 15) by (rewrite H; reflexivity).
    rewrite Z.land_spec, Z.pow2_bits_true, andb_true_r in E by lia.
    rewrite E. reflexivity.
  - intros H. apply Z.bits_inj'. intros n Hn.
    rewrite Z.land_spec, Z.bits_0, Z.pow2_bits_eqb by lia.
    destruct (Z.eqb_spec 15 n) as [<- | Hne].
    + rewrite H. reflexivity.
    + apply andb_false_r.
Qed.

(** C6, as the code has it: for a 16-bit label [L], [IS_REF_LAB(L)] holds
    exactly when [L] is not [LAB_UNDEF] and its high bit 0x8000 is set. *)
Theorem is_ref_lab_high_bit_unless_undef (L : Z) :
  Label.is_label L ->
  (Label.IS_REF_LAB L = true <->
   L <> Label.LAB_UNDEF /\ Label.high_bit L = true).
Proof.
  intros _. unfold Label.IS_REF_LAB, Label.high_bit.
  rewrite andb_true_iff, !negb_true_iff, !Z.eqb_neq, land_ref_lab.
  destruct (Z.testbit L 15); intuition congruence.
Qed.

Lemma is_ref_lab_high_bit_witness :
  Label.is_label 0x8003 /\
  (Label.IS_REF_LAB 0x8003 = true <->
   0x8003 <> Label.LAB_UNDEF /\ Label.high_bit 0x8003 = true).
Proof.
  split; [unfold Label.is_label; lia |].
  apply (is_ref_lab_high_bit_unless_undef 0x8003). unfold Label.is_label; lia.
Defined.

(** C6, counterexample: [LAB_UNDEF] = 0xFFFF has its high bit set and is
    not a reference label. *)
Lemma is_ref_lab_undef_not_ref :
  ~ (Label.IS_REF_LAB 0xFFFF = true <-> Label.high_bit 0xFFFF = true).
Proof.
  intros [_ H]. specialize (H eq_refl). discriminate H.
Qed.

(** ** Adding glyphs to a ClassRec *)

Lemma set_glyphs_same_but_glyphs (c : ClassRec.t) (g : list GlyphRec.t) :
  ClassRec.same_but_glyphs c (ClassRec.set_glyphs c g).
Proof. unfold ClassRec.same_but_glyphs. simpl. repeat split. Qed.



(** C8: for two ClassRec objects [c] and [other], after [c.concat(other)]
    the glyph sequence of [c] is its old one followed by that of [other];
    every other member of [c], the object [other] and every other object
    are unchanged. *)
Theorem concat_appends_and_frames
  (h : gmap positive ClassRec.t) (pc po : positive) (c o : ClassRec.t) :
  h !! pc = Some c -> h !! po = Some o -> pc <> po ->
  exists h' c',
    Store.concat h pc po = Ret h' /\
    h' !! pc = Some c' /\
    ClassRec.glyphs c' = ClassRec.glyphs c ++ ClassRec.glyphs o /\
    ClassRec.same_but_glyphs c c' /\
    h' !! po = Some o /\
    (forall q, q <> pc -> h' !! q = h !! q).
Proof.
  intros Hc Ho Hne. unfold Store.concat. rewrite Hc, Ho.
  destruct (decide (pc = po)) as [E | _]; [contradiction |].
  eexists _, _. split; [reflexivity |].
  split; [apply lookup_insert_eq |].
  split; [reflexivity |].
  split; [apply set_glyphs_same_but_glyphs |].
  split.
  - rewrite lookup_insert_ne by exact Hne. exact Ho.
  - intros q Hq. apply lookup_insert_ne. congruence.
Qed.

Lemma concat_appends_and_frames_witness :
  exists h' c',
    Store.concat
      (<[1%positive := CrossProduct.class_of [1; 2]]>
         (<[2%positive := CrossProduct.class_of [3]]> (∅ : gmap positive ClassRec.t))) 1 2 = Ret h' /\
    h' !! 1%positive = Some c' /\
    ClassRec.glyphs c' =
      ClassRec.glyphs (CrossProduct.class_of [1; 2]) ++
      ClassRec.glyphs (CrossProduct.class_of [3]) /\
    ClassRec.same_but_glyphs (CrossProduct.class_of [1; 2]) c' /\
    h' !! 2%positive = Some (CrossProduct.class_of [3]) /\
    (forall q, q <> 1%positive ->
               h' !! q =
               (<[1%positive := CrossProduct.class_of [1; 2]]>
                  (<[2%positive := CrossProduct.class_of [3]]> (∅ : gmap positive ClassRec.t))) !! q).
Proof.
  apply (concat_appends_and_frames _ 1%positive 2%positive
           (CrossProduct.class_of [1; 2]) (CrossProduct.class_of [3])).
  - reflexivity.
  - reflexivity.
  - discriminate.
Defined.

(** ** Tags *)

(** C9: [addTag(a, t)] returns false and leaves [a] unchanged when [t] is
    not in [a], and returns true with [a] unchanged when [t] is in [a]; it
    never changes the set. *)
Theorem addTag_never_inserts (a : gset Z) (t : Z) :
  (t ∉ a -> FeatCtx.addTag a t = (false, a)) /\
  (t ∈ a -> FeatCtx.addTag a t = (true, a)) /\
  snd (FeatCtx.addTag a t) = a.
Proof.
  unfold FeatCtx.addTag, FeatCtx.emplace.
  destruct (decide (t ∉ a)) as [Hn | Hin].
  - repeat split; [intros Hin; contradiction].
  - assert (Hin' : t ∈ a) by (apply dec_stable; exact Hin).
    assert (E : {[t]} ∪ a = a)
      by (apply subseteq_union_1_L, singleton_subseteq_l; exact Hin').
    rewrite E. repeat split. intros Hn; contradiction.
Qed.

Lemma addTag_never_inserts_witness :
  FeatCtx.addTag {[ 0x6C696761 ]} 0x6B65726E = (false, {[ 0x6C696761 ]}) /\
  FeatCtx.addTag {[ 0x6C696761 ]} 0x6C696761 = (true, {[ 0x6C696761 ]}).
Proof.
  split.
  - apply (proj1 (addTag_never_inserts {[ 0x6C696761 ]} 0x6B65726E)).
    rewrite elem_of_singleton. discriminate.
  - apply (proj1 (proj2 (addTag_never_inserts {[ 0x6C696761 ]} 0x6C696761))).
    apply elem_of_singleton. reflexivity.
Defined.

(** ** Accessors of a pattern at an index past its classes *)

(** C10, as the code has it: at an index [idx] not below the number of
    classes, when assertions are compiled out [glyphInClass] returns false,
    [classSize] returns 0, and [sortClass] and [makeClassUnique] leave the
    pattern (and the context) unchanged; when assertions are compiled in,
    each of the four stops at its [assert].  None reads out of bounds. *)
Theorem accessors_past_the_end
  (NDEBUG : bool) (std_sort : list GlyphRec.t -> list GlyphRec.t)
  (hotCtx : Type)
  (makeUnique : ClassRec.t -> hotCtx -> bool -> ClassRec.t * hotCtx)
  (p : GPat.t) (gid idx : Z) (g : hotCtx) (report : bool) :
  GPat.size p <= idx ->
  GPat.glyphInClass NDEBUG p gid idx =
    (if NDEBUG then Ret false else AssertFail) /\
  GPat.classSize NDEBUG p idx = (if NDEBUG then Ret 0 else AssertFail) /\
  GPat.sortClass NDEBUG std_sort p idx =
    (if NDEBUG then Ret p else AssertFail) /\
  GPat.makeClassUnique NDEBUG hotCtx makeUnique p g idx report =
    (if NDEBUG then Ret (p, g) else AssertFail).
Proof.
  intros Hidx.
  unfold GPat.glyphInClass, GPat.classSize, GPat.sortClass,
    GPat.makeClassUnique, assert.
  assert (H1 : (idx <? GPat.size p) = false) by (apply Z.ltb_ge; lia).
  assert (H2 : (GPat.size p <=? idx) = true) by (apply Z.leb_le; lia).
  rewrite H1, orb_false_r.
  destruct NDEBUG; simpl; rewrite ?H2; repeat split.
Qed.

Lemma accessors_past_the_end_witness :
  GPat.glyphInClass true (GPat.of_gid 5) 5 1 = Ret false /\
  GPat.classSize true (GPat.of_gid 5) 1 = Ret 0 /\
  GPat.sortClass true StdSort.keeping_sort (GPat.of_gid 5) 1 =
    Ret (GPat.of_gid 5) /\
  GPat.makeClassUnique true unit (fun c g _ => (c, g)) (GPat.of_gid 5) tt 1 false =
    Ret (GPat.of_gid 5, tt).
Proof.
  apply (accessors_past_the_end true StdSort.keeping_sort unit
           (fun c g _ => (c, g)) (GPat.of_gid 5) 5 1 tt false).
  unfold GPat.size. simpl. lia.
Defined.

(** C10, counterexample: in a build with assertions, [glyphInClass] on the
    empty pattern does not return false, it stops at the assertion. *)
Lemma glyphInClass_past_the_end_asserts :
  ~ (forall NDEBUG : bool, GPat.glyphInClass NDEBUG GPat.init 5 0 = Ret false).
Proof. intros H. specialize (H false). discriminate H. Qed.

(** ** Sorting a ClassRec *)

Section InsertionSort.

Variable before : GlyphRec.t -> GlyphRec.t -> bool.

Hypothesis before_true :
  forall a b, before a b = true -> GlyphRec.gid a <= GlyphRec.gid b.
Hypothesis before_false :
  forall a b, before a b = false -> GlyphRec.gid b <= GlyphRec.gid a.

Lemma insert_Permutation (a : GlyphRec.t) (l : list GlyphRec.t) :
  Permutation (a :: l) (StdSort.insert before a l).
Proof.
  induction l as [| b l IH]; simpl; [reflexivity |].
  destruct (before a b); [reflexivity |].
  rewrite perm_swap. apply perm_skip. exact IH.
Qed.

Lemma insertion_sort_Permutation (l : list GlyphRec.t) :
  Permutation l (StdSort.insertion_sort before l).
Proof.
  induction l as [| a l IH]; simpl; [reflexivity |].
  rewrite <- insert_Permutation. apply perm_skip. exact IH.
Qed.

Lemma insert_sorted (a : GlyphRec.t) (l : list GlyphRec.t) :
  StronglySorted (fun u v => GlyphRec.lt v u = false) l ->
  StronglySorted (fun u v => GlyphRec.lt v u = false) (StdSort.insert before a l).
Proof.
  unfold GlyphRec.lt.
  induction l as [| b l IH]; simpl; intros Hs.
  - constructor; constructor.
  - apply StronglySorted_cons in Hs as [Hb Hl].
    destruct (before a b) eqn:E.
    + constructor; [constructor; assumption |].
      apply before_true in E. constructor.
      * apply Z.ltb_ge. lia.
      * eapply Forall_impl; [exact Hb |]. simpl. intros c Hc.
        apply Z.ltb_ge. apply Z.ltb_ge in Hc. lia.
    + apply before_false in E. constructor; [apply IH, Hl |].
      rewrite <- insert_Permutation. constructor; [| exact Hb].
      apply Z.ltb_ge. lia.
Qed.

Lemma insertion_sort_conforming :
  StdSort.conforming (StdSort.insertion_sort before).
Proof.
  intros l. split; [apply insertion_sort_Permutation |].
  induction l as [| a l IH]; simpl; [constructor |].
  apply insert_sorted, IH.
Qed.

End InsertionSort.

Lemma keeping_sort_conforming : StdSort.conforming StdSort.keeping_sort.
Proof.
  apply insertion_sort_conforming; unfold GlyphRec.lt; intros a b.
  - rewrite negb_true_iff, Z.ltb_ge. lia.
  - rewrite negb_false_iff, Z.ltb_lt. lia.
Qed.

Lemma reversing_sort_conforming : StdSort.conforming StdSort.reversing_sort.
Proof.
  apply insertion_sort_conforming; unfold GlyphRec.lt; intros a b.
  - rewrite Z.ltb_lt. lia.
  - rewrite Z.ltb_ge. lia.
Qed.

Lemma sorted_ascending (l : list GlyphRec.t) :
  StronglySorted (fun u v => GlyphRec.lt v u = false) l -> StdSort.ascending l.
Proof.
  induction 1 as [| a l Hl IH Ha]; intros i j u v Hij Hi Hj.
  - rewrite lookup_nil in Hi. discriminate Hi.
  - destruct j as [| j]; [lia |]. simpl in Hj.
    destruct i as [| i]; simpl in Hi.
    + injection Hi as <-. rewrite Forall_forall in Ha.
      apply list_elem_of_lookup_2, Ha in Hj.
      unfold GlyphRec.lt in Hj. apply Z.ltb_ge in Hj. exact Hj.
    + apply (IH i j); [lia | assumption..].
Qed.

Lemma sorted_gids (l : list GlyphRec.t) :
  StronglySorted (fun u v => GlyphRec.lt v u = false) l ->
  StronglySorted Z.le (GlyphRec.gid <$> l).
Proof.
  apply StronglySorted_fmap. intros u v. unfold GlyphRec.lt. apply Z.ltb_ge.
Qed.

(** C2, as the code has it: [sort()] hands the glyph sequence to
    [std::sort].  Whatever conforming algorithm that is, the result is a
    permutation of the records in ascending order of GID, no other member
    changes, and the sequence of GIDs is the same for every conforming
    algorithm.  The order among records of equal GID is not fixed. *)
Theorem sort_ascending_permutation
  (std_sort : list GlyphRec.t -> list GlyphRec.t) (c : ClassRec.t) :
  StdSort.conforming std_sort ->
  Permutation (ClassRec.glyphs c) (ClassRec.glyphs (ClassRec.sort std_sort c)) /\
  StdSort.ascending (ClassRec.glyphs (ClassRec.sort std_sort c)) /\
  ClassRec.same_but_glyphs c (ClassRec.sort std_sort c) /\
  (forall std_sort', StdSort.conforming std_sort' ->
     GlyphRec.gid <$> ClassRec.glyphs (ClassRec.sort std_sort' c) =
     GlyphRec.gid <$> ClassRec.glyphs (ClassRec.sort std_sort c)).
Proof.
  intros Hconf. destruct (Hconf (ClassRec.glyphs c)) as [Hperm Hsorted].
  split; [exact Hperm |]. split; [apply sorted_ascending, Hsorted |].
  split; [apply set_glyphs_same_but_glyphs |].
  intros std_sort' Hconf'. simpl.
  destruct (Hconf' (ClassRec.glyphs c)) as [Hperm' Hsorted'].
  apply (StronglySorted_unique Z.le); [apply sorted_gids; assumption.. |].
  apply fmap_Permutation. rewrite <- Hperm', <- Hperm. reflexivity.
Qed.

Lemma sort_ascending_permutation_witness :
  Permutation (ClassRec.glyphs (CrossProduct.class_of [3; 1; 2]))
    (ClassRec.glyphs
       (ClassRec.sort StdSort.keeping_sort (CrossProduct.class_of [3; 1; 2]))) /\
  GlyphRec.gid <$>
    ClassRec.glyphs
      (ClassRec.sort StdSort.keeping_sort (CrossProduct.class_of [3; 1; 2])) =
  [1; 2; 3].
Proof.
  destruct (sort_ascending_permutation StdSort.keeping_sort
              (CrossProduct.class_of [3; 1; 2]) keeping_sort_conforming)
    as (Hperm & _ & _ & _).
  split; [exact Hperm | reflexivity].
Defined.

(** C2, counterexample: a conforming [std::sort] may exchange two records
    of the same GID that differ in their anchors, so [sort()] is not
    stable. *)
Lemma sort_not_stable :
  ~ (forall std_sort, StdSort.conforming std_sort ->
       StdSort.stable (ClassRec.glyphs StdSort.twice_anchored)
         (ClassRec.glyphs (ClassRec.sort std_sort StdSort.twice_anchored))).
Proof.
  intros H. specialize (H StdSort.reversing_sort reversing_sort_conforming 5).
  discriminate H.
Qed.

(** ** The cross-product iterator *)

Section CrossProductFacts.

Import CrossProduct.

Lemma succ_no_carry (k s : Z) :
  0 < s -> k mod s + 1 < s ->
  (k + 1) mod s = k mod s + 1 /\ (k + 1) / s = k / s.
Proof.
  intros Hs Hlt. pose proof (Z.mod_pos_bound k s Hs) as Hb.
  pose proof (Z.div_mod k s ltac:(lia)) as Hk.
  assert (E : k + 1 = k / s * s + (k mod s + 1)) by lia.
  split.
  - rewrite E, Z.add_comm, Z.mod_add by lia. apply Z.mod_small. lia.
  - rewrite E at 1. rewrite Z.add_comm, Z.div_add by lia.
    rewrite Z.div_small by lia. lia.
Qed.

Lemma succ_carry (k s : Z) :
  0 < s -> k mod s + 1 = s ->
  (k + 1) mod s = 0 /\ (k + 1) / s = k / s + 1.
Proof.
  intros Hs Heq. pose proof (Z.div_mod k s ltac:(lia)) as Hk.
  assert (E : k + 1 = 0 + (k / s + 1) * s) by lia.
  split.
  - rewrite E, Z.mod_add by lia. apply Z.mod_0_l. lia.
  - rewrite E at 1. rewrite Z.div_add by lia. rewrite Z.div_0_l by lia. lia.
Qed.

Lemma total_pos (ss : list Z) : Forall (fun s => 1 <= s) ss -> 1 <= total ss.
Proof.
  induction 1 as [| s ss Hs _ IH]; simpl; [lia | nia].
Qed.

Lemma countable_sizes (cs : list ClassRec.t) :
  countable cs -> Forall (fun s => 1 <= s) (sizes cs).
Proof.
  unfold countable, sizes. intros H. apply Forall_fmap.
  eapply Forall_impl; [exact H |]. simpl. intros c Hc. lia.
Qed.

Lemma digits_length (ss : list Z) (k : Z) : length (digits ss k) = length ss.
Proof.
  revert k. induction ss as [| s ss IH]; intros k; simpl; [reflexivity |].
  rewrite IH. reflexivity.
Qed.

Lemma digits_zero (ss : list Z) : digits ss 0 = repeat 0 (length ss).
Proof.
  induction ss as [| s ss IH]; simpl; [reflexivity |].
  rewrite Zmod_0_l, Zdiv_0_l, IH. reflexivity.
Qed.

Lemma digits_in_bounds (ss : list Z) (k : Z) :
  Forall (fun s => 1 <= s) ss -> in_bounds ss (digits ss k).
Proof.
  intros H. revert k. unfold in_bounds.
  induction H as [| s ss Hs _ IH]; intros k; simpl; constructor.
  - apply Z.mod_pos_bound. lia.
  - apply IH.
Qed.

Lemma digits_onto (ss ix : list Z) :
  in_bounds ss ix -> exists k, 0 <= k < total ss /\ digits ss k = ix.
Proof.
  unfold in_bounds. induction 1 as [| n s ix ss Hn _ IH]; simpl.
  - exists 0. split; [lia | reflexivity].
  - destruct IH as (k & Hk & <-). exists (n + k * s). split; [nia |].
    rewrite Z.mod_add, Z.div_add by lia.
    rewrite Z.mod_small, Z.div_small by lia. reflexivity.
Qed.

Lemma digits_colex_lt (ss : list Z) (j k : Z) :
  Forall (fun s => 1 <= s) ss -> 0 <= j < k -> k < total ss ->
  colex_lt (digits ss j) (digits ss k).
Proof.
  intros H. revert j k. induction H as [| s ss Hs _ IH]; intros j k Hjk Hk; simpl in *.
  - lia.
  - assert (Hle : j / s <= k / s) by (apply Z.div_le_mono; lia).
    destruct (Z.eq_dec (j / s) (k / s)) as [E | NE].
    + right. rewrite E. split; [reflexivity |].
      pose proof (Z.div_mod j s ltac:(lia)). pose proof (Z.div_mod k s ltac:(lia)).
      rewrite E in *. lia.
    + left. apply IH.
      * split; [apply Z.div_pos; lia | lia].
      * apply Z.div_lt_upper_bound; lia.
Qed.

Lemma colex_lt_irrefl (a : list Z) : ~ colex_lt a a.
Proof.
  induction a as [| u a IH]; simpl; [tauto |].
  intros [H | [_ H]]; [auto | lia].
Qed.

Lemma digits_inj (ss : list Z) (j k : Z) :
  Forall (fun s => 1 <= s) ss -> 0 <= j < total ss -> 0 <= k < total ss ->
  digits ss j = digits ss k -> j = k.
Proof.
  intros H Hj Hk E.
  destruct (Z.lt_total j k) as [Hlt | [Heq | Hgt]]; [| exact Heq |].
  - exfalso. apply (colex_lt_irrefl (digits ss k)). rewrite <- E at 1.
    apply digits_colex_lt; [assumption | lia | lia].
  - exfalso. apply (colex_lt_irrefl (digits ss j)). rewrite E at 1.
    apply digits_colex_lt; [assumption | lia | lia].
Qed.

Lemma tuple_lookup (cs : list ClassRec.t) (ix : list Z) (i : nat)
      (c : ClassRec.t) (n : Z) :
  in_bounds (sizes cs) ix -> cs !! i = Some c -> ix !! i = Some n ->
  exists r, ClassRec.glyphs c !! Z.to_nat n = Some r /\
            tuple cs ix !! i = Some (GlyphRec.gid r).
Proof.
  intros Hb Hc Hn. unfold in_bounds, sizes in Hb.
  assert (Hs : (ClassRec.size <$> cs) !! i = Some (ClassRec.size c))
    by (rewrite list_lookup_fmap, Hc; reflexivity).
  pose proof (Forall2_lookup_lr _ _ _ _ _ _ Hb Hn Hs) as Hin.
  unfold ClassRec.size in Hin.
  destruct (lookup_lt_is_Some_2 (ClassRec.glyphs c) (Z.to_nat n) ltac:(lia))
    as [r Hr].
  exists r. split; [exact Hr |].
  unfold tuple. rewrite lookup_zip_with, Hc. simpl. rewrite Hn. simpl.
  rewrite Hr. reflexivity.
Qed.

Lemma advance_digits (cs : list ClassRec.t) (k : Z) :
  countable cs -> 0 <= k -> k + 1 <= total (sizes cs) ->
  CrossProductIterator.advance cs (digits (sizes cs) k) =
  if k + 1 <? total (sizes cs)
  then Ret (digits (sizes cs) (k + 1), false)
  else Ret (digits (sizes cs) 0, true).
Proof.
  intros H. revert k. unfold countable in H.
  induction H as [| c cs Hc Hcs IH]; intros k Hk HN; simpl in *.
  - assert (k = 0) by lia. subst k. reflexivity.
  - set (s := ClassRec.size c) in *. set (N := total (sizes cs)) in *.
    assert (HNpos : 1 <= N) by (apply total_pos, countable_sizes, Hcs).
    pose proof (Z.mod_pos_bound k s ltac:(lia)) as Hmod.
    unfold to_uint16. rewrite (Z.mod_small (k mod s + 1)) by lia.
    destruct (Z.ltb_spec (k mod s + 1) s) as [Hlt | Hge].
    + destruct (succ_no_carry k s ltac:(lia) Hlt) as [E1 E2].
      rewrite E1, E2.
      pose proof (Z.div_mod k s ltac:(lia)) as Hdm.
      assert (Hq : k / s < N) by (apply Z.div_lt_upper_bound; nia).
      destruct (Z.ltb_spec (k + 1) (s * N)) as [_ | Hbad]; [reflexivity | nia].
    + assert (Heq : k mod s + 1 = s) by lia.
      destruct (succ_carry k s ltac:(lia) Heq) as [E1 E2].
      pose proof (Z.div_mod k s ltac:(lia)) as Hdm.
      assert (Hq0 : 0 <= k / s) by (apply Z.div_pos; lia).
      assert (Hq : k / s + 1 <= N) by nia.
      rewrite (IH (k / s) Hq0 Hq).
      destruct (Z.ltb_spec (k / s + 1) N) as [Hlt' | Hge'].
      * destruct (Z.ltb_spec (k + 1) (s * N)) as [_ | Hbad]; [| nia].
        simpl. rewrite E1, E2. reflexivity.
      * destruct (Z.ltb_spec (k + 1) (s * N)) as [Hbad | _]; [nia |].
        simpl. rewrite Zmod_0_l, Zdiv_0_l. reflexivity.
Qed.

(** Why a class must stay below 65536 glyphs: past index 65535 the
    [uint16_t] index wraps to 0, which is again below the size, so the loop
    breaks there and never carries into the next position. *)
Lemma advance_wraps (c : ClassRec.t) (cs : list ClassRec.t) (ix : list Z) :
  65536 <= ClassRec.size c ->
  CrossProductIterator.advance (c :: cs) (65535 :: ix) = Ret (0 :: ix, false).
Proof.
  intros Hsize. simpl. change (to_uint16 (65535 + 1)) with 0.
  destruct (Z.ltb_spec 0 (ClassRec.size c)) as [_ | Hbad]; [reflexivity | lia].
Qed.

Lemma gather_tuple (cs : list ClassRec.t) (ix : list Z) :
  in_bounds (sizes cs) ix ->
  CrossProductIterator.gather cs ix = Ret (tuple cs ix).
Proof.
  revert ix. induction cs as [| c cs IH]; intros ix Hb.
  - reflexivity.
  - unfold in_bounds in Hb. simpl in Hb.
    apply Forall2_cons_inv_r in Hb as (n & ix' & Hn & Hb & ->).
    simpl. unfold at_index. unfold ClassRec.size in Hn.
    destruct (Z.ltb_spec n 0) as [Hneg | _]; [lia |].
    destruct (lookup_lt_is_Some_2 (ClassRec.glyphs c) (Z.to_nat n) ltac:(lia))
      as [r Hr].
    rewrite Hr. simpl. rewrite (IH ix' Hb). simpl. reflexivity.
Qed.

End CrossProductFacts.

Lemma bind_Ret {A B : Type} (a : A) (f : A -> result B) : (Ret a ≫= f) = f a.
Proof. reflexivity. Qed.

Section IteratorRuns.

Import CrossProduct.

Variable NDEBUG : bool.
Variable cs : list ClassRec.t.
Hypothesis cs_countable : countable cs.

Local Abbreviation ss := (sizes cs).
Local Abbreviation N := (total (sizes cs)).
Local Abbreviation at_tuple := (CrossProduct.at_tuple cs).

Lemma assert_lengths (ix : list Z) :
  length ix = length cs ->
  assert NDEBUG (Nat.eqb (length cs) (length ix)) = Ret tt.
Proof.
  intros ->. unfold assert. rewrite Nat.eqb_refl, orb_true_r. reflexivity.
Qed.

Lemma sizes_length : length ss = length cs.
Proof. unfold sizes. apply length_map. Qed.

Lemma next_first (gids : list GID) :
  CrossProductIterator.next NDEBUG (CrossProductIterator.new cs) gids =
  Ret (true, tuple cs (digits ss 0), at_tuple 0).
Proof.
  unfold CrossProductIterator.next, CrossProductIterator.new,
    CrossProduct.at_tuple. simpl.
  rewrite assert_lengths by apply repeat_length. simpl.
  rewrite digits_zero, sizes_length.
  rewrite gather_tuple; [reflexivity |].
  rewrite <- sizes_length, <- digits_zero.
  apply digits_in_bounds, countable_sizes, cs_countable.
Qed.

Lemma next_step (k : Z) (gids : list GID) :
  0 <= k -> k + 1 < N ->
  CrossProductIterator.next NDEBUG (at_tuple k) gids =
  Ret (true, tuple cs (digits ss (k + 1)), at_tuple (k + 1)).
Proof.
  intros Hk HN. unfold CrossProductIterator.next, CrossProduct.at_tuple. simpl.
  rewrite assert_lengths by (rewrite digits_length; apply sizes_length). simpl.
  rewrite advance_digits by (assumption || lia).
  destruct (Z.ltb_spec (k + 1) N) as [_ | Hbad]; [| lia]. simpl.
  rewrite gather_tuple; [reflexivity |].
  apply digits_in_bounds, countable_sizes, cs_countable.
Qed.

Lemma next_last (k : Z) (gids : list GID) :
  0 <= k -> k + 1 = N ->
  CrossProductIterator.next NDEBUG (at_tuple k) gids =
  Ret (false, gids, at_tuple 0).
Proof.
  intros Hk HN. unfold CrossProductIterator.next, CrossProduct.at_tuple. simpl.
  rewrite assert_lengths by (rewrite digits_length; apply sizes_length). simpl.
  rewrite advance_digits by (assumption || lia).
  destruct (Z.ltb_spec (k + 1) N) as [Hbad | _]; [lia |].
  reflexivity.
Qed.

Lemma calls_S (n : nat) (it : CrossProductIterator.t) (gids : list GID) :
  CrossProductIterator.calls NDEBUG (S n) it gids =
  ('(b, gids', it') ← CrossProductIterator.next NDEBUG it gids;
   rest ← CrossProductIterator.calls NDEBUG n it' gids';
   Ret ((b, gids') :: rest)).
Proof. reflexivity. Qed.

Lemma calls_rest (n : nat) (k : Z) :
  0 <= k -> k + Z.of_nat n + 1 = N ->
  CrossProductIterator.calls NDEBUG (S n) (at_tuple k) (tuple cs (digits ss k)) =
  Ret (map (fun j => (true, tuple cs (digits ss j))) (seqZ (k + 1) (Z.of_nat n))
       ++ [(false, tuple cs (digits ss (N - 1)))]).
Proof.
  revert k. induction n as [| n IH]; intros k Hk HN.
  - simpl. rewrite next_last by lia. simpl.
    replace (N - 1) with k by lia. reflexivity.
  - rewrite calls_S, next_step by lia.
    rewrite bind_Ret. cbv beta iota.
    rewrite IH by lia. rewrite bind_Ret.
    rewrite (seqZ_cons (k + 1) (Z.of_nat (S n))) by lia.
    replace (Z.pred (Z.of_nat (S n))) with (Z.of_nat n) by lia.
    reflexivity.
Qed.

Lemma calls_all (gids : list GID) :
  CrossProductIterator.calls NDEBUG (S (Z.to_nat N))
    (CrossProductIterator.new cs) gids =
  Ret (map (fun k => (true, tuple cs (digits ss k))) (seqZ 0 N)
       ++ [(false, tuple cs (digits ss (N - 1)))]).
Proof.
  assert (HN : 1 <= N) by (apply total_pos, countable_sizes, cs_countable).
  destruct (Z.to_nat N) as [| n] eqn:En; [lia |].
  rewrite calls_S, next_first.
  rewrite bind_Ret. cbv beta iota.
  rewrite calls_rest by lia. rewrite bind_Ret.
  rewrite (seqZ_cons 0 N) by lia.
  replace (Z.pred N) with (Z.of_nat n) by lia.
  reflexivity.
Qed.

End IteratorRuns.

(** C1, as the code has it: for classes of 1 to 65535 glyphs each, the
    first [total] calls of [next] return true and yield the GID tuples of
    the index tuples in colexicographic order (the index of position 0
    varies fastest), starting with the all-zero index tuple; every index
    tuple within bounds is yielded, each once; the call after the last
    tuple returns false and leaves [gids] as it was. *)
Theorem cross_product_colex_once
  (NDEBUG : bool) (cs : list ClassRec.t) (gids : list GID) :
  CrossProduct.countable cs ->
  CrossProductIterator.calls NDEBUG
    (S (Z.to_nat (CrossProduct.total (CrossProduct.sizes cs))))
    (CrossProductIterator.new cs) gids =
  Ret (map (fun k => (true, CrossProduct.tuple cs
                              (CrossProduct.digits (CrossProduct.sizes cs) k)))
           (seqZ 0 (CrossProduct.total (CrossProduct.sizes cs)))
       ++ [(false, CrossProduct.tuple cs
                     (CrossProduct.digits (CrossProduct.sizes cs)
                        (CrossProduct.total (CrossProduct.sizes cs) - 1)))]) /\
  CrossProduct.digits (CrossProduct.sizes cs) 0 = repeat 0 (length cs) /\
  (forall k, CrossProduct.in_bounds (CrossProduct.sizes cs)
               (CrossProduct.digits (CrossProduct.sizes cs) k)) /\
  (forall ix (i : nat) c n,
     CrossProduct.in_bounds (CrossProduct.sizes cs) ix ->
     cs !! i = Some c -> ix !! i = Some n ->
     exists r, ClassRec.glyphs c !! Z.to_nat n = Some r /\
               CrossProduct.tuple cs ix !! i = Some (GlyphRec.gid r)) /\
  (forall ix, CrossProduct.in_bounds (CrossProduct.sizes cs) ix ->
     exists k, 0 <= k < CrossProduct.total (CrossProduct.sizes cs) /\
               CrossProduct.digits (CrossProduct.sizes cs) k = ix) /\
  (forall j k, 0 <= j < k -> k < CrossProduct.total (CrossProduct.sizes cs) ->
     CrossProduct.colex_lt (CrossProduct.digits (CrossProduct.sizes cs) j)
                           (CrossProduct.digits (CrossProduct.sizes cs) k)) /\
  (forall j k, 0 <= j < CrossProduct.total (CrossProduct.sizes cs) ->
               0 <= k < CrossProduct.total (CrossProduct.sizes cs) ->
     CrossProduct.digits (CrossProduct.sizes cs) j =
     CrossProduct.digits (CrossProduct.sizes cs) k -> j = k).
Proof.
  intros Hcs. pose proof (countable_sizes cs Hcs) as Hss.
  split; [apply calls_all, Hcs |].
  split; [rewrite digits_zero; unfold CrossProduct.sizes;
          rewrite length_map; reflexivity |].
  split; [intros k; apply digits_in_bounds, Hss |].
  split; [intros ix i c n; apply tuple_lookup |].
  split; [apply digits_onto |].
  split; [intros j k; apply digits_colex_lt, Hss |].
  intros j k. apply digits_inj, Hss.
Qed.

Lemma cross_product_colex_once_witness :
  CrossProductIterator.calls true 5
    (CrossProductIterator.new
       [CrossProduct.class_of [1; 2]; CrossProduct.class_of [3; 4]]) [] =
  Ret [(true, [1; 3]); (true, [2; 3]); (true, [1; 4]); (true, [2; 4]);
       (false, [2; 4])].
Proof.
  assert (Hcs : CrossProduct.countable
                  [CrossProduct.class_of [1; 2]; CrossProduct.class_of [3; 4]]).
  { unfold CrossProduct.countable.
    repeat constructor; unfold ClassRec.size; simpl; lia. }
  exact (proj1 (cross_product_colex_once true
                  [CrossProduct.class_of [1; 2]; CrossProduct.class_of [3; 4]]
                  [] Hcs)).
Defined.

(** C1, counterexample: over the classes [1 2] and [3 4] the second tuple
    yielded is (2,3), not the (1,4) of lexicographic index order; and after
    the call that returns false the next call returns true again. *)
Lemma cross_product_not_lex_not_final :
  ~ CrossProduct.yields_in_lex_order true
      [CrossProduct.class_of [1; 2]; CrossProduct.class_of [3; 4]] /\
  ~ CrossProduct.false_ever_after true
      [CrossProduct.class_of [1; 2]; CrossProduct.class_of [3; 4]].
Proof.
  split.
  - intros H. specialize (H []). vm_compute in H. discriminate H.
  - intros H.
    assert (E : CrossProductIterator.calls true 6
                  (CrossProductIterator.new
                     [CrossProduct.class_of [1; 2]; CrossProduct.class_of [3; 4]])
                  [] =
                Ret [(true, [1; 3]); (true, [2; 3]); (true, [1; 4]);
                     (true, [2; 4]); (false, [2; 4]); (true, [2; 3])])
      by reflexivity.
    specialize (H 6%nat [] _ E 5%nat true [2; 3]).
    assert (Hb : true = false); [| discriminate Hb].
    apply H; [vm_compute; lia | reflexivity].
Qed.

(** * Further properties of the header *)

(** ** Label kinds *)

Lemma label_high_bits (L n : Z) :
  Label.is_label L -> 16 <= n -> Z.testbit L n = false.
Proof.
  intros HL Hn. rewrite <- (Z.mod_small L (2 ^ 16)) by exact HL.
  apply Z.mod_pow2_bits_high. lia.
Qed.

Lemma clear_ref_mod (L : Z) :
  Label.is_label L -> Label.clear_ref L = L mod 32768.
Proof.
  intros HL. unfold Label.clear_ref. change Label.REF_LAB with (2 ^ 15).
  change 32768 with (2 ^ 15). apply Z.bits_inj'. intros n Hn.
  rewrite Z.land_spec, Z.lnot_spec, Z.pow2_bits_eqb by lia.
  destruct (Z.ltb_spec n 15) as [Hlt | Hge].
  - rewrite Z.mod_pow2_bits_low by lia.
    destruct (Z.eqb_spec 15 n); [lia | apply andb_true_r].
  - rewrite Z.mod_pow2_bits_high by lia.
    destruct (Z.eqb_spec 15 n) as [E | NE]; [apply andb_false_r |].
    rewrite (label_high_bits L n HL) by lia. reflexivity.
Qed.

(** X1: on 16-bit labels [IS_NAMED_LAB] and [IS_ANON_LAB] never hold
    together, and a label is neither named nor anonymous exactly when it is
    0x7FFF or [LAB_UNDEF]; the named labels are those whose low 15 bits are
    at most 0x1FFF. *)
Theorem label_kinds_partition (L : Z) :
  Label.is_label L ->
  Label.IS_NAMED_LAB L && Label.IS_ANON_LAB L = false /\
  (Label.IS_NAMED_LAB L || Label.IS_ANON_LAB L = false <->
   L = 0x7FFF \/ L = Label.LAB_UNDEF) /\
  (Label.IS_NAMED_LAB L = true <-> L mod 0x8000 <= 0x1FFF).
Proof.
  intros HL. unfold Label.IS_NAMED_LAB, Label.IS_ANON_LAB.
  rewrite (clear_ref_mod L HL).
  unfold Label.FEAT_ANON_LKP_BEG, Label.FEAT_ANON_LKP_END,
    Label.FEAT_NAMED_LKP_BEG, Label.FEAT_NAMED_LKP_END, Label.LAB_UNDEF.
  unfold Label.is_label in HL.
  pose proof (Z.mod_pos_bound L 32768 ltac:(lia)) as Hm.
  pose proof (Z.div_mod L 32768 ltac:(lia)) as Hdm.
  assert (Hq : 0 <= L / 32768 <= 1).
  { split; [apply Z.div_pos; lia |].
    assert (L / 32768 < 2) by (apply Z.div_lt_upper_bound; lia). lia. }
  set (m := L mod 32768) in *.
  change (0x1FFF + 1) with 8192.
  destruct (Z.leb_spec 0 m), (Z.leb_spec m 0x1FFF), (Z.leb_spec 8192 m),
    (Z.leb_spec m 0x7FFE); simpl; try lia;
    (split; [reflexivity |]); (split; [| split; intros; (lia || congruence)]);
    split; intros; try discriminate; lia.
Qed.

Lemma label_kinds_partition_witness :
  Label.IS_NAMED_LAB 0x2000 && Label.IS_ANON_LAB 0x2000 = false.
Proof.
  apply (label_kinds_partition 0x2000). unfold Label.is_label. lia.
Defined.

Lemma is_ref_lab_high_bit_free (L : Z) :
  Label.IS_REF_LAB L = true <-> L <> Label.LAB_UNDEF /\ Label.high_bit L = true.
Proof.
  unfold Label.IS_REF_LAB, Label.high_bit.
  rewrite andb_true_iff, !negb_true_iff, !Z.eqb_neq, land_ref_lab.
  destruct (Z.testbit L 15); intuition congruence.
Qed.

Lemma lor_ref_lab (L : Z) :
  0 <= L < 32768 -> Z.lor L Label.REF_LAB = L + 32768.
Proof.
  intros HL.
  assert (Hland : Z.land L Label.REF_LAB = 0).
  { apply land_ref_lab. rewrite <- (Z.mod_small L (2 ^ 15)) by exact HL.
    apply Z.mod_pow2_bits_high. lia. }
  rewrite <- Z.lxor_lor by exact Hland.
  rewrite <- Z.add_nocarry_lxor by exact Hland. reflexivity.
Qed.

(** X2: setting bit 15 on a named or anonymous label [L] (at most 0x7FFE)
    gives a 16-bit label that [IS_REF_LAB] recognises while [L] itself is no
    reference; clearing the bit gives [L] back, and the reference is named
    or anonymous exactly as [L] is. *)
Theorem reference_label_round_trip (L : Z) :
  0 <= L <= Label.FEAT_ANON_LKP_END ->
  Label.is_label (Z.lor L Label.REF_LAB) /\
  Label.IS_REF_LAB (Z.lor L Label.REF_LAB) = true /\
  Label.IS_REF_LAB L = false /\
  Label.clear_ref (Z.lor L Label.REF_LAB) = L /\
  Label.IS_NAMED_LAB (Z.lor L Label.REF_LAB) = Label.IS_NAMED_LAB L /\
  Label.IS_ANON_LAB (Z.lor L Label.REF_LAB) = Label.IS_ANON_LAB L.
Proof.
  unfold Label.FEAT_ANON_LKP_END. intros HL.
  assert (HR : Label.is_label (Z.lor L Label.REF_LAB))
    by (rewrite lor_ref_lab by lia; unfold Label.is_label; lia).
  assert (HL' : Label.is_label L) by (unfold Label.is_label; lia).
  assert (Hc : Label.clear_ref (Z.lor L Label.REF_LAB) = L).
  { rewrite clear_ref_mod by exact HR. rewrite lor_ref_lab by lia.
    replace (L + 32768) with (L + 1 * 32768) by lia.
    rewrite Z.mod_add by lia. apply Z.mod_small. lia. }
  assert (Hc' : Label.clear_ref L = L)
    by (rewrite clear_ref_mod by exact HL'; apply Z.mod_small; lia).
  split; [exact HR |]. split; [| split; [| split; [exact Hc |]]].
  - apply (is_ref_lab_high_bit_free (Z.lor L Label.REF_LAB)).
    split.
    + rewrite lor_ref_lab by lia. unfold Label.LAB_UNDEF. lia.
    + unfold Label.high_bit. rewrite Z.lor_spec.
      change Label.REF_LAB with (2 ^ 15). rewrite Z.pow2_bits_true by lia.
      apply orb_true_r.
  - apply not_true_is_false. intros H.
    apply is_ref_lab_high_bit_free in H as [_ H].
    unfold Label.high_bit in H.
    rewrite <- (Z.mod_small L (2 ^ 15)) in H by lia.
    rewrite Z.mod_pow2_bits_high in H by lia. discriminate H.
  - unfold Label.IS_NAMED_LAB, Label.IS_ANON_LAB. rewrite Hc, Hc'. split; reflexivity.
Qed.

Lemma reference_label_round_trip_witness :
  Label.clear_ref (Z.lor 0x2001 Label.REF_LAB) = 0x2001.
Proof.
  apply (reference_label_round_trip 0x2001). unfold Label.FEAT_ANON_LKP_END. lia.
Defined.

(** ** Equality and order of anchors and glyph records *)

(** X3: [operator==] on anchors is an equivalence relation, and
    [operator<] cannot tell equal anchors apart: replacing either operand
    by an equal one does not change the comparison. *)
Theorem anchor_eq_equivalence_lt_congruence :
  (forall a, AnchorMarkInfo.eqb a a = true) /\
  (forall a b, AnchorMarkInfo.eqb a b = AnchorMarkInfo.eqb b a) /\
  (forall a b c, AnchorMarkInfo.eqb a b = true -> AnchorMarkInfo.eqb b c = true ->
                 AnchorMarkInfo.eqb a c = true) /\
  (forall a a' b b', AnchorMarkInfo.eqb a a' = true -> AnchorMarkInfo.eqb b b' = true ->
                     AnchorMarkInfo.lt a b = AnchorMarkInfo.lt a' b').
Proof.
  split; [| split; [| split]].
  - intros a. rewrite anchor_eqb_key. apply bool_decide_eq_true. reflexivity.
  - intros a b. rewrite !anchor_eqb_key. apply bool_decide_ext. split; congruence.
  - intros a b c. rewrite !anchor_eqb_key, !bool_decide_eq_true. congruence.
  - intros a a' b b'. rewrite !anchor_eqb_key, !bool_decide_eq_true, !anchor_lt_key.
    intros -> ->. reflexivity.
Qed.

(** X4: [GlyphRec::operator<] is a strict weak ordering, as [std::sort]
    requires: of [a < b], [b < a], [a == b] exactly one holds, [<] is
    transitive and so is [==]; comparing with a GID is comparing with the
    record made from it. *)
Theorem glyphrec_strict_weak_order :
  (forall a b, exactly_one (GlyphRec.lt a b) (GlyphRec.lt b a) (GlyphRec.eqb a b)) /\
  (forall a b c, GlyphRec.lt a b = true -> GlyphRec.lt b c = true ->
                 GlyphRec.lt a c = true) /\
  (forall a b c, GlyphRec.eqb a b = true -> GlyphRec.eqb b c = true ->
                 GlyphRec.eqb a c = true) /\
  (forall a g, GlyphRec.eqb_gid a g = GlyphRec.eqb a (GlyphRec.of_gid g)).
Proof.
  unfold GlyphRec.lt, GlyphRec.eqb, GlyphRec.eqb_gid, exactly_one.
  split; [| split; [| split]].
  - intros a b.
    destruct (Z.ltb_spec (GlyphRec.gid a) (GlyphRec.gid b)),
      (Z.ltb_spec (GlyphRec.gid b) (GlyphRec.gid a)),
      (Z.eqb_spec (GlyphRec.gid a) (GlyphRec.gid b)); try lia; tauto.
  - intros a b c. rewrite !Z.ltb_lt. lia.
  - intros a b c. rewrite !Z.eqb_eq. lia.
  - intros a g. simpl. apply Z.eqb_sym.
Qed.

(** ** Membership and size of a ClassRec *)

Lemma glyphInClass_elem (c : ClassRec.t) (g : Z) :
  ClassRec.glyphInClass c g = true <->
  exists r, r ∈ ClassRec.glyphs c /\ GlyphRec.gid r = g.
Proof.
  unfold ClassRec.glyphInClass. rewrite existsb_exists. unfold GlyphRec.eqb_gid.
  split; intros (r & Hr & E); exists r.
  - apply list_elem_of_In in Hr. apply Z.eqb_eq in E. auto.
  - apply list_elem_of_In in Hr. split; [exact Hr | apply Z.eqb_eq; auto].
Qed.

Lemma to_int_small (z : Z) : -2147483648 <= z < 2147483648 -> to_int z = z.
Proof. intros H. unfold to_int. rewrite Z.mod_small by lia. lia. Qed.

(** X5: after [addGlyph(g)] the class contains [g], contains every other
    glyph exactly when it did before, and [classSize] has grown by one
    (as long as the count fits an [int]). *)
Theorem addGlyph_membership (c : ClassRec.t) (g g' : Z) :
  ClassRec.size c < 2147483647 ->
  ClassRec.glyphInClass (ClassRec.addGlyph c g) g = true /\
  (g' <> g -> ClassRec.glyphInClass (ClassRec.addGlyph c g) g' =
              ClassRec.glyphInClass c g') /\
  ClassRec.classSize (ClassRec.addGlyph c g) = ClassRec.classSize c + 1.
Proof.
  intros Hsize. unfold ClassRec.glyphInClass, ClassRec.addGlyph,
    ClassRec.classSize, ClassRec.size in *. simpl.
  rewrite !existsb_app. simpl. unfold GlyphRec.eqb_gid at 2 4. simpl.
  split; [rewrite Z.eqb_refl; apply orb_true_iff; right; reflexivity |].
  split.
  - intros Hne. destruct (Z.eqb_spec g' g); [contradiction |].
    rewrite !orb_false_r. reflexivity.
  - rewrite length_app. simpl. rewrite !to_int_small by lia. lia.
Qed.

Lemma addGlyph_membership_witness :
  ClassRec.glyphInClass (ClassRec.addGlyph (CrossProduct.class_of [1; 2]) 9) 9 = true.
Proof.
  apply (addGlyph_membership (CrossProduct.class_of [1; 2]) 9 0).
  unfold ClassRec.size. simpl. lia.
Defined.

(** X6: after [concat] a glyph is in the class exactly when it was in one
    of the two classes, and the size is the sum of the two sizes (as long
    as it fits an [int]). *)
Theorem concat_membership (c other : ClassRec.t) (g : Z) :
  ClassRec.size c + ClassRec.size other < 2147483648 ->
  ClassRec.glyphInClass (ClassRec.concat c other) g =
    ClassRec.glyphInClass c g || ClassRec.glyphInClass other g /\
  ClassRec.classSize (ClassRec.concat c other) =
    ClassRec.classSize c + ClassRec.classSize other.
Proof.
  intros Hsize. unfold ClassRec.glyphInClass, ClassRec.concat,
    ClassRec.classSize, ClassRec.size in *. simpl.
  split; [apply existsb_app |].
  rewrite length_app. rewrite !to_int_small by lia. lia.
Qed.

Lemma concat_membership_witness :
  ClassRec.classSize
    (ClassRec.concat (CrossProduct.class_of [1; 2]) (CrossProduct.class_of [3])) = 3.
Proof.
  apply (concat_membership (CrossProduct.class_of [1; 2])
           (CrossProduct.class_of [3]) 0).
  unfold ClassRec.size. simpl. lia.
Defined.

(** X7: no ClassRec is both a glyph and a class; one with glyphs in it is
    exactly one of the two; an empty one is never a glyph and is a class
    only by its [gclass] flag. *)
Theorem classrec_glyph_or_class (c : ClassRec.t) :
  ClassRec.is_glyph c && ClassRec.is_class c = false /\
  (ClassRec.glyphs c <> [] -> ClassRec.is_glyph c = negb (ClassRec.is_class c)) /\
  (ClassRec.glyphs c = [] ->
   ClassRec.is_glyph c = false /\ ClassRec.is_class c = ClassRec.gclass c).
Proof.
  unfold ClassRec.is_glyph, ClassRec.is_class, ClassRec.is_multi_class,
    ClassRec.size.
  assert (Hlen : ClassRec.glyphs c = [] <-> Z.of_nat (length (ClassRec.glyphs c)) = 0).
  { destruct (ClassRec.glyphs c); simpl length; split; intros; (congruence || lia). }
  destruct (Z.eqb_spec (Z.of_nat (length (ClassRec.glyphs c))) 1) as [E1 | E1],
    (Z.ltb_spec 1 (Z.of_nat (length (ClassRec.glyphs c)))) as [E2 | E2],
    (ClassRec.gclass c); simpl; try lia.
  all: split; [reflexivity |]; split; [intros H | intros H; apply Hlen in H].
  all: try (split; reflexivity); try reflexivity; try lia.
  all: exfalso; apply H, Hlen; lia.
Qed.

Lemma classrec_glyph_or_class_witness :
  ClassRec.is_glyph (CrossProduct.class_of [4]) =
  negb (ClassRec.is_class (CrossProduct.class_of [4])).
Proof.
  apply (classrec_glyph_or_class (CrossProduct.class_of [4])). discriminate.
Defined.

Lemma glyphs_eqb_gids (a b : list GlyphRec.t) :
  ClassRec.glyphs_eqb a b = true <-> GlyphRec.gid <$> a = GlyphRec.gid <$> b.
Proof.
  revert b. induction a as [| u a IH]; intros [| v b]; simpl; split;
    try congruence; try discriminate.
  - rewrite andb_true_iff. unfold GlyphRec.eqb. rewrite Z.eqb_eq.
    intros [E H]. apply IH in H. f_equal; assumption.
  - intros E. injection E as E1 E2. apply andb_true_iff. split.
    + unfold GlyphRec.eqb. apply Z.eqb_eq. exact E1.
    + apply IH. exact E2.
Qed.

(** X8: [ClassRec::operator==] compares the sequences of GIDs and nothing
    else (not the anchors, flags, labels or metrics); equal ClassRecs have
    the same size and contain the same glyphs. *)
Theorem classrec_eq_gid_sequences (c d : ClassRec.t) :
  (ClassRec.eqb c d = true <->
   GlyphRec.gid <$> ClassRec.glyphs c = GlyphRec.gid <$> ClassRec.glyphs d) /\
  (ClassRec.eqb c d = true ->
   ClassRec.classSize c = ClassRec.classSize d /\
   forall g, ClassRec.glyphInClass c g = ClassRec.glyphInClass d g).
Proof.
  unfold ClassRec.eqb. split; [apply glyphs_eqb_gids |].
  intros H. apply glyphs_eqb_gids in H. split.
  - unfold ClassRec.classSize, ClassRec.size.
    rewrite <- (length_fmap GlyphRec.gid (ClassRec.glyphs c)), H, length_fmap.
    reflexivity.
  - intros g. unfold ClassRec.glyphInClass.
    assert (E : forall l, existsb (fun r => GlyphRec.eqb_gid r g) l =
                          existsb (fun z => g =? z) (GlyphRec.gid <$> l)).
    { induction l as [| r l IH]; simpl; [reflexivity |]. rewrite IH. reflexivity. }
    rewrite !E, H. reflexivity.
Qed.

Lemma classrec_eq_gid_sequences_witness :
  ClassRec.classSize StdSort.twice_anchored =
  ClassRec.classSize (CrossProduct.class_of [5; 5]).
Proof.
  apply (classrec_eq_gid_sequences StdSort.twice_anchored
           (CrossProduct.class_of [5; 5])).
  reflexivity.
Defined.

Lemma glyphInClass_Permutation (c d : ClassRec.t) (g : Z) :
  Permutation (ClassRec.glyphs c) (ClassRec.glyphs d) ->
  ClassRec.glyphInClass c g = ClassRec.glyphInClass d g.
Proof.
  intros Hp. apply eq_true_iff_eq. rewrite !glyphInClass_elem.
  split; intros (r & Hr & E); exists r; split; auto.
  - rewrite <- Hp. exact Hr.
  - rewrite Hp. exact Hr.
Qed.

(** X9: whatever conforming [std::sort] is used, [sort()] changes neither
    which glyphs the class contains nor [classSize], and sorting a second
    time leaves the sequence of GIDs as it is. *)
Theorem sort_keeps_membership
  (std_sort : list GlyphRec.t -> list GlyphRec.t) (c : ClassRec.t) :
  StdSort.conforming std_sort ->
  (forall g, ClassRec.glyphInClass (ClassRec.sort std_sort c) g =
             ClassRec.glyphInClass c g) /\
  ClassRec.classSize (ClassRec.sort std_sort c) = ClassRec.classSize c /\
  GlyphRec.gid <$> ClassRec.glyphs (ClassRec.sort std_sort (ClassRec.sort std_sort c)) =
  GlyphRec.gid <$> ClassRec.glyphs (ClassRec.sort std_sort c).
Proof.
  intros Hconf. destruct (Hconf (ClassRec.glyphs c)) as [Hperm Hsorted].
  split; [| split].
  - intros g. symmetry. apply glyphInClass_Permutation. exact Hperm.
  - unfold ClassRec.classSize, ClassRec.size. simpl.
    rewrite <- (Permutation_length Hperm). reflexivity.
  - simpl. destruct (Hconf (std_sort (ClassRec.glyphs c))) as [Hperm' Hsorted'].
    apply (StronglySorted_unique Z.le); [apply sorted_gids; assumption.. |].
    apply fmap_Permutation. symmetry. exact Hperm'.
Qed.

Lemma sort_keeps_membership_witness :
  ClassRec.classSize (ClassRec.sort StdSort.reversing_sort StdSort.twice_anchored) =
  ClassRec.classSize StdSort.twice_anchored.
Proof.
  apply (sort_keeps_membership StdSort.reversing_sort StdSort.twice_anchored
           reversing_sort_conforming).
Defined.

(** ** The cross-product iterator beyond its first round *)

Section IteratorCycle.

Import CrossProduct.

Variable NDEBUG : bool.
Variable cs : list ClassRec.t.
Hypothesis cs_countable : countable cs.

Local Abbreviation N := (total (sizes cs)).

Lemma total_cs_pos : 1 <= N.
Proof. apply total_pos, countable_sizes, cs_countable. Qed.

(** One call from the state that follows the [k]-th tuple. *)
Lemma next_at (k : Z) (gids : list Z) :
  0 <= k < N ->
  CrossProductIterator.next NDEBUG (at_tuple cs k) gids =
  Ret (negb ((k + 1) mod N =? 0),
       if (k + 1) mod N =? 0 then gids
       else tuple cs (digits (sizes cs) ((k + 1) mod N)),
       at_tuple cs ((k + 1) mod N)).
Proof.
  intros Hk. destruct (Z.eq_dec (k + 1) N) as [E | NE].
  - rewrite E, Z_mod_same_full. simpl.
    apply (next_last NDEBUG cs cs_countable); lia.
  - rewrite (Z.mod_small (k + 1)) by lia.
    destruct (Z.eqb_spec (k + 1) 0) as [H0 | _]; [lia |]. simpl.
    apply (next_step NDEBUG cs cs_countable); lia.
Qed.

Lemma calls_at (n : nat) :
  forall (k : Z) (gids : list Z), 0 <= k < N ->
  exists out,
    CrossProductIterator.calls NDEBUG n (at_tuple cs k) gids = Ret out /\
    length out = n /\
    forall (j : nat) b g, out !! j = Some (b, g) ->
      b = negb ((k + Z.of_nat j + 1) mod N =? 0) /\
      (b = true -> g = tuple cs (digits (sizes cs) ((k + Z.of_nat j + 1) mod N))).
Proof.
  pose proof total_cs_pos as HN.
  induction n as [| n IH]; intros k gids Hk.
  - exists []. split; [reflexivity |]. split; [reflexivity |].
    intros j b g H. rewrite lookup_nil in H. discriminate H.
  - rewrite calls_S, next_at by exact Hk. rewrite bind_Ret. cbv beta iota.
    assert (Hk' : 0 <= (k + 1) mod N < N) by (apply Z.mod_pos_bound; lia).
    destruct (IH ((k + 1) mod N)
                 (if (k + 1) mod N =? 0 then gids
                  else tuple cs (digits (sizes cs) ((k + 1) mod N))) Hk')
      as (out & Hout & Hlen & Hspec).
    rewrite Hout, bind_Ret. eexists. split; [reflexivity |].
    split; [simpl; rewrite Hlen; reflexivity |].
    intros [| j] b g Hj; simpl in Hj.
    + injection Hj as <- <-. rewrite Z.add_0_r. split; [reflexivity |].
      intros Hb. apply negb_true_iff in Hb. rewrite Hb. reflexivity.
    + apply Hspec in Hj.
      replace ((k + 1) mod N + Z.of_nat j + 1)
        with ((k + 1) mod N + (Z.of_nat j + 1)) in Hj by lia.
      rewrite Zplus_mod_idemp_l in Hj.
      replace (k + 1 + (Z.of_nat j + 1)) with (k + Z.of_nat (S j) + 1) in Hj by lia.
      exact Hj.
Qed.

Lemma calls_from_new (n : nat) (gids : list Z) :
  exists out,
    CrossProductIterator.calls NDEBUG n (CrossProductIterator.new cs) gids = Ret out /\
    length out = n /\
    forall (j : nat) b g, out !! j = Some (b, g) ->
      b = (Z.of_nat j =? 0) || negb (Z.of_nat j mod N =? 0) /\
      (b = true -> g = tuple cs (digits (sizes cs) (Z.of_nat j mod N))).
Proof.
  pose proof total_cs_pos as HN.
  destruct n as [| n].
  - exists []. split; [reflexivity |]. split; [reflexivity |].
    intros j b g H. rewrite lookup_nil in H. discriminate H.
  - rewrite calls_S, (next_first NDEBUG cs cs_countable), bind_Ret. cbv beta iota.
    destruct (calls_at n 0 (tuple cs (digits (sizes cs) 0)) ltac:(lia))
      as (out & Hout & Hlen & Hspec).
    rewrite Hout, bind_Ret. eexists. split; [reflexivity |].
    split; [simpl; rewrite Hlen; reflexivity |].
    intros [| j] b g Hj; simpl in Hj.
    + injection Hj as <- <-. split; [reflexivity |]. intros _.
      rewrite Zmod_0_l. reflexivity.
    + apply Hspec in Hj.
      replace (0 + Z.of_nat j + 1) with (Z.of_nat (S j)) in Hj by lia.
      destruct (Z.eqb_spec (Z.of_nat (S j)) 0) as [H0 | _]; [lia |]. exact Hj.
Qed.

End IteratorCycle.

(** X10: the iterator runs in rounds.  For classes of 1 to 65535 glyphs
    each and any number of calls, call number [j] (counted from 0) returns
    false exactly when [j] is a positive multiple of the number [total] of
    tuples, and otherwise yields the tuple of index [j mod total]: after a
    false the iteration starts over at the second tuple. *)
Theorem cross_product_rounds
  (NDEBUG : bool) (cs : list ClassRec.t) (n : nat) (gids : list Z) :
  CrossProduct.countable cs ->
  exists out,
    CrossProductIterator.calls NDEBUG n (CrossProductIterator.new cs) gids = Ret out /\
    length out = n /\
    forall (j : nat) b g, out !! j = Some (b, g) ->
      b = (Z.of_nat j =? 0) ||
          negb (Z.of_nat j mod CrossProduct.total (CrossProduct.sizes cs) =? 0) /\
      (b = true ->
       g = CrossProduct.tuple cs
             (CrossProduct.digits (CrossProduct.sizes cs)
                (Z.of_nat j mod CrossProduct.total (CrossProduct.sizes cs)))).
Proof. intros Hcs. apply calls_from_new. exact Hcs. Qed.

Lemma two_by_two_countable :
  CrossProduct.countable
    [CrossProduct.class_of [1; 2]; CrossProduct.class_of [3; 4]].
Proof.
  unfold CrossProduct.countable.
  repeat constructor; unfold ClassRec.size; simpl; lia.
Qed.

Lemma cross_product_rounds_witness :
  exists out,
    CrossProductIterator.calls true 9
      (CrossProductIterator.new
         [CrossProduct.class_of [1; 2]; CrossProduct.class_of [3; 4]]) [] = Ret out /\
    length out = 9%nat.
Proof.
  destruct (cross_product_rounds true
              [CrossProduct.class_of [1; 2]; CrossProduct.class_of [3; 4]]
              9 [] two_by_two_countable) as (out & Hout & Hlen & _).
  exists out. split; [exact Hout | exact Hlen].
Defined.

Lemma total_all_ones (cs : list ClassRec.t) :
  Forall (fun c => ClassRec.size c = 1) cs ->
  CrossProduct.total (CrossProduct.sizes cs) = 1.
Proof.
  induction 1 as [| c cs Hc _ IH]; [reflexivity |].
  unfold CrossProduct.sizes, CrossProduct.total in *. simpl.
  rewrite Hc, IH. reflexivity.
Qed.

(** X11: when every class holds exactly one glyph (in particular when
    there is no class at all) the first call yields the one tuple and every
    later call returns false. *)
Theorem cross_product_single_tuple
  (NDEBUG : bool) (cs : list ClassRec.t) (n : nat) (gids : list Z) :
  Forall (fun c => ClassRec.size c = 1) cs ->
  exists out,
    CrossProductIterator.calls NDEBUG n (CrossProductIterator.new cs) gids = Ret out /\
    length out = n /\
    forall (j : nat) b g, out !! j = Some (b, g) -> b = (Z.of_nat j =? 0).
Proof.
  intros Hones.
  assert (Hcs : CrossProduct.countable cs).
  { unfold CrossProduct.countable. eapply Forall_impl; [exact Hones |].
    simpl. intros c Hc. lia. }
  destruct (calls_from_new NDEBUG cs Hcs n gids) as (out & Hout & Hlen & Hspec).
  exists out. split; [exact Hout |]. split; [exact Hlen |].
  intros j b g Hj. apply Hspec in Hj as [Hb _].
  rewrite (total_all_ones cs Hones), Z.mod_1_r in Hb. simpl in Hb.
  rewrite orb_false_r in Hb. exact Hb.
Qed.

Lemma cross_product_single_tuple_witness :
  exists out,
    CrossProductIterator.calls false 4
      (CrossProductIterator.new
         [CrossProduct.class_of [7]; CrossProduct.class_of [8]]) [] = Ret out /\
    length out = 4%nat.
Proof.
  destruct (cross_product_single_tuple false
              [CrossProduct.class_of [7]; CrossProduct.class_of [8]] 4 [])
    as (out & Hout & Hlen & _).
  - repeat constructor.
  - exists out. split; [exact Hout | exact Hlen].
Defined.

Lemma gather_empty_class (cs : list ClassRec.t) :
  (exists c, c ∈ cs /\ ClassRec.glyphs c = []) ->
  CrossProductIterator.gather cs (repeat 0 (length cs)) = Undefined.
Proof.
  intros (c & Hin & Hempty). induction cs as [| d cs IH].
  - inversion Hin.
  - simpl. apply elem_of_cons in Hin as [<- | Hin].
    + rewrite Hempty. reflexivity.
    + rewrite (IH Hin).
      unfold at_index. change (0 <? 0) with false. cbv iota.
      destruct (ClassRec.glyphs d !! Z.to_nat 0); reflexivity.
Qed.

(** X12: if one of the classes has no glyph, the very first call of
    [next] reads [glyphs[0]] of an empty vector: its behaviour is
    undefined, in every build. *)
Theorem cross_product_empty_class_undefined
  (NDEBUG : bool) (cs : list ClassRec.t) (gids : list Z) :
  (exists c, c ∈ cs /\ ClassRec.glyphs c = []) ->
  CrossProductIterator.next NDEBUG (CrossProductIterator.new cs) gids = Undefined.
Proof.
  intros Hempty. unfold CrossProductIterator.next, CrossProductIterator.new. simpl.
  rewrite assert_lengths by apply repeat_length. simpl.
  rewrite (gather_empty_class cs Hempty). reflexivity.
Qed.

Lemma cross_product_empty_class_undefined_witness :
  CrossProductIterator.next true
    (CrossProductIterator.new [CrossProduct.class_of [1]; CrossProduct.class_of []])
    [] = Undefined.
Proof.
  apply cross_product_empty_class_undefined.
  exists (CrossProduct.class_of []). split; [| reflexivity].
  apply elem_of_cons. right. apply elem_of_cons. left. reflexivity.
Defined.

Lemma tuple_length (cs : list ClassRec.t) (ix : list Z) :
  CrossProduct.in_bounds (CrossProduct.sizes cs) ix ->
  length (CrossProduct.tuple cs ix) = length cs.
Proof.
  intros Hb. unfold CrossProduct.in_bounds, CrossProduct.sizes in Hb.
  apply Forall2_length in Hb. rewrite length_map in Hb.
  unfold CrossProduct.tuple. rewrite length_zip_with. lia.
Qed.

(** X13: [next] keeps the iterator sound.  From any state whose indices
    are within the bounds of their classes (1 to 65535 glyphs each), a call
    returns without undefined behaviour, leaves the classes alone, leaves
    every index within bounds and [first] cleared; when it returns true
    [gids] holds one GID per class, when it returns false [gids] is
    untouched. *)
Theorem next_keeps_indices_in_bounds
  (NDEBUG : bool) (it : CrossProductIterator.t) (gids : list Z) :
  CrossProduct.countable (CrossProductIterator.classes it) ->
  CrossProduct.in_bounds (CrossProduct.sizes (CrossProductIterator.classes it))
                         (CrossProductIterator.indices it) ->
  exists b g it',
    CrossProductIterator.next NDEBUG it gids = Ret (b, g, it') /\
    CrossProductIterator.classes it' = CrossProductIterator.classes it /\
    CrossProduct.in_bounds (CrossProduct.sizes (CrossProductIterator.classes it'))
                           (CrossProductIterator.indices it') /\
    CrossProductIterator.first it' = false /\
    (b = true -> length g = length (CrossProductIterator.classes it)) /\
    (b = false -> g = gids).
Proof.
  destruct it as [cs ix fst]. simpl. intros Hcs Hb.
  pose proof (countable_sizes cs Hcs) as Hss.
  destruct (digits_onto _ _ Hb) as (k & Hk & <-).
  destruct fst.
  - unfold CrossProductIterator.next. simpl.
    rewrite (assert_lengths NDEBUG cs)
      by (rewrite digits_length; unfold CrossProduct.sizes; apply length_map).
    simpl. rewrite gather_tuple by exact Hb. simpl.
    eexists _, _, _. split; [reflexivity |]. simpl.
    repeat split; auto. intros _. apply tuple_length, Hb. discriminate.
  - change (CrossProductIterator.mk cs
              (CrossProduct.digits (CrossProduct.sizes cs) k) false)
      with (CrossProduct.at_tuple cs k).
    rewrite (next_at NDEBUG cs Hcs k gids Hk).
    eexists _, _, _. split; [reflexivity |]. simpl.
    split; [reflexivity |]. split; [apply digits_in_bounds, Hss |].
    split; [reflexivity |]. split.
    + intros Hnz. apply negb_true_iff in Hnz. rewrite Hnz.
      apply tuple_length, digits_in_bounds, Hss.
    + intros Hz. apply negb_false_iff in Hz. rewrite Hz. reflexivity.
Qed.

Lemma next_keeps_indices_in_bounds_witness :
  exists b g it',
    CrossProductIterator.next true
      (CrossProductIterator.mk
         [CrossProduct.class_of [1; 2]; CrossProduct.class_of [3; 4]] [1; 1] false)
      [] = Ret (b, g, it') /\
    CrossProductIterator.first it' = false.
Proof.
  destruct (next_keeps_indices_in_bounds true
              (CrossProductIterator.mk
                 [CrossProduct.class_of [1; 2]; CrossProduct.class_of [3; 4]]
                 [1; 1] false) [])
    as (b & g & it' & Hnext & _ & _ & Hfirst & _).
  - exact two_by_two_countable.
  - unfold CrossProduct.in_bounds, CrossProduct.sizes, ClassRec.size. simpl.
    repeat constructor; lia.
  - exists b, g, it'. split; [exact Hnext | exact Hfirst].
Defined.

(** ** Patterns *)

Lemma assert_in_range (NDEBUG : bool) (p : GPat.t) (idx : Z) :
  idx < GPat.size p -> assert NDEBUG (idx <? GPat.size p) = Ret tt.
Proof.
  intros H. unfold assert. destruct (Z.ltb_spec idx (GPat.size p)); [| lia].
  rewrite orb_true_r. reflexivity.
Qed.

Lemma at_index_lookup {A : Type} (v : list A) (i : Z) (a : A) :
  0 <= i -> v !! Z.to_nat i = Some a -> at_index v i = Ret a.
Proof.
  intros Hi Hv. unfold at_index.
  destruct (Z.ltb_spec i 0); [lia |]. rewrite Hv. reflexivity.
Qed.

Lemma glyphInClass_in_range (NDEBUG : bool) (p : GPat.t) (gid idx : Z) (c : ClassRec.t) :
  0 <= idx -> GPat.classes p !! Z.to_nat idx = Some c ->
  GPat.glyphInClass NDEBUG p gid idx = Ret (ClassRec.glyphInClass c gid).
Proof.
  intros Hi Hc. pose proof (lookup_lt_Some _ _ _ Hc) as Hlt.
  unfold GPat.glyphInClass.
  rewrite assert_in_range by (unfold GPat.size; lia). simpl.
  destruct (Z.leb_spec (GPat.size p) idx) as [Hbad | _];
    [unfold GPat.size in Hbad; lia |].
  rewrite (at_index_lookup _ _ _ Hi Hc). reflexivity.
Qed.

Lemma classSize_in_range (NDEBUG : bool) (p : GPat.t) (idx : Z) (c : ClassRec.t) :
  0 <= idx -> GPat.classes p !! Z.to_nat idx = Some c ->
  GPat.classSize NDEBUG p idx = Ret (ClassRec.classSize c).
Proof.
  intros Hi Hc. pose proof (lookup_lt_Some _ _ _ Hc) as Hlt.
  unfold GPat.classSize.
  rewrite assert_in_range by (unfold GPat.size; lia). simpl.
  destruct (Z.leb_spec (GPat.size p) idx) as [Hbad | _];
    [unfold GPat.size in Hbad; lia |].
  rewrite (at_index_lookup _ _ _ Hi Hc). reflexivity.
Qed.

Lemma accessors_same_classes_elsewhere
  (NDEBUG : bool) (p p' : GPat.t) (i : nat) (c c' : ClassRec.t) :
  GPat.classes p !! i = Some c ->
  GPat.classes p' = <[i := c']> (GPat.classes p) ->
  (forall g, ClassRec.glyphInClass c' g = ClassRec.glyphInClass c g) ->
  ClassRec.classSize c' = ClassRec.classSize c ->
  forall gid j,
    GPat.glyphInClass NDEBUG p' gid j = GPat.glyphInClass NDEBUG p gid j /\
    GPat.classSize NDEBUG p' j = GPat.classSize NDEBUG p j.
Proof.
  intros Hc Hp' Hmem Hsize gid j.
  assert (Hlen : GPat.size p' = GPat.size p)
    by (unfold GPat.size; rewrite Hp', length_insert; reflexivity).
  destruct (Z.ltb_spec j 0) as [Hneg | Hnn].
  { unfold GPat.glyphInClass, GPat.classSize, at_index. rewrite Hlen.
    destruct (Z.ltb_spec j 0); [| lia].
    destruct (assert NDEBUG (j <? GPat.size p)); simpl;
      destruct (GPat.size p <=? j); split; reflexivity. }
  destruct (GPat.classes p !! Z.to_nat j) as [d |] eqn:Hd.
  - destruct (decide (Z.to_nat j = i)) as [E | NE].
    + subst i. assert (d = c) by congruence. subst d.
      assert (Hd' : GPat.classes p' !! Z.to_nat j = Some c').
      { rewrite Hp'. apply list_lookup_insert_eq. eapply lookup_lt_Some, Hc. }
      rewrite (glyphInClass_in_range NDEBUG p' gid j c' Hnn Hd'),
        (glyphInClass_in_range NDEBUG p gid j c Hnn Hc),
        (classSize_in_range NDEBUG p' j c' Hnn Hd'),
        (classSize_in_range NDEBUG p j c Hnn Hc), Hmem, Hsize.
      split; reflexivity.
    + assert (Hd' : GPat.classes p' !! Z.to_nat j = Some d)
        by (rewrite Hp', list_lookup_insert_ne by congruence; exact Hd).
      rewrite (glyphInClass_in_range NDEBUG p' gid j d Hnn Hd'),
        (glyphInClass_in_range NDEBUG p gid j d Hnn Hd),
        (classSize_in_range NDEBUG p' j d Hnn Hd'),
        (classSize_in_range NDEBUG p j d Hnn Hd).
      split; reflexivity.
  - apply lookup_ge_None in Hd.
    assert (Hge : GPat.size p <= j) by (unfold GPat.size; lia).
    unfold GPat.glyphInClass, GPat.classSize. rewrite Hlen.
    destruct (Z.leb_spec (GPat.size p) j); [| lia].
    destruct (assert NDEBUG (j <? GPat.size p)); split; reflexivity.
Qed.

(** X14: [sortClass(idx)] at an index within the pattern returns normally
    in every build; it changes no class but the one at [idx], keeps the
    number of classes and the pattern flags, and afterwards [glyphInClass]
    and [classSize] answer as before at every index. *)
Theorem sortClass_frame
  (NDEBUG : bool) (std_sort : list GlyphRec.t -> list GlyphRec.t)
  (p : GPat.t) (idx : Z) :
  StdSort.conforming std_sort -> 0 <= idx < GPat.size p ->
  exists p',
    GPat.sortClass NDEBUG std_sort p idx = Ret p' /\
    GPat.size p' = GPat.size p /\
    (GPat.has_marked p', GPat.ignore_clause p', GPat.lookup_node p', GPat.enumerate p') =
    (GPat.has_marked p, GPat.ignore_clause p, GPat.lookup_node p, GPat.enumerate p) /\
    (forall j : nat, j <> Z.to_nat idx ->
                     GPat.classes p' !! j = GPat.classes p !! j) /\
    (forall gid j,
       GPat.glyphInClass NDEBUG p' gid j = GPat.glyphInClass NDEBUG p gid j /\
       GPat.classSize NDEBUG p' j = GPat.classSize NDEBUG p j).
Proof.
  intros Hconf [Hnn Hlt].
  destruct (lookup_lt_is_Some_2 (GPat.classes p) (Z.to_nat idx)
              ltac:(unfold GPat.size in Hlt; lia)) as [c Hc].
  unfold GPat.sortClass. rewrite assert_in_range by exact Hlt. simpl.
  destruct (Z.leb_spec (GPat.size p) idx) as [Hbad | _]; [lia |].
  rewrite (at_index_lookup _ _ _ Hnn Hc). simpl.
  eexists. split; [reflexivity |].
  split; [unfold GPat.size; simpl; rewrite length_insert; reflexivity |].
  split; [reflexivity |].
  split; [intros j Hj; simpl; apply list_lookup_insert_ne; congruence |].
  destruct (Hconf (ClassRec.glyphs c)) as [Hperm _].
  apply (accessors_same_classes_elsewhere NDEBUG p
           (GPat.set_classes p
              (<[Z.to_nat idx := ClassRec.sort std_sort c]> (GPat.classes p)))
           (Z.to_nat idx) c (ClassRec.sort std_sort c) Hc eq_refl).
  - intros g. symmetry. apply glyphInClass_Permutation. exact Hperm.
  - unfold ClassRec.classSize, ClassRec.size. simpl.
    rewrite <- (Permutation_length Hperm). reflexivity.
Qed.

Lemma sortClass_frame_witness :
  exists p',
    GPat.sortClass false StdSort.keeping_sort
      (GPat.addClass (GPat.of_gid 5) (CrossProduct.class_of [3; 1; 2])) 1 = Ret p' /\
    GPat.size p' = 2.
Proof.
  destruct (sortClass_frame false StdSort.keeping_sort
              (GPat.addClass (GPat.of_gid 5) (CrossProduct.class_of [3; 1; 2])) 1
              keeping_sort_conforming)
    as (p' & Hp' & Hsize & _).
  - unfold GPat.size. simpl. lia.
  - exists p'. split; [exact Hp' | exact Hsize].
Defined.

(** X15: [addClass] appends: the new class answers at the old length, the
    classes before it answer as they did, and [patternLen] grows by one as
    long as it fits a [uint16_t]. *)
Theorem addClass_lookup
  (NDEBUG : bool) (p : GPat.t) (cr : ClassRec.t) (gid : Z) :
  GPat.size p < 65535 ->
  GPat.patternLen (GPat.addClass p cr) = GPat.patternLen p + 1 /\
  GPat.glyphInClass NDEBUG (GPat.addClass p cr) gid (GPat.size p) =
    Ret (ClassRec.glyphInClass cr gid) /\
  GPat.classSize NDEBUG (GPat.addClass p cr) (GPat.size p) =
    Ret (ClassRec.classSize cr) /\
  (forall j, 0 <= j < GPat.size p ->
     GPat.glyphInClass NDEBUG (GPat.addClass p cr) gid j =
       GPat.glyphInClass NDEBUG p gid j /\
     GPat.classSize NDEBUG (GPat.addClass p cr) j = GPat.classSize NDEBUG p j).
Proof.
  intros Hsize. unfold GPat.size in Hsize.
  assert (Hnew : GPat.classes (GPat.addClass p cr) !! Z.to_nat (GPat.size p) = Some cr).
  { unfold GPat.size. simpl. rewrite Nat2Z.id. apply list_lookup_middle. reflexivity. }
  assert (H0 : 0 <= GPat.size p) by (unfold GPat.size; lia).
  split; [| split; [| split]].
  - unfold GPat.patternLen, GPat.size, to_uint16. simpl. rewrite length_app. simpl.
    rewrite !Z.mod_small by lia. lia.
  - apply glyphInClass_in_range; assumption.
  - apply classSize_in_range; assumption.
  - intros j [Hj0 Hj].
    destruct (lookup_lt_is_Some_2 (GPat.classes p) (Z.to_nat j)
                ltac:(unfold GPat.size in Hj; lia)) as [d Hd].
    assert (Hd' : GPat.classes (GPat.addClass p cr) !! Z.to_nat j = Some d)
      by (simpl; apply lookup_app_l_Some; exact Hd).
    rewrite (glyphInClass_in_range NDEBUG _ gid j d Hj0 Hd'),
      (glyphInClass_in_range NDEBUG p gid j d Hj0 Hd),
      (classSize_in_range NDEBUG _ j d Hj0 Hd'),
      (classSize_in_range NDEBUG p j d Hj0 Hd).
    split; reflexivity.
Qed.

Lemma addClass_lookup_witness :
  GPat.patternLen (GPat.addClass (GPat.of_gid 5) (CrossProduct.class_of [3; 1])) =
  GPat.patternLen (GPat.of_gid 5) + 1.
Proof.
  apply (addClass_lookup true (GPat.of_gid 5) (CrossProduct.class_of [3; 1]) 0).
  unfold GPat.size. simpl. lia.
Defined.

(** X16: a pattern that [is_glyph] has exactly one class, of exactly one
    glyph: it is neither [is_class] nor [is_mult_class] and [classSize(0)]
    is 1 in every build; a pattern that [is_mult_class] has exactly one
    class too, and it [is_class] and not [is_glyph]. *)
Theorem pattern_kinds (NDEBUG : bool) (p : GPat.t) :
  (GPat.is_glyph p = true ->
   GPat.patternLen p = 1 /\ GPat.is_class p = false /\
   GPat.is_mult_class p = false /\ GPat.classSize NDEBUG p 0 = Ret 1) /\
  (GPat.is_mult_class p = true ->
   GPat.patternLen p = 1 /\ GPat.is_class p = true /\ GPat.is_glyph p = false).
Proof.
  unfold GPat.is_glyph, GPat.is_class, GPat.is_mult_class, GPat.patternLen.
  destruct (GPat.classes p) as [| c [| c' l]] eqn:Hcl;
    (split; [intros H | intros H]); try discriminate.
  - unfold ClassRec.is_glyph in H. apply andb_true_iff in H as [H1 H2].
    apply Z.eqb_eq in H1. apply negb_true_iff in H2.
    assert (Hc : GPat.classes p !! Z.to_nat 0 = Some c) by (rewrite Hcl; reflexivity).
    rewrite (classSize_in_range NDEBUG p 0 c ltac:(lia) Hc).
    unfold GPat.size, ClassRec.is_class, ClassRec.is_multi_class,
      ClassRec.classSize. rewrite Hcl, H1, H2. repeat split.
  - unfold ClassRec.is_multi_class in H. apply Z.ltb_lt in H.
    unfold GPat.size, ClassRec.is_class, ClassRec.is_glyph,
      ClassRec.is_multi_class. rewrite Hcl.
    destruct (Z.ltb_spec 1 (ClassRec.size c)); [| lia].
    destruct (Z.eqb_spec (ClassRec.size c) 1); [lia |]. repeat split.
Qed.

Lemma pattern_kinds_witness :
  GPat.classSize false (GPat.of_gid 12) 0 = Ret 1.
Proof.
  apply (pattern_kinds false (GPat.of_gid 12)). reflexivity.
Defined.

(** * Properties of the substitution table *)

(** ** The format of a single substitution *)

Lemma in_order_elem (m : gmap Z Z) (t r : Z) :
  (t, r) ∈ GSUB.in_order m <-> m !! t = Some r.
Proof.
  unfold GSUB.in_order. rewrite merge_sort_Permutation.
  apply elem_of_map_to_list.
Qed.

Lemma in_order_nil (m : gmap Z Z) : GSUB.in_order m = [] <-> m = ∅.
Proof.
  split.
  - intros H. apply map_empty. intros k.
    destruct (m !! k) as [v |] eqn:E; [| reflexivity].
    apply in_order_elem in E. rewrite H in E. inversion E.
  - intros ->. unfold GSUB.in_order. rewrite map_to_list_empty. reflexivity.
Qed.

Lemma same_delta_format1 (pairs : list (Z * Z)) (delta d : Z) :
  GSUB.same_delta pairs delta = GSUB.SingleSubstFormat1 d <->
  d = delta /\ forall t r, (t, r) ∈ pairs -> r - t = delta.
Proof.
  induction pairs as [| [t r] pairs IH]; simpl.
  - split.
    + intros E. injection E as <-. split; [reflexivity |].
      intros t r H. inversion H.
    + intros [-> _]. reflexivity.
  - destruct (Z.eqb_spec delta (r - t)) as [E | NE]; simpl.
    + rewrite IH. split; intros [Hd H]; (split; [exact Hd |]).
      * intros t' r' Hin. apply elem_of_cons in Hin as [Heq | Hin]; [| auto].
        injection Heq as -> ->. lia.
      * intros t' r' Hin. apply H. apply elem_of_cons. right. exact Hin.
    + split; [discriminate |]. intros [_ H]. exfalso. apply NE. symmetry.
      apply H. apply elem_of_cons. left. reflexivity.
Qed.

Lemma same_delta_format2 (pairs : list (Z * Z)) (delta : Z) :
  GSUB.same_delta pairs delta = GSUB.SingleSubstFormat2 <->
  exists t r, (t, r) ∈ pairs /\ r - t <> delta.
Proof.
  destruct (GSUB.same_delta pairs delta) as [d |] eqn:E.
  - apply same_delta_format1 in E as [_ H]. split; [discriminate |].
    intros (t & r & Hin & Hne). exfalso. apply Hne, H, Hin.
  - split; [intros _ | reflexivity].
    revert E. induction pairs as [| [t r] pairs IH]; simpl; [discriminate |].
    destruct (Z.eqb_spec delta (r - t)) as [Heq | NE]; simpl.
    + intros E. destruct (IH E) as (t' & r' & Hin & Hne).
      exists t', r'. split; [apply elem_of_cons; right; exact Hin | exact Hne].
    + intros _. exists t, r. split; [apply elem_of_cons; left; reflexivity | lia].
Qed.

(** X17: [SingleSubst::fill] picks format 1 with delta [d] exactly when
    every pair of the map has [repl - targ = d], and format 2 exactly when
    two pairs differ in that difference; on an empty map the delta it hands
    on was never set. *)
Theorem single_format_by_delta (singles : gmap Z Z) :
  (singles = ∅ -> GSUB.SingleSubst_format singles = GSUB.Undef) /\
  (singles <> ∅ ->
   exists f, GSUB.SingleSubst_format singles = GSUB.Done f /\
     (forall d, f = GSUB.SingleSubstFormat1 d <->
                forall t r, singles !! t = Some r -> r - t = d) /\
     (f = GSUB.SingleSubstFormat2 <->
      exists t r t' r', singles !! t = Some r /\ singles !! t' = Some r' /\
                        r - t <> r' - t')).
Proof.
  unfold GSUB.SingleSubst_format. split.
  - intros ->. rewrite (proj2 (in_order_nil ∅) eq_refl). reflexivity.
  - intros Hne. destruct (GSUB.in_order singles) as [| [t0 r0] pairs] eqn:E.
    { exfalso. apply Hne, in_order_nil, E. }
    assert (Hall : forall t r, singles !! t = Some r <->
                               (t, r) = (t0, r0) \/ (t, r) ∈ pairs).
    { intros t r. rewrite <- in_order_elem, E. apply elem_of_cons. }
    eexists. split; [reflexivity |]. split.
    + intros d. rewrite same_delta_format1. split.
      * intros [-> H] t r Htr. apply Hall in Htr as [Heq | Hin]; [| auto].
        injection Heq as -> ->. reflexivity.
      * intros H. split.
        -- symmetry. apply H, Hall. left. reflexivity.
        -- intros t r Hin. rewrite (H t r), (H t0 r0); [reflexivity | |];
             apply Hall; auto.
    + rewrite same_delta_format2. split.
      * intros (t & r & Hin & Hd). exists t, r, t0, r0.
        split; [apply Hall; right; exact Hin |].
        split; [apply Hall; left; reflexivity | exact Hd].
      * intros (t & r & t' & r' & Htr & Htr' & Hd).
        apply Hall in Htr, Htr'.
        destruct Htr as [Heq | Hin].
        -- injection Heq as -> ->. destruct Htr' as [Heq' | Hin'].
           ++ injection Heq' as -> ->. contradiction.
           ++ exists t', r'. split; [exact Hin' | lia].
        -- destruct (Z.eq_dec (r - t) (r0 - t0)) as [Heq | Hne'].
           ++ destruct Htr' as [Heq' | Hin'].
              ** injection Heq' as -> ->. lia.
              ** exists t', r'. split; [exact Hin' | lia].
           ++ exists t, r. split; [exact Hin | exact Hne'].
Qed.

Lemma single_format_by_delta_witness :
  exists f, GSUB.SingleSubst_format (<[10 := 30]> (<[11 := 31]> ∅)) = GSUB.Done f.
Proof.
  destruct (proj2 (single_format_by_delta (<[10 := 30]> (<[11 := 31]> ∅))))
    as (f & Hf & _).
  - intros H. apply (f_equal (fun m : gmap Z Z => m !! 10)) in H.
    rewrite lookup_insert_eq, lookup_empty in H. discriminate H.
  - exists f. exact Hf.
Defined.

(** ** Feature parameters *)

Lemma land_255_bounds (z : Z) : 0 <= Z.land z 255 <= 255.
Proof.
  assert (E : Z.land z 255 = z mod 256)
    by (change 255 with (Z.ones 8); rewrite Z.land_ones by lia; reflexivity).
  rewrite E. pose proof (Z.mod_pos_bound z 256 ltac:(lia)). lia.
Qed.

Lemma feature_number_spec (feature : Z) :
  GSUB.feature_number feature <= 99 <->
  0 <= (GSUB.tag_byte feature 8 - 48) * 10 + (Z.land feature 255 - 48) <= 99.
Proof.
  unfold GSUB.feature_number, to_uint16.
  rewrite Zplus_mod_idemp_l.
  pose proof (land_255_bounds (Z.shiftr feature 8)) as H1.
  pose proof (land_255_bounds feature) as H0.
  unfold GSUB.tag_byte in *.
  set (v := (Z.land (Z.shiftr feature 8) 255 - 48) * 10 + (Z.land feature 255 - 48)).
  assert (Hv : -528 <= v <= 2277) by (unfold v; lia).
  destruct (Z.lt_ge_cases v 0) as [Hneg | Hpos].
  - replace v with (v + 65536 + -1 * 65536) by lia.
    rewrite Z.mod_add by lia. rewrite Z.mod_small by lia. lia.
  - rewrite Z.mod_small by lia. lia.
Qed.

(** X18: the tag test of [FeatureNameParam::fill] ([CVParam::fill]) holds
    exactly when the first two bytes of the feature tag are 's','s'
    ('c','v') and the last two bytes [c1], [c0] give
    [0 <= 10 * (c1 - '0') + (c0 - '0') <= 99]; so every tag "ss00" to
    "ss99" passes, and the two last characters need not be digits. *)
Theorem feature_param_tag_test (feature : Z) :
  (GSUB.is_stylistic_set feature = true <->
   GSUB.tag_byte feature 24 = 115 /\ GSUB.tag_byte feature 16 = 115 /\
   0 <= (GSUB.tag_byte feature 8 - 48) * 10 + (Z.land feature 255 - 48) <= 99) /\
  (GSUB.is_character_variant feature = true <->
   GSUB.tag_byte feature 24 = 99 /\ GSUB.tag_byte feature 16 = 118 /\
   0 <= (GSUB.tag_byte feature 8 - 48) * 10 + (Z.land feature 255 - 48) <= 99) /\
  (48 <= GSUB.tag_byte feature 8 <= 57 -> 48 <= Z.land feature 255 <= 57 ->
   GSUB.feature_number feature <= 99).
Proof.
  unfold GSUB.is_stylistic_set, GSUB.is_character_variant.
  rewrite !andb_true_iff, !Z.eqb_eq, !Z.leb_le, !feature_number_spec.
  split; [tauto |]. split; [tauto |]. lia.
Qed.

Lemma feature_param_tag_test_witness :
  GSUB.feature_number 0x73733030 <= 99.
Proof.
  apply (feature_param_tag_test 0x73733030); vm_compute; split; discriminate.
Defined.

Lemma length_flat_map_const {A B : Type} (f : A -> list B) (n : nat) (l : list A) :
  (forall a, length (f a) = n) -> length (flat_map f l) = (n * length l)%nat.
Proof.
  intros H. induction l as [| a l IH]; simpl; [lia |].
  rewrite length_app, H, IH. lia.
Qed.

(** X19: [CVParam::write] emits exactly the number of bytes that
    [CVParameterFormat::size()] announces (while that number fits an
    [int]), and each character value below 2^24 is written as the three
    bytes of its big-endian form. *)
Theorem cvparam_write_matches_size (subformat : Z) (params : CVParameterFormat.t) :
  Z.of_nat (length (CVParameterFormat.charValues params)) < 700000000 ->
  Z.of_nat (length (GSUB.CVParam_write subformat params)) =
    CVParameterFormat.size params /\
  (forall uv, 0 <= uv < 16777216 ->
              GSUB.read24 (GSUB.write_char_value uv) = Some uv).
Proof.
  intros Hn. split.
  - unfold GSUB.CVParam_write, CVParameterFormat.size.
    rewrite !length_app. simpl length.
    rewrite (length_flat_map_const GSUB.write_char_value 3) by reflexivity.
    rewrite to_int_small by lia. lia.
  - intros uv Huv. unfold GSUB.write_char_value, GSUB.OUT1, GSUB.OUT2,
      GSUB.to_int8, to_uint16. simpl. f_equal.
    rewrite Z.shiftr_div_pow2 by lia. change (2 ^ 16) with 65536.
    change 65535 with (Z.ones 16). rewrite Z.land_ones by lia.
    change (2 ^ 16) with 65536.
    rewrite (Z.mod_small (uv mod 65536) 65536)
      by (apply Z.mod_pos_bound; lia).
    assert (H1 : 0 <= uv / 65536 < 256)
      by (split; [apply Z.div_pos; lia | apply Z.div_lt_upper_bound; lia]).
    replace (((uv / 65536 + 128) mod 256 - 128) mod 256) with (uv / 65536).
    2: { rewrite Zminus_mod_idemp_l. replace (uv / 65536 + 128 - 128) with (uv / 65536) by lia.
         symmetry. apply Z.mod_small. lia. }
    pose proof (Z.div_mod uv 65536 ltac:(lia)) as Hd.
    pose proof (Z.mod_pos_bound uv 65536 ltac:(lia)) as Hm.
    set (lo := uv mod 65536) in *.
    assert (H2 : 0 <= lo / 256 < 256)
      by (split; [apply Z.div_pos; lia | apply Z.div_lt_upper_bound; lia]).
    rewrite (Z.mod_small (lo / 256)) by lia.
    pose proof (Z.div_mod lo 256 ltac:(lia)). lia.
Qed.

Lemma cvparam_write_matches_size_witness :
  Z.of_nat (length (GSUB.CVParam_write 0
                      (CVParameterFormat.mk 256 257 0 1 258 [0x41; 0x1F600]))) =
  CVParameterFormat.size (CVParameterFormat.mk 256 257 0 1 258 [0x41; 0x1F600]).
Proof.
  apply (cvparam_write_matches_size 0
           (CVParameterFormat.mk 256 257 0 1 258 [0x41; 0x1F600])).
  simpl. lia.
Defined.

(** ** Pascal strings of the BLND table *)

Lemma pad_parity (len : Z) : BLND.pad len = 1 - len mod 2.
Proof.
  unfold BLND.pad. change 1 with (Z.ones 1) at 1. rewrite Z.land_ones by lia.
  change (2 ^ 1) with 2. unfold Z.lnot. 
  pose proof (Z.div_mod len 2 ltac:(lia)) as Hd.
  pose proof (Z.mod_pos_bound len 2 ltac:(lia)) as Hm.
  replace (Z.pred (- len)) with ((1 - len mod 2) + (- (len / 2) - 1) * 2) by lia.
  rewrite Z.mod_add by lia. apply Z.mod_small. lia.
Qed.

Lemma span_even (len : Z) : BLND.span len mod 2 = 0.
Proof.
  unfold BLND.span. rewrite pad_parity.
  pose proof (Z.div_mod len 2 ltac:(lia)) as Hd.
  replace (1 + len + (1 - len mod 2)) with (0 + (len / 2 + 1) * 2) by lia.
  rewrite Z.mod_add by lia. reflexivity.
Qed.

Lemma masterNames_size_acc (lens : list Z) (acc : Z) :
  Forall (fun len => 0 <= len <= 255) lens ->
  0 <= acc -> acc + 257 * Z.of_nat (length lens) < 2147483648 ->
  fold_left (fun size len => to_int (size + 1 + len + BLND.pad len)) lens acc =
  acc + foldr (fun len s => BLND.span len + s) 0 lens.
Proof.
  intros H. revert acc. induction H as [| len lens Hlen _ IH]; intros acc H0 Hacc.
  - simpl. lia.
  - simpl fold_left. simpl foldr.
    assert (Hp : 0 <= BLND.pad len <= 1)
      by (rewrite pad_parity; pose proof (Z.mod_pos_bound len 2 ltac:(lia)); lia).
    simpl length in Hacc.
    rewrite to_int_small by lia. rewrite IH by lia.
    unfold BLND.span. lia.
Qed.

(** X20: a Pascal string with length byte [len] takes
    [1 + len + (~len & 1)] bytes, which is always even: [len + 1] for an
    odd and [len + 2] for an even length; so the size [BLNDRead] computes
    for the master name table is the sum of these spans, and even. *)
Theorem pascal_strings_even (lens : list Z) :
  Forall (fun len => 0 <= len <= 255) lens ->
  Z.of_nat (length lens) <= 65535 ->
  (forall len, BLND.span len mod 2 = 0 /\
               BLND.span len = if Z.odd len then len + 1 else len + 2) /\
  BLND.masterNames_size lens = foldr (fun len s => BLND.span len + s) 0 lens /\
  BLND.masterNames_size lens mod 2 = 0.
Proof.
  intros Hlens Hcount.
  assert (Hsum : BLND.masterNames_size lens =
                 foldr (fun len s => BLND.span len + s) 0 lens).
  { unfold BLND.masterNames_size. rewrite masterNames_size_acc by (auto; lia). lia. }
  split; [| split; [exact Hsum |]].
  - intros len. split; [apply span_even |].
    unfold BLND.span. rewrite pad_parity, Zmod_odd.
    destruct (Z.odd len); lia.
  - rewrite Hsum. clear. induction lens as [| len lens IH]; simpl; [reflexivity |].
    rewrite Z.add_mod, span_even, IH by lia. reflexivity.
Qed.

Lemma pascal_strings_even_witness :
  BLND.masterNames_size [5; 8; 0] mod 2 = 0.
Proof.
  apply (pascal_strings_even [5; 8; 0]).
  - repeat constructor; lia.
  - simpl. lia.
Defined.

(** ** Adding single substitutions *)

Lemma paired_next (r : Z) (rest : list Z) (j : nat) :
  GSUB.paired (r :: rest) (S j) =
  GSUB.paired (fst (GSUB.next_repl r rest) :: snd (GSUB.next_repl r rest)) j.
Proof.
  unfold GSUB.paired. destruct rest as [| r1 rr]; simpl.
  - destruct j; reflexivity.
  - rewrite Nat.sub_0_r. reflexivity.
Qed.

Lemma paired_head (r : Z) (rest : list Z) : GSUB.paired (r :: rest) 0 = Some r.
Proof. reflexivity. Qed.

Lemma addSingles_spec (ts : list Z) :
  forall (r : Z) (rest : list Z) (m : gmap Z Z) (notes : list GSUB.message)
         (m' : gmap Z Z) (notes' : list GSUB.message),
    GSUB.addSingles ts r rest m notes = GSUB.Done (m', notes') ->
    (forall k v, m !! k = Some v -> m' !! k = Some v) /\
    (forall (j : nat) t, ts !! j = Some t -> m' !! t = GSUB.paired (r :: rest) j) /\
    (forall k, is_Some (m' !! k) -> is_Some (m !! k) \/ k ∈ ts).
Proof.
  induction ts as [| t ts IH]; intros r rest m notes m' notes' H; simpl in H.
  - injection H as <- <-. split; [auto |]. split; [| auto].
    intros j t Hj. rewrite lookup_nil in Hj. discriminate Hj.
  - destruct (GSUB.next_repl r rest) as [r' rest'] eqn:Hnext.
    assert (Hp : forall j, GSUB.paired (r :: rest) (S j) = GSUB.paired (r' :: rest') j)
      by (intros j; rewrite paired_next, Hnext; reflexivity).
    destruct (m !! t) as [r0 |] eqn:Hmt.
    + destruct (Z.eqb_spec r0 r) as [-> | NE]; [| discriminate H].
      apply IH in H as (Hkeep & Hpair & Hdom).
      split; [exact Hkeep |]. split.
      * intros [| j] t' Hj; simpl in Hj.
        -- injection Hj as <-. rewrite paired_head. apply Hkeep, Hmt.
        -- rewrite Hp. apply Hpair, Hj.
      * intros k Hk. destruct (Hdom k Hk) as [Hm | Hin]; [left; exact Hm |].
        right. apply elem_of_cons. right. exact Hin.
    + apply IH in H as (Hkeep & Hpair & Hdom).
      split; [| split].
      * intros k v Hk. apply Hkeep. rewrite lookup_insert_ne; [exact Hk |].
        intros ->. congruence.
      * intros [| j] t' Hj; simpl in Hj.
        -- injection Hj as <-. rewrite paired_head. apply Hkeep, lookup_insert_eq.
        -- rewrite Hp. apply Hpair, Hj.
      * intros k Hk. destruct (Hdom k Hk) as [Hm | Hin].
        -- destruct (decide (k = t)) as [-> | NE].
           ++ right. apply elem_of_cons. left. reflexivity.
           ++ left. rewrite lookup_insert_ne in Hm by congruence. exact Hm.
        -- right. apply elem_of_cons. right. exact Hin.
Qed.

Lemma addSingles_fresh (ts : list Z) :
  forall (r : Z) (rest : list Z) (m : gmap Z Z) (notes : list GSUB.message),
    NoDup ts -> (forall t, t ∈ ts -> m !! t = None) ->
    exists m', GSUB.addSingles ts r rest m notes = GSUB.Done (m', notes).
Proof.
  induction ts as [| t ts IH]; intros r rest m notes Hnd Hfresh; simpl.
  - eexists. reflexivity.
  - destruct (GSUB.next_repl r rest) as [r' rest'].
    rewrite (Hfresh t) by (apply elem_of_cons; left; reflexivity).
    apply NoDup_cons in Hnd as [Hnotin Hnd].
    apply IH; [exact Hnd |]. intros t' Hin.
    rewrite lookup_insert_ne by (intros ->; contradiction).
    apply Hfresh. apply elem_of_cons. right. exact Hin.
Qed.

(** X21: when [addSubstRule] returns from adding a single-substitution
    rule, every mapping that was in the map is still there unchanged,
    every target glyph is mapped to the replacement glyph paired with it
    (the last one when the replacement class is shorter), and no other key
    has appeared; when the target glyphs are distinct and none is mapped
    yet, it returns without any note. *)
Theorem addSubstRule_single_keeps_mappings
  (ts rs : list Z) (singles : gmap Z Z) :
  (forall singles' notes,
     GSUB.addSubstRule_single ts rs singles = GSUB.Done (singles', notes) ->
     (forall k v, singles !! k = Some v -> singles' !! k = Some v) /\
     (forall (j : nat) t, ts !! j = Some t -> singles' !! t = GSUB.paired rs j) /\
     (forall k, is_Some (singles' !! k) -> is_Some (singles !! k) \/ k ∈ ts)) /\
  (rs <> [] -> NoDup ts -> (forall t, t ∈ ts -> singles !! t = None) ->
   exists singles', GSUB.addSubstRule_single ts rs singles = GSUB.Done (singles', [])).
Proof.
  split.
  - intros singles' notes H. unfold GSUB.addSubstRule_single in H.
    destruct ts as [| t ts].
    + injection H as <- <-. split; [auto |]. split; [| auto].
      intros j t Hj. rewrite lookup_nil in Hj. discriminate Hj.
    + destruct rs as [| r rest]; [discriminate H |].
      apply addSingles_spec in H. exact H.
  - intros Hrs Hnd Hfresh. unfold GSUB.addSubstRule_single.
    destruct ts as [| t ts]; [eexists; reflexivity |].
    destruct rs as [| r rest]; [contradiction |].
    apply addSingles_fresh; assumption.
Qed.

Lemma addSubstRule_single_keeps_mappings_witness :
  exists singles',
    GSUB.addSubstRule_single [10; 11; 12] [40] (<[3 := 4]> ∅) =
    GSUB.Done (singles', []).
Proof.
  apply (addSubstRule_single_keeps_mappings [10; 11; 12] [40] (<[3 := 4]> ∅)).
  - discriminate.
  - apply NoDup_cons. split.
    { rewrite !elem_of_cons, elem_of_nil. intros [H | [H | H]]; try discriminate H; exact H. }
    apply NoDup_cons. split.
    { rewrite !elem_of_cons, elem_of_nil. intros [H | H]; try discriminate H; exact H. }
    apply NoDup_singleton.
  - intros t Ht. apply lookup_insert_None. split; [apply lookup_empty |].
    intros <-. revert Ht. rewrite !elem_of_cons, elem_of_nil.
    intros [H | [H | [H | H]]]; try discriminate H; exact H.
Defined.

(** ** Adding to an anonymous single substitution *)

Section AnonFacts.

Variable FEAT_MISC : Z.

Lemma map_insert_lookup (k v : Z) (m : gmap Z Z) (k' : Z) :
  GSUB.map_insert k v m !! k' =
  match m !! k' with
  | Some v' => Some v'
  | None => if decide (k' = k) then Some v else None
  end.
Proof.
  unfold GSUB.map_insert. destruct (m !! k) as [v0 |] eqn:E.
  - destruct (m !! k') as [v' |] eqn:E'; [reflexivity |].
    destruct (decide (k' = k)) as [-> | _]; [congruence | reflexivity].
  - destruct (decide (k' = k)) as [-> | NE].
    + rewrite lookup_insert_eq, E. reflexivity.
    + rewrite lookup_insert_ne by congruence.
      destruct (m !! k'); reflexivity.
Qed.

Lemma anon_needed_spec (singles : gmap Z Z) (ts : list GSUB.GNode) :
  forall (r : Z) (rest : list Z) (needed : gmap Z Z) res ts',
    GSUB.anon_needed FEAT_MISC singles ts r rest needed = (res, ts') ->
    GSUB.gid <$> ts' = GSUB.gid <$> ts /\
    (res = None <->
     exists (j : nat) t r0, ts !! j = Some t /\ singles !! GSUB.gid t = Some r0 /\
                            GSUB.paired (r :: rest) j <> Some r0) /\
    (forall needed', res = Some needed' ->
       (forall k v, needed !! k = Some v -> needed' !! k = Some v) /\
       (forall k v, needed' !! k = Some v ->
          needed !! k = Some v \/
          exists (j : nat) t, ts !! j = Some t /\ GSUB.gid t = k /\
                              GSUB.paired (r :: rest) j = Some v) /\
       (forall t, t ∈ ts -> singles !! GSUB.gid t = None ->
                  is_Some (needed' !! GSUB.gid t))).
Proof.
  induction ts as [| t ts IH]; intros r rest needed res ts' H; simpl in H.
  - injection H as <- <-. split; [reflexivity |]. split.
    + split; [discriminate |]. intros (j & t & r0 & Hj & _).
      rewrite lookup_nil in Hj. discriminate Hj.
    + intros needed' E. injection E as <-. split; [auto |]. split; [auto |].
      intros t Ht. inversion Ht.
  - destruct (GSUB.next_repl r rest) as [r' rest'] eqn:Hnext.
    assert (Hp : forall j, GSUB.paired (r :: rest) (S j) = GSUB.paired (r' :: rest') j)
      by (intros j; rewrite paired_next, Hnext; reflexivity).
    destruct (singles !! GSUB.gid t) as [r0 |] eqn:Hst.
    + destruct (Z.eqb_spec r0 r) as [-> | NE]; simpl in H.
      * destruct (GSUB.anon_needed FEAT_MISC singles ts r' rest' needed)
          as [res0 ts0] eqn:Hrec.
        injection H as <- <-. apply IH in Hrec as (Hg & Hnone & Hsome).
        split; [simpl; f_equal; exact Hg |]. split.
        -- rewrite Hnone. split.
           ++ intros (j & t' & r0 & Hj & Hs & Hne). exists (S j), t', r0.
              split; [exact Hj |]. split; [exact Hs |]. rewrite Hp. exact Hne.
           ++ intros ([| j] & t' & r0 & Hj & Hs & Hne); simpl in Hj.
              ** injection Hj as <-. rewrite paired_head in Hne. congruence.
              ** exists j, t', r0. split; [exact Hj |]. split; [exact Hs |].
                 rewrite <- Hp. exact Hne.
        -- intros needed' E. destruct (Hsome needed' E) as (H1 & H2 & H3).
           split; [exact H1 |]. split.
           ++ intros k v Hk. destruct (H2 k v Hk) as [Hl | (j & t' & Hj & Hg' & Hpv)];
                [left; exact Hl |].
              right. exists (S j), t'. split; [exact Hj |]. split; [exact Hg' |].
              rewrite Hp. exact Hpv.
           ++ intros t' Hin Hnone'. apply elem_of_cons in Hin as [-> | Hin];
                [congruence | auto].
      * injection H as <- <-. split; [reflexivity |]. split.
        -- split; [intros _ | reflexivity]. exists 0%nat, t, r0.
           split; [reflexivity |]. split; [exact Hst |].
           rewrite paired_head. congruence.
        -- intros needed' E. discriminate E.
    + destruct (GSUB.anon_needed FEAT_MISC singles ts r' rest'
                  (GSUB.map_insert (GSUB.gid t) r needed)) as [res0 ts0] eqn:Hrec.
      injection H as <- <-. apply IH in Hrec as (Hg & Hnone & Hsome).
      split; [simpl; f_equal; exact Hg |]. split.
      * rewrite Hnone. split.
        -- intros (j & t' & r0 & Hj & Hs & Hne). exists (S j), t', r0.
           split; [exact Hj |]. split; [exact Hs |]. rewrite Hp. exact Hne.
        -- intros ([| j] & t' & r0 & Hj & Hs & Hne); simpl in Hj.
           ++ injection Hj as <-. congruence.
           ++ exists j, t', r0. split; [exact Hj |]. split; [exact Hs |].
              rewrite <- Hp. exact Hne.
      * intros needed' E. destruct (Hsome needed' E) as (H1 & H2 & H3).
        split; [| split].
        -- intros k v Hk. apply H1. rewrite map_insert_lookup, Hk. reflexivity.
        -- intros k v Hk. destruct (H2 k v Hk) as [Hl | (j & t' & Hj & Hg' & Hpv)].
           ++ rewrite map_insert_lookup in Hl.
              destruct (needed !! k) as [v' |] eqn:Hnk; [left; exact Hl |].
              destruct (decide (k = GSUB.gid t)) as [-> | _]; [| discriminate Hl].
              injection Hl as <-. right. exists 0%nat, t.
              split; [reflexivity |]. split; [reflexivity | apply paired_head].
           ++ right. exists (S j), t'. split; [exact Hj |]. split; [exact Hg' |].
              rewrite Hp. exact Hpv.
        -- intros t' Hin Hnone'. apply elem_of_cons in Hin as [-> | Hin]; [| auto].
           assert (Hi : is_Some (GSUB.map_insert (GSUB.gid t) r needed !! GSUB.gid t)).
           { rewrite map_insert_lookup. destruct (needed !! GSUB.gid t); [eauto |].
             destruct (decide (GSUB.gid t = GSUB.gid t)); [eauto | contradiction]. }
           destruct Hi as [v Hv]. exists v. apply H1, Hv.
Qed.

Lemma fold_insert_lookup (l : list (Z * Z)) :
  forall (m : gmap Z Z) (k v : Z),
    NoDup (fst <$> l) ->
    (fold_left (fun m p => GSUB.map_insert (fst p) (snd p) m) l m !! k = Some v <->
     m !! k = Some v \/ (m !! k = None /\ (k, v) ∈ l)).
Proof.
  induction l as [| [k0 v0] l IH]; intros m k v Hnd; simpl.
  - split; [auto |]. intros [H | [_ H]]; [exact H | inversion H].
  - simpl in Hnd. apply NoDup_cons in Hnd as [Hnotin Hnd].
    rewrite (IH _ k v Hnd), map_insert_lookup.
    destruct (m !! k) as [v' |] eqn:Hmk.
    + split; [intros [H | [H _]]; [left; exact H | discriminate H] |].
      intros [H | [H _]]; [left; exact H | discriminate H].
    + destruct (decide (k = k0)) as [-> | NE].
      * split.
        -- intros [H | [H _]]; [| discriminate H]. injection H as <-.
           right. split; [reflexivity |]. apply elem_of_cons. left. reflexivity.
        -- intros [H | [_ H]]; [discriminate H |].
           apply elem_of_cons in H as [Heq | Hin].
           ++ injection Heq as ->. left. reflexivity.
           ++ exfalso. apply Hnotin. apply list_elem_of_fmap.
              exists (k0, v). split; [reflexivity | exact Hin].
      * split.
        -- intros [H | [_ H]]; [discriminate H |]. right. split; [reflexivity |].
           apply elem_of_cons. right. exact H.
        -- intros [H | [_ H]]; [discriminate H |]. right. split; [reflexivity |].
           apply elem_of_cons in H as [Heq | Hin]; [congruence | exact Hin].
Qed.

Lemma insert_all_lookup (needed singles : gmap Z Z) (k v : Z) :
  GSUB.insert_all needed singles !! k = Some v <->
  singles !! k = Some v \/ (singles !! k = None /\ needed !! k = Some v).
Proof.
  unfold GSUB.insert_all. rewrite fold_insert_lookup.
  - rewrite in_order_elem. reflexivity.
  - unfold GSUB.in_order. rewrite merge_sort_Permutation.
    apply NoDup_fst_map_to_list.
Qed.

End AnonFacts.

(** X22: [addSingleToAnonSubtbl] returns false exactly when some target
    glyph is already mapped to a glyph other than the replacement paired
    with it, and then leaves the map as it was; when it returns true every
    old mapping is kept, every target glyph is mapped, and each new mapping
    sends a target glyph to a replacement paired with it.  The target nodes
    keep their GIDs. *)
Theorem anon_single_conflict
  (NDEBUG : bool) (FEAT_MISC : Z) (is_single : bool) (singles : gmap Z Z)
  (ts : list GSUB.GNode) (rs : list Z)
  (b : bool) (singles' : gmap Z Z) (ts' : list GSUB.GNode) :
  GSUB.addSingleToAnonSubtbl NDEBUG FEAT_MISC is_single singles ts rs =
    Ret (b, singles', ts') ->
  (b = false <->
   exists (j : nat) t r0, ts !! j = Some t /\ singles !! GSUB.gid t = Some r0 /\
                          GSUB.paired rs j <> Some r0) /\
  (b = false -> singles' = singles) /\
  (b = true ->
   (forall k v, singles !! k = Some v -> singles' !! k = Some v) /\
   (forall t, t ∈ ts -> is_Some (singles' !! GSUB.gid t)) /\
   (forall k v, singles' !! k = Some v ->
      singles !! k = Some v \/
      exists (j : nat) t, ts !! j = Some t /\ GSUB.gid t = k /\
                          GSUB.paired rs j = Some v)) /\
  GSUB.gid <$> ts' = GSUB.gid <$> ts.
Proof.
  unfold GSUB.addSingleToAnonSubtbl. intros H.
  destruct (assert NDEBUG is_single); simpl in H; try discriminate H.
  destruct ts as [| t ts].
  { injection H as <- <- <-. split.
    - split; [discriminate |]. intros (j & t & r0 & Hj & _).
      rewrite lookup_nil in Hj. discriminate Hj.
    - split; [discriminate |]. split; [| reflexivity]. intros _.
      split; [auto |]. split; [intros t Ht; inversion Ht | auto]. }
  destruct rs as [| r rest]; [discriminate H |].
  destruct (GSUB.anon_needed FEAT_MISC singles (t :: ts) r rest ∅)
    as [[needed |] ts0] eqn:Hscan;
    injection H as <- <- <-;
    apply anon_needed_spec in Hscan as (Hg & Hnone & Hsome).
  - destruct (Hsome needed eq_refl) as (_ & Hfrom & Hall).
    split; [| split; [discriminate | split; [| exact Hg]]].
    + split; [discriminate |]. intros Hex. apply Hnone in Hex. discriminate Hex.
    + intros _. split; [| split].
      * intros k v Hk. apply insert_all_lookup. left. exact Hk.
      * intros t' Hin. destruct (singles !! GSUB.gid t') as [v |] eqn:Hs.
        -- exists v. apply insert_all_lookup. left. exact Hs.
        -- destruct (Hall t' Hin Hs) as [v Hv]. exists v.
           apply insert_all_lookup. right. split; assumption.
      * intros k v Hk. apply insert_all_lookup in Hk as [Hk | [_ Hk]];
          [left; exact Hk |].
        destruct (Hfrom k v Hk) as [Hempty | Hex];
          [rewrite lookup_empty in Hempty; discriminate Hempty | right; exact Hex].
  - split; [| split; [reflexivity | split; [discriminate | exact Hg]]].
    split; [intros _; apply Hnone; reflexivity | reflexivity].
Qed.

Lemma anon_single_conflict_witness :
  GSUB.gid <$> [GSUB.mkNode 10 0; GSUB.mkNode 11 0] =
  GSUB.gid <$> [GSUB.mkNode 10 4; GSUB.mkNode 11 0].
Proof.
  symmetry.
  apply (anon_single_conflict true 4 true (<[10 := 40]> ∅)
           [GSUB.mkNode 10 4; GSUB.mkNode 11 0] [40; 41]
           true (<[11 := 41]> (<[10 := 40]> ∅))
           [GSUB.mkNode 10 0; GSUB.mkNode 11 0]).
  vm_compute. reflexivity.
Defined.

(** ** The order of ligature rules *)

Lemma lex_ltb_total (a b : list Z) :
  exactly_one (lex_ltb a b) (lex_ltb b a) (bool_decide (a = b)).
Proof.
  revert b. induction a as [| u a IH]; intros [| v b]; simpl.
  - right; right. repeat split.
  - left. repeat split.
  - right; left. repeat split.
  - destruct (Z.lt_total u v) as [Hlt | [Heq | Hgt]].
    + left. repeat split.
      * apply orb_true_iff; left; apply Z.ltb_lt; lia.
      * apply orb_false_iff; split; [apply Z.ltb_ge; lia |].
        apply andb_false_iff; left; apply Z.eqb_neq; lia.
      * apply bool_decide_eq_false. intros E; injection E; lia.
    + subst v. rewrite Z.ltb_irrefl, Z.eqb_refl. simpl.
      destruct (IH b) as [(H1 & H2 & H3) | [(H1 & H2 & H3) | (H1 & H2 & H3)]].
      * left. repeat split; auto.
        apply bool_decide_eq_false. apply bool_decide_eq_false in H3. congruence.
      * right; left. repeat split; auto.
        apply bool_decide_eq_false. apply bool_decide_eq_false in H3. congruence.
      * right; right. repeat split; auto.
        apply bool_decide_eq_true. apply bool_decide_eq_true in H3. congruence.
    + right; left. repeat split.
      * apply orb_false_iff; split; [apply Z.ltb_ge; lia |].
        apply andb_false_iff; left; apply Z.eqb_neq; lia.
      * apply orb_true_iff; left; apply Z.ltb_lt; lia.
      * apply bool_decide_eq_false. intros E; injection E; lia.
Qed.

Lemma cmp_rest_lex (ga gb : list Z) :
  length ga = length gb -> GSUB.cmp_rest ga gb = GSUB.Done (lex_ltb ga gb).
Proof.
  revert gb. induction ga as [| u ga IH]; intros [| v gb] Hlen;
    simpl in *; try discriminate; [reflexivity |].
  injection Hlen as Hlen.
  destruct (Z.eqb_spec u v) as [-> | NE]; simpl.
  - rewrite Z.ltb_irrefl. simpl. apply IH, Hlen.
  - rewrite orb_false_r. reflexivity.
Qed.

Lemma cmpLigature_key (a b : GSUB.SubstRule) :
  Ligature.well_formed a -> Ligature.well_formed b ->
  GSUB.cmpLigature a b = GSUB.Done (lex_ltb (Ligature.key a) (Ligature.key b)).
Proof.
  intros (Ha & _ & Hda) (Hb & _ & Hdb).
  unfold GSUB.cmpLigature, Ligature.key.
  destruct (GSUB.targ a) as [| u ta] eqn:Eta; [contradiction |].
  destruct (GSUB.targ b) as [| v tb] eqn:Etb; [contradiction |].
  simpl hd. cbn [lex_ltb].
  destruct (Z.eqb_spec u v) as [-> | NE]; simpl.
  2: { rewrite orb_false_r. reflexivity. }
  rewrite Z.ltb_irrefl. simpl.
  destruct (Z.eqb_spec (GSUB.data a) (GSUB.data b)) as [Ed | NEd]; simpl.
  - rewrite Ed, Z.ltb_irrefl, !Z.eqb_refl. simpl.
    apply cmp_rest_lex. simpl in *. lia.
  - destruct (Z.eqb_spec (- GSUB.data a) (- GSUB.data b)) as [E | _]; [lia |].
    rewrite andb_false_l, orb_false_r. f_equal.
    destruct (Z.ltb_spec (GSUB.data b) (GSUB.data a)),
      (Z.ltb_spec (- GSUB.data a) (- GSUB.data b)); (reflexivity || lia).
Qed.

Lemma key_eq_targ (a b : GSUB.SubstRule) :
  Ligature.well_formed a -> Ligature.well_formed b ->
  (Ligature.key a = Ligature.key b <-> GSUB.targ a = GSUB.targ b).
Proof.
  intros (_ & _ & Hda) (_ & _ & Hdb). unfold Ligature.key. split.
  - intros E. injection E as _ _ E. exact E.
  - intros E. rewrite Hda, Hdb, E. reflexivity.
Qed.

Lemma run_bind_Done {A B : Type} (a : A) (f : A -> GSUB.run B) :
  (GSUB.Done a ≫= f) = f a.
Proof. reflexivity. Qed.

Lemma same_target_spec (a b : GSUB.SubstRule) :
  Ligature.well_formed a -> Ligature.well_formed b ->
  GSUB.same_target a b = GSUB.Done (bool_decide (GSUB.targ a = GSUB.targ b)).
Proof.
  intros Ha Hb. unfold GSUB.same_target.
  rewrite (cmpLigature_key a b Ha Hb), run_bind_Done.
  assert (Hk : bool_decide (Ligature.key a = Ligature.key b) =
               bool_decide (GSUB.targ a = GSUB.targ b))
    by (apply bool_decide_ext, key_eq_targ; assumption).
  destruct (lex_ltb_total (Ligature.key a) (Ligature.key b))
    as [(H1 & H2 & H3) | [(H1 & H2 & H3) | (H1 & H2 & H3)]]; rewrite H1.
  - rewrite <- Hk, H3. reflexivity.
  - rewrite (cmpLigature_key b a Hb Ha), run_bind_Done, H2, <- Hk, H3. reflexivity.
  - rewrite (cmpLigature_key b a Hb Ha), run_bind_Done, H2, <- Hk, H3. reflexivity.
Qed.

(** X23: on ligature rules [cmpLigature] is the strict lexicographic order
    on (first GID, length decreasing, all GIDs): it never reads past a
    target, no rule is less than itself, it is transitive, and two rules
    are tied (neither is less than the other, the test [checkAndSort] uses
    for duplicates) exactly when their target sequences are equal. *)
Theorem cmpLigature_strict_weak_order (a b c : GSUB.SubstRule) :
  Ligature.well_formed a -> Ligature.well_formed b -> Ligature.well_formed c ->
  GSUB.cmpLigature a b = GSUB.Done (lex_ltb (Ligature.key a) (Ligature.key b)) /\
  GSUB.cmpLigature a a = GSUB.Done false /\
  (GSUB.cmpLigature a b = GSUB.Done true -> GSUB.cmpLigature b c = GSUB.Done true ->
   GSUB.cmpLigature a c = GSUB.Done true) /\
  GSUB.same_target a b = GSUB.Done (bool_decide (GSUB.targ a = GSUB.targ b)).
Proof.
  intros Ha Hb Hc.
  split; [apply cmpLigature_key; assumption |].
  split; [rewrite cmpLigature_key by assumption; rewrite lex_ltb_irrefl; reflexivity |].
  split; [| apply same_target_spec; assumption].
  rewrite !cmpLigature_key by assumption.
  intros H1 H2.
  rewrite (lex_ltb_trans (Ligature.key a) (Ligature.key b) (Ligature.key c));
    [reflexivity | congruence | congruence].
Qed.

Lemma cmpLigature_strict_weak_order_witness :
  GSUB.cmpLigature (GSUB.mkRule [5; 6; 7] [90] 3) (GSUB.mkRule [5; 6] [91] 2) =
  GSUB.Done true.
Proof.
  assert (Wa : Ligature.well_formed (GSUB.mkRule [5; 6; 7] [90] 3))
    by (split; [discriminate | split; [discriminate | reflexivity]]).
  assert (Wb : Ligature.well_formed (GSUB.mkRule [5; 6] [91] 2))
    by (split; [discriminate | split; [discriminate | reflexivity]]).
  exact (proj1 (cmpLigature_strict_weak_order _ _ _ Wa Wb Wb)).
Defined.

(** ** Duplicate ligature rules *)

Lemma lex_ltb_asym (a b : list Z) : lex_ltb a b = true -> lex_ltb b a = false.
Proof.
  intros H. destruct (lex_ltb_total a b)
    as [(H1 & H2 & H3) | [(H1 & H2 & H3) | (H1 & H2 & H3)]]; congruence.
Qed.

Lemma lex_ltb_false_trans (a b c : list Z) :
  lex_ltb b a = false -> lex_ltb c b = false -> lex_ltb c a = false.
Proof.
  intros Hab Hbc. apply not_true_is_false. intros Hca.
  destruct (lex_ltb_total b c)
    as [(H1 & H2 & H3) | [(H1 & H2 & H3) | (H1 & H2 & H3)]].
  - rewrite (lex_ltb_trans b c a H1 Hca) in Hab. discriminate Hab.
  - congruence.
  - apply bool_decide_eq_true in H3. subst c. congruence.
Qed.

Lemma insert_rule_Permutation (a : GSUB.SubstRule) (l : list GSUB.SubstRule) :
  Permutation (a :: l) (Ligature.insert a l).
Proof.
  induction l as [| b l IH]; cbn [Ligature.insert]; [reflexivity |].
  destruct (lex_ltb (Ligature.key b) (Ligature.key a)); [| reflexivity].
  rewrite perm_swap. apply perm_skip. exact IH.
Qed.

Lemma insert_rule_sorted (a : GSUB.SubstRule) (l : list GSUB.SubstRule) :
  StronglySorted (fun x y => lex_ltb (Ligature.key y) (Ligature.key x) = false) l ->
  StronglySorted (fun x y => lex_ltb (Ligature.key y) (Ligature.key x) = false)
                 (Ligature.insert a l).
Proof.
  induction l as [| b l IH]; cbn [Ligature.insert]; intros Hs.
  - constructor; constructor.
  - apply StronglySorted_cons in Hs as [Hb Hl].
    destruct (lex_ltb (Ligature.key b) (Ligature.key a)) eqn:E.
    + constructor; [apply IH, Hl |].
      rewrite <- insert_rule_Permutation. constructor; [| exact Hb].
      apply lex_ltb_asym. exact E.
    + constructor; [constructor; assumption |].
      constructor; [exact E |].
      eapply Forall_impl; [exact Hb |]. cbv beta. intros c Hc.
      eapply lex_ltb_false_trans; eassumption.
Qed.

Lemma sorted_by_key (l : list GSUB.SubstRule) :
  Forall Ligature.well_formed l ->
  (StronglySorted (fun a b => GSUB.cmpLigature b a = GSUB.Done false) l <->
   StronglySorted (fun x y => lex_ltb (Ligature.key y) (Ligature.key x) = false) l).
Proof.
  induction 1 as [| a l Ha Hl IH].
  - split; constructor.
  - rewrite !StronglySorted_cons, IH.
    assert (E : Forall (fun b => GSUB.cmpLigature b a = GSUB.Done false) l <->
                Forall (fun y => lex_ltb (Ligature.key y) (Ligature.key a) = false) l).
    { rewrite !Forall_forall. split; intros H b Hb;
        pose proof (proj1 (Forall_forall _ _) Hl b Hb) as Hwb;
        specialize (H b Hb); rewrite (cmpLigature_key b a Hwb Ha) in *; congruence. }
    rewrite E. reflexivity.
Qed.

Lemma insertion_sort_rules_conforming : Ligature.conforming Ligature.insertion_sort.
Proof.
  intros l Hwf.
  assert (Hperm : Permutation l (Ligature.insertion_sort l)).
  { clear Hwf. induction l as [| a l IH]; [reflexivity |].
    change (Ligature.insertion_sort (a :: l))
      with (Ligature.insert a (Ligature.insertion_sort l)).
    rewrite <- insert_rule_Permutation. apply perm_skip. exact IH. }
  split; [exact Hperm |].
  apply sorted_by_key; [rewrite <- Hperm; exact Hwf |].
  clear. induction l as [| a l IH]; [constructor |].
  change (Ligature.insertion_sort (a :: l))
    with (Ligature.insert a (Ligature.insertion_sort l)).
  apply insert_rule_sorted, IH.
Qed.

Section Dedup.

Local Abbreviation sorted_rules :=
  (StronglySorted (fun x y => lex_ltb (Ligature.key y) (Ligature.key x) = false)).

Local Abbreviation unmarked := (fun r : GSUB.SubstRule => (r, false)).

Lemma occurrences_cons (t : list Z) (r : GSUB.SubstRule) (l : list GSUB.SubstRule) :
  Ligature.occurrences t (r :: l) =
  ((if bool_decide (GSUB.targ r = t) then 1 else 0) + Ligature.occurrences t l)%nat.
Proof.
  unfold Ligature.occurrences. rewrite filter_cons.
  destruct (decide (GSUB.targ r = t)) as [E | NE].
  - rewrite bool_decide_eq_true_2 by exact E. reflexivity.
  - rewrite bool_decide_eq_false_2 by exact NE. reflexivity.
Qed.

Lemma occurrences_none (t : list Z) (l : list GSUB.SubstRule) :
  (forall r, r ∈ l -> GSUB.targ r <> t) -> Ligature.occurrences t l = 0%nat.
Proof.
  induction l as [| a l IH]; intros H; [reflexivity |].
  rewrite occurrences_cons, IH.
  - rewrite bool_decide_eq_false_2; [reflexivity |].
    apply H. apply elem_of_cons. left. reflexivity.
  - intros r Hr. apply H. apply elem_of_cons. right. exact Hr.
Qed.

Lemma occurrences_some (t : list Z) (l : list GSUB.SubstRule) :
  (0 < Ligature.occurrences t l)%nat -> exists r, r ∈ l /\ GSUB.targ r = t.
Proof.
  induction l as [| a l IH]; [unfold Ligature.occurrences; simpl; lia |].
  rewrite occurrences_cons. intros H.
  destruct (decide (GSUB.targ a = t)) as [E | NE].
  - exists a. split; [apply elem_of_cons; left; reflexivity | exact E].
  - rewrite bool_decide_eq_false_2 in H by exact NE.
    destruct (IH H) as (r & Hr & Ht). exists r.
    split; [apply elem_of_cons; right; exact Hr | exact Ht].
Qed.

Lemma occurrences_Permutation (t : list Z) (l l' : list GSUB.SubstRule) :
  Permutation l l' -> Ligature.occurrences t l = Ligature.occurrences t l'.
Proof.
  intros H. unfold Ligature.occurrences. apply Permutation_length.
  apply filter_Permutation. exact H.
Qed.

Lemma dedup_loop_after (rest : list GSUB.SubstRule) :
  forall (fuel : nat) (kept : list (GSUB.SubstRule * bool)) (prev : GSUB.SubstRule)
         (recycled : bool) (notes : list GSUB.message),
    (length rest < fuel)%nat ->
    Forall Ligature.well_formed (prev :: rest) ->
    GSUB.dedup_loop fuel (S (length kept))
                    (kept ++ (prev, recycled) :: (unmarked <$> rest)) notes =
    ('(l, ns) ← Ligature.dedup_after prev recycled rest;
     GSUB.Done (kept ++ l, notes ++ ns)).
Proof.
  induction rest as [| curr rest IH]; intros fuel kept prev recycled notes Hfuel Hwf;
    (destruct fuel as [| fuel]; [simpl in Hfuel; lia |]).
  - simpl. rewrite length_app. simpl.
    destruct (Nat.ltb_spec (S (length kept)) (length kept + 1)); [lia |].
    rewrite app_nil_r. reflexivity.
  - cbn [GSUB.dedup_loop]. rewrite length_app. cbn [length fmap list_fmap].
    rewrite length_fmap.
    destruct (Nat.ltb_spec (S (length kept)) (length kept + S (S (length rest))));
      [| lia].
    assert (Hcurr : (kept ++ (prev, recycled) :: (curr, false) :: (unmarked <$> rest))
                      !! S (length kept) = Some (curr, false)).
    { rewrite lookup_app_r by lia.
      replace (S (length kept) - length kept)%nat with 1%nat by lia. reflexivity. }
    assert (Hprev : (kept ++ (prev, recycled) :: (curr, false) :: (unmarked <$> rest))
                      !! (S (length kept) - 1)%nat = Some (prev, recycled)).
    { rewrite lookup_app_r by lia.
      replace (S (length kept) - 1 - length kept)%nat with 0%nat by lia. reflexivity. }
    rewrite Hcurr, Hprev.
    apply Forall_cons in Hwf as [Hwprev Hwf].
    apply Forall_cons in Hwf as [Hwcurr Hwrest].
    rewrite (same_target_spec curr prev Hwcurr Hwprev), run_bind_Done.
    cbn [Ligature.dedup_after].
    destruct (bool_decide (GSUB.targ curr = GSUB.targ prev)).
    + cbn [orb]. destruct recycled; [reflexivity |].
      destruct Hwcurr as (_ & Hrc & _). pose proof Hwprev as (_ & Hrp & _).
      destruct (GSUB.repl curr) as [| rc rcs]; [contradiction |].
      destruct (GSUB.repl prev) as [| rp rps] eqn:Erp; [contradiction |].
      cbn [hd]. destruct (rc =? rp); [| reflexivity].
      assert (Hdel : delete (S (length kept))
                       (<[(S (length kept) - 1)%nat := (prev, true)]>
                          (kept ++ (prev, false) :: (curr, false) :: (unmarked <$> rest))) =
                     kept ++ (prev, true) :: (unmarked <$> rest)).
      { rewrite insert_app_r_alt by lia.
        replace (S (length kept) - 1 - length kept)%nat with 0%nat by lia.
        cbn [insert list_insert].
        replace (kept ++ (prev, true) :: (curr, false) :: (unmarked <$> rest))
          with ((kept ++ [(prev, true)]) ++ (curr, false) :: (unmarked <$> rest))
          by (rewrite <- app_assoc; reflexivity).
        replace (S (length kept)) with (length (kept ++ [(prev, true)]))
          by (rewrite length_app; simpl; lia).
        rewrite delete_middle, <- app_assoc. reflexivity. }
      rewrite Hdel. rewrite IH.
      * destruct (Ligature.dedup_after prev true rest) as [[l ns] | | |]; try reflexivity.
        rewrite !run_bind_Done. cbv beta iota. rewrite <- app_assoc. reflexivity.
      * simpl in Hfuel. lia.
      * constructor; assumption.
    + replace (kept ++ (prev, recycled) :: (curr, false) :: (unmarked <$> rest))
        with ((kept ++ [(prev, recycled)]) ++ (curr, false) :: (unmarked <$> rest))
        by (rewrite <- app_assoc; reflexivity).
      replace (S (S (length kept))) with (S (length (kept ++ [(prev, recycled)])))
        by (rewrite length_app; simpl; lia).
      rewrite IH.
      * destruct (Ligature.dedup_after curr false rest) as [[l ns] | | |]; try reflexivity.
        rewrite !run_bind_Done. cbv beta iota. rewrite <- app_assoc. reflexivity.
      * simpl in Hfuel. lia.
      * constructor; assumption.
Qed.

Lemma later_targets_differ (prev curr : GSUB.SubstRule) (rest : list GSUB.SubstRule) :
  Forall Ligature.well_formed (prev :: curr :: rest) ->
  sorted_rules (prev :: curr :: rest) ->
  GSUB.targ curr <> GSUB.targ prev ->
  forall r, r ∈ curr :: rest -> GSUB.targ r <> GSUB.targ prev.
Proof.
  intros Hwf Hs Hne r Hr Heq.
  apply Forall_cons in Hwf as [Hwp Hwf].
  pose proof (proj1 (Forall_forall _ _) Hwf r Hr) as Hwr.
  apply Forall_cons in Hwf as [Hwc _].
  apply StronglySorted_cons in Hs as [Hp Hs].
  apply StronglySorted_cons in Hs as [Hc _].
  apply Forall_cons in Hp as [Hpc _].
  assert (Hlt : lex_ltb (Ligature.key prev) (Ligature.key curr) = true).
  { destruct (lex_ltb_total (Ligature.key prev) (Ligature.key curr))
      as [(H1 & H2 & H3) | [(H1 & H2 & H3) | (H1 & H2 & H3)]]; [exact H1 | congruence |].
    apply bool_decide_eq_true in H3. exfalso. apply Hne. symmetry.
    apply key_eq_targ; assumption. }
  apply elem_of_cons in Hr as [-> | Hr]; [contradiction |].
  rewrite Forall_forall in Hc. specialize (Hc r Hr). cbv beta in Hc.
  rewrite (proj2 (key_eq_targ r prev Hwr Hwp) Heq) in Hc. congruence.
Qed.

Lemma sorted_tail_facts (prev curr : GSUB.SubstRule) (rest : list GSUB.SubstRule) :
  Forall Ligature.well_formed (prev :: curr :: rest) ->
  sorted_rules (prev :: curr :: rest) ->
  (Forall Ligature.well_formed (prev :: rest) /\ sorted_rules (prev :: rest)) /\
  (Forall Ligature.well_formed (curr :: rest) /\ sorted_rules (curr :: rest)).
Proof.
  intros Hwf Hs.
  apply Forall_cons in Hwf as [Hp Hr]. pose proof Hr as Hcr.
  apply Forall_cons in Hr as [_ Hr].
  apply StronglySorted_cons in Hs as [Hps Hrs]. pose proof Hrs as Hcs.
  apply Forall_cons in Hps as [_ Hps]. apply StronglySorted_cons in Hrs as [_ Hrs].
  split; split; try assumption; constructor; assumption.
Qed.

Lemma dedup_after_done (rest : list GSUB.SubstRule) :
  forall (prev : GSUB.SubstRule) (recycled : bool) l ns,
    Forall Ligature.well_formed (prev :: rest) -> sorted_rules (prev :: rest) ->
    Ligature.dedup_after prev recycled rest = GSUB.Done (l, ns) ->
    exists (b : bool) (l' : list (GSUB.SubstRule * bool)),
      l = (prev, b) :: l' /\
      sublist l'.*1 rest /\
      (forall (r : GSUB.SubstRule) (c : bool), (r, c) ∈ l' -> GSUB.targ r <> GSUB.targ prev) /\
      NoDup (GSUB.targ <$> l'.*1) /\
      (length l' + length ns = length rest)%nat /\
      Ligature.occurrences (GSUB.targ prev) rest =
        (if recycled then 0 else if b then 1 else 0)%nat /\
      (recycled = true -> b = true) /\
      (forall (r : GSUB.SubstRule) (c : bool), (r, c) ∈ l' ->
         Ligature.occurrences (GSUB.targ r) rest = if c then 2%nat else 1%nat) /\
      (forall r, r ∈ rest ->
         GSUB.targ r = GSUB.targ prev \/
         exists r' c, (r', c) ∈ l' /\ GSUB.targ r' = GSUB.targ r).
Proof.
  induction rest as [| curr rest IH]; intros prev recycled l ns Hwf Hs H;
    cbn [Ligature.dedup_after] in H.
  - injection H as <- <-. exists recycled, [].
    split; [reflexivity |]. split; [constructor |].
    split; [intros r c Hr; inversion Hr |]. split; [constructor |].
    split; [reflexivity |].
    split; [destruct recycled; reflexivity |]. split; [auto |].
    split; [intros r c Hr; inversion Hr | intros r Hr; inversion Hr].
  - destruct (sorted_tail_facts prev curr rest Hwf Hs) as [[Hwf' Hs'] [Hwf'' Hs'']].
    destruct (bool_decide (GSUB.targ curr = GSUB.targ prev)) eqn:Hdup.
    + apply bool_decide_eq_true in Hdup.
      destruct recycled; [discriminate H |].
      destruct (hd 0 (GSUB.repl curr) =? hd 0 (GSUB.repl prev)); [| discriminate H].
      destruct (Ligature.dedup_after prev true rest) as [[l0 ns0] | | |] eqn:Hrec;
        try discriminate H.
      rewrite run_bind_Done in H. injection H as <- <-.
      destruct (IH prev true l0 ns0 Hwf' Hs' Hrec)
        as (b & l' & -> & Hsub & Hdiff & Hnd & Hlen & Hocc & Hb & Hoccs & Hcov).
      rewrite (Hb eq_refl) in *.
      exists true, l'. split; [reflexivity |].
      split; [apply sublist_cons; exact Hsub |]. split; [exact Hdiff |].
      split; [exact Hnd |]. split; [simpl; lia |].
      split; [rewrite occurrences_cons, Hocc, bool_decide_eq_true_2 by exact Hdup;
              reflexivity |].
      split; [reflexivity |]. split.
      * intros r c Hr. rewrite occurrences_cons, (Hoccs r c Hr).
        rewrite bool_decide_eq_false_2; [reflexivity |].
        rewrite Hdup. intros E. apply (Hdiff r c Hr). symmetry. exact E.
      * intros r Hr. apply elem_of_cons in Hr as [-> | Hr]; [left; exact Hdup | auto].
    + apply bool_decide_eq_false in Hdup.
      destruct (Ligature.dedup_after curr false rest) as [[l0 ns0] | | |] eqn:Hrec;
        try discriminate H.
      rewrite run_bind_Done in H. injection H as <- <-.
      destruct (IH curr false l0 ns0 Hwf'' Hs'' Hrec)
        as (b & l' & -> & Hsub & Hdiff & Hnd & Hlen & Hocc & Hb & Hoccs & Hcov).
      pose proof (later_targets_differ prev curr rest Hwf Hs Hdup) as Hlater.
      assert (Hin : forall r c, (r, c) ∈ (curr, b) :: l' -> r ∈ curr :: rest).
      { intros r c Hr. apply elem_of_cons in Hr as [E | Hr].
        - injection E as -> ->. apply elem_of_cons. left. reflexivity.
        - apply elem_of_cons. right. eapply elem_of_sublist; [| exact Hsub].
          apply list_elem_of_fmap. exists (r, c). split; [reflexivity | exact Hr]. }
      exists recycled, ((curr, b) :: l'). split; [reflexivity |].
      split; [rewrite fmap_cons; apply sublist_skip; exact Hsub |].
      split; [intros r c Hr; apply Hlater; eapply Hin; exact Hr |].
      split.
      { rewrite !fmap_cons. apply NoDup_cons. split; [| exact Hnd].
        intros Hm. apply list_elem_of_fmap in Hm as (r & Heq & Hr).
        apply list_elem_of_fmap in Hr as ([r0 c0] & -> & Hr).
        apply (Hdiff r0 c0 Hr). symmetry. exact Heq. }
      split; [simpl; simpl in Hlen; lia |].
      split.
      { rewrite (occurrences_none _ _ (fun r Hr => Hlater r Hr)).
        destruct recycled; reflexivity. }
      split; [auto |]. split.
      * intros r c Hr. rewrite occurrences_cons.
        apply elem_of_cons in Hr as [E | Hr].
        -- injection E as -> ->. rewrite bool_decide_eq_true_2 by reflexivity.
           rewrite Hocc. destruct b; reflexivity.
        -- rewrite (Hoccs r c Hr). rewrite bool_decide_eq_false_2; [reflexivity |].
           intros E. apply (Hdiff r c Hr). symmetry. exact E.
      * intros r Hr. right. apply elem_of_cons in Hr as [-> | Hr].
        -- exists curr, b. split; [apply elem_of_cons; left; reflexivity | reflexivity].
        -- destruct (Hcov r Hr) as [E | (r' & c & Hr' & E)].
           ++ exists curr, b. split; [apply elem_of_cons; left; reflexivity | auto].
           ++ exists r', c. split; [apply elem_of_cons; right; exact Hr' | exact E].
Qed.

Lemma dedup_after_no_conflict (rest : list GSUB.SubstRule) :
  forall (prev : GSUB.SubstRule) (recycled : bool) l ns,
    Forall Ligature.well_formed (prev :: rest) -> sorted_rules (prev :: rest) ->
    Ligature.dedup_after prev recycled rest = GSUB.Done (l, ns) ->
    ~ Ligature.conflict (prev :: rest).
Proof.
  induction rest as [| curr rest IH]; intros prev recycled l ns Hwf Hs H;
    cbn [Ligature.dedup_after] in H.
  - intros (r1 & r2 & H1 & H2 & _ & Hne).
    apply list_elem_of_singleton in H1, H2. subst. contradiction.
  - destruct (sorted_tail_facts prev curr rest Hwf Hs) as [[Hwf' Hs'] [Hwf'' Hs'']].
    destruct (bool_decide (GSUB.targ curr = GSUB.targ prev)) eqn:Hdup.
    + apply bool_decide_eq_true in Hdup.
      destruct recycled; [discriminate H |].
      destruct (Z.eqb_spec (hd 0 (GSUB.repl curr)) (hd 0 (GSUB.repl prev)))
        as [Hrepl | _]; [| discriminate H].
      destruct (Ligature.dedup_after prev true rest) as [[l0 ns0] | | |] eqn:Hrec;
        try discriminate H.
      intros (r1 & r2 & H1 & H2 & Ht & Hh).
      apply (IH prev true l0 ns0 Hwf' Hs' Hrec).
      assert (Hf : forall r, r ∈ prev :: curr :: rest ->
                             exists r', r' ∈ prev :: rest /\
                                        GSUB.targ r' = GSUB.targ r /\
                                        hd 0 (GSUB.repl r') = hd 0 (GSUB.repl r)).
      { intros r Hr. apply elem_of_cons in Hr as [-> | Hr].
        - exists prev. split; [apply elem_of_cons; left; reflexivity |].
          split; reflexivity.
        - apply elem_of_cons in Hr as [-> | Hr].
          + exists prev. split; [apply elem_of_cons; left; reflexivity |].
            split; congruence.
          + exists r. split; [apply elem_of_cons; right; exact Hr |].
            split; reflexivity. }
      destruct (Hf r1 H1) as (r1' & G1 & T1 & R1), (Hf r2 H2) as (r2' & G2 & T2 & R2).
      exists r1', r2'. repeat split; try assumption; congruence.
    + apply bool_decide_eq_false in Hdup.
      destruct (Ligature.dedup_after curr false rest) as [[l0 ns0] | | |] eqn:Hrec;
        try discriminate H.
      pose proof (later_targets_differ prev curr rest Hwf Hs Hdup) as Hlater.
      intros (r1 & r2 & H1 & H2 & Ht & Hh).
      apply elem_of_cons in H1 as [-> | H1], H2 as [-> | H2].
      * contradiction.
      * apply (Hlater r2 H2). congruence.
      * apply (Hlater r1 H1). congruence.
      * apply (IH curr false l0 ns0 Hwf'' Hs'' Hrec).
        exists r1, r2. repeat split; assumption.
Qed.

Lemma dedup_after_fatal (rest : list GSUB.SubstRule) :
  forall (prev : GSUB.SubstRule) (recycled : bool) m,
    Ligature.dedup_after prev recycled rest = GSUB.Fatal m ->
    Ligature.conflict (prev :: rest).
Proof.
  induction rest as [| curr rest IH]; intros prev recycled m H;
    cbn [Ligature.dedup_after] in H; [discriminate H |].
  destruct (bool_decide (GSUB.targ curr = GSUB.targ prev)) eqn:Hdup.
  - apply bool_decide_eq_true in Hdup.
    destruct recycled; [discriminate H |].
    destruct (Z.eqb_spec (hd 0 (GSUB.repl curr)) (hd 0 (GSUB.repl prev)))
      as [Hrepl | Hrepl].
    + destruct (Ligature.dedup_after prev true rest) as [[l0 ns0] | m0 | |] eqn:Hrec;
        try discriminate H.
      destruct (IH prev true m0 Hrec) as (r1 & r2 & H1 & H2 & Ht & Hh).
      exists r1, r2. repeat split; try assumption.
      * apply elem_of_cons in H1 as [-> | H1];
          [apply elem_of_cons; left; reflexivity
          | apply elem_of_cons; right; apply elem_of_cons; right; exact H1].
      * apply elem_of_cons in H2 as [-> | H2];
          [apply elem_of_cons; left; reflexivity
          | apply elem_of_cons; right; apply elem_of_cons; right; exact H2].
    + exists curr, prev. repeat split; try assumption.
      * apply elem_of_cons. right. apply elem_of_cons. left. reflexivity.
      * apply elem_of_cons. left. reflexivity.
  - destruct (Ligature.dedup_after curr false rest) as [[l0 ns0] | m0 | |] eqn:Hrec;
      try discriminate H.
    destruct (IH curr false m0 Hrec) as (r1 & r2 & H1 & H2 & Ht & Hh).
    exists r1, r2. repeat split; try assumption; apply elem_of_cons; right; assumption.
Qed.

Lemma dedup_after_undef (rest : list GSUB.SubstRule) :
  forall (prev : GSUB.SubstRule) (recycled : bool),
    Ligature.dedup_after prev recycled rest = GSUB.Undef ->
    (recycled = true /\ (1 <= Ligature.occurrences (GSUB.targ prev) rest)%nat) \/
    exists t, (3 <= Ligature.occurrences t (prev :: rest))%nat.
Proof.
  induction rest as [| curr rest IH]; intros prev recycled H;
    cbn [Ligature.dedup_after] in H; [discriminate H |].
  destruct (bool_decide (GSUB.targ curr = GSUB.targ prev)) eqn:Hdup.
  - apply bool_decide_eq_true in Hdup.
    destruct recycled.
    + left. split; [reflexivity |].
      rewrite occurrences_cons, bool_decide_eq_true_2 by exact Hdup. lia.
    + destruct (hd 0 (GSUB.repl curr) =? hd 0 (GSUB.repl prev)); [| discriminate H].
      destruct (Ligature.dedup_after prev true rest) as [[l0 ns0] | m0 | |] eqn:Hrec;
        try discriminate H.
      right. destruct (IH prev true Hrec) as [[_ Hocc] | [t Ht]].
      * exists (GSUB.targ prev).
        rewrite !occurrences_cons, bool_decide_eq_true_2 by reflexivity.
        rewrite bool_decide_eq_true_2 by exact Hdup. lia.
      * exists t. rewrite occurrences_cons in Ht. rewrite !occurrences_cons.
        destruct (bool_decide (GSUB.targ prev = t)),
                 (bool_decide (GSUB.targ curr = t)); lia.
  - destruct (Ligature.dedup_after curr false rest) as [[l0 ns0] | m0 | |] eqn:Hrec;
      try discriminate H.
    right. destruct (IH curr false Hrec) as [[E _] | [t Ht]]; [discriminate E |].
    exists t. rewrite (occurrences_cons t prev).
    destruct (bool_decide (GSUB.targ prev = t)); lia.
Qed.

Lemma dedup_after_fuel (rest : list GSUB.SubstRule) :
  forall (prev : GSUB.SubstRule) (recycled : bool),
    Ligature.dedup_after prev recycled rest <> GSUB.OutOfFuel.
Proof.
  induction rest as [| curr rest IH]; intros prev recycled;
    cbn [Ligature.dedup_after]; [discriminate |].
  destruct (bool_decide (GSUB.targ curr = GSUB.targ prev)).
  - destruct recycled; [discriminate |].
    destruct (hd 0 (GSUB.repl curr) =? hd 0 (GSUB.repl prev)); [| discriminate].
    pose proof (IH prev true) as Hrec.
    destruct (Ligature.dedup_after prev true rest) as [[l0 ns0] | m0 | |];
      [discriminate | discriminate | discriminate | contradiction].
  - pose proof (IH curr false) as Hrec.
    destruct (Ligature.dedup_after curr false rest) as [[l0 ns0] | m0 | |];
      [discriminate | discriminate | discriminate | contradiction].
Qed.

End Dedup.



(** ** Breaking multiple and alternate substitutions into subtables *)

Section AutoBreakFacts.

Variable size : Z -> Z -> Z.
Variable to_count : Z -> Z.
Variable rules : list GSUB.SubstRule.

Local Abbreviation len := (Z.of_nat (length rules)).
Local Abbreviation count := (fun r => Z.of_nat (length (GSUB.repl r))).
Local Abbreviation between := (AutoBreak.glyphs_between rules).

Lemma between_empty (i : Z) : between i i = 0.
Proof.
  unfold AutoBreak.glyphs_between. rewrite Z.sub_diag. reflexivity.
Qed.

Lemma between_snoc (i j : Z) (r : GSUB.SubstRule) :
  0 <= i <= j -> rules !! Z.to_nat j = Some r ->
  between i (j + 1) = between i j + count r.
Proof.
  intros Hij Hr. unfold AutoBreak.glyphs_between.
  replace (Z.to_nat (j + 1 - i)) with (S (Z.to_nat (j - i))) by lia.
  rewrite (take_S_r _ _ r).
  - generalize (take (Z.to_nat (j - i)) (drop (Z.to_nat i) rules)).
    intros l. induction l as [| a l IH]; simpl; [lia |]. rewrite IH. lia.
  - rewrite lookup_drop. replace (Z.to_nat i + Z.to_nat (j - i))%nat with (Z.to_nat j) by lia.
    exact Hr.
Qed.

Lemma to_uint32_add (a b : Z) :
  GSUB.to_uint32 (GSUB.to_uint32 a + b) = GSUB.to_uint32 (a + b).
Proof. unfold GSUB.to_uint32. apply Zplus_mod_idemp_l. Qed.

Lemma fill_loop_end (fuel : nat) (i j sz nSubs : Z) (calls : list GSUB.subtable_call) :
  len <= j ->
  GSUB.fill_loop size to_count (S fuel) rules i j sz nSubs calls = GSUB.Done calls.
Proof.
  intros Hj. cbn [GSUB.fill_loop].
  destruct (Z.ltb_spec j len); [lia | reflexivity].
Qed.

Lemma fill_loop_step (fuel : nat) (i j sz nSubs : Z) (calls : list GSUB.subtable_call)
      (r : GSUB.SubstRule) :
  0 <= j < len -> rules !! Z.to_nat j = Some r ->
  GSUB.duplicate_target rules j r = GSUB.Done false ->
  GSUB.fill_loop size to_count (S fuel) rules i j sz nSubs calls =
  if 0xFFFF <? size (j - i + 1) (GSUB.to_uint32 (nSubs + count r)) then
    GSUB.fill_loop size to_count fuel rules j j 0 0
      (calls ++ [GSUB.mkCall i (j - 1) sz (to_count nSubs)])
  else if j =? len - 1 then
    GSUB.fill_loop size to_count fuel rules i (j + 1) sz nSubs
      (calls ++ [GSUB.mkCall i j (size (j - i + 1) (GSUB.to_uint32 (nSubs + count r)))
                             (to_count (GSUB.to_uint32 (nSubs + count r)))])
  else
    GSUB.fill_loop size to_count fuel rules i (j + 1)
      (size (j - i + 1) (GSUB.to_uint32 (nSubs + count r)))
      (GSUB.to_uint32 (nSubs + count r)) calls.
Proof.
  intros Hj Hr Hdup. cbn [GSUB.fill_loop].
  destruct (Z.ltb_spec j len); [| lia].
  rewrite Hr, Hdup, run_bind_Done. reflexivity.
Qed.

Hypothesis rules_breakable : AutoBreak.breakable size rules.

Lemma rule_at (j : Z) :
  0 <= j < len ->
  exists r, rules !! Z.to_nat j = Some r /\
            GSUB.duplicate_target rules j r = GSUB.Done false /\
            size 1 (GSUB.to_uint32 (count r)) <= 0xFFFF.
Proof.
  intros Hj. destruct rules_breakable as [Hall Hnb].
  destruct (lookup_lt_is_Some_2 rules (Z.to_nat j) ltac:(lia)) as [r Hr].
  exists r. split; [exact Hr |].
  pose proof (proj1 (Forall_lookup _ _) Hall _ _ Hr) as [Ht Hfit].
  split; [| exact Hfit].
  unfold GSUB.duplicate_target. destruct (Z.eqb_spec j 0) as [E | NE]; [reflexivity |].
  destruct (GSUB.targ r) as [| g ts] eqn:Etr; [contradiction |].
  destruct (lookup_lt_is_Some_2 rules (Z.to_nat (j - 1)) ltac:(lia)) as [p Hp].
  rewrite Hp.
  pose proof (proj1 (Forall_lookup _ _) Hall _ _ Hp) as [Htp _].
  destruct (GSUB.targ p) as [| g' ts'] eqn:Etp; [contradiction |].
  assert (Hne : hd 0 (GSUB.targ p) <> hd 0 (GSUB.targ r)).
  { apply (Hnb (Z.to_nat (j - 1))); [exact Hp |].
    replace (S (Z.to_nat (j - 1))) with (Z.to_nat j) by lia. exact Hr. }
  rewrite Etp, Etr in Hne. simpl in Hne.
  destruct (Z.eqb_spec g g'); [congruence | reflexivity].
Qed.

Lemma fill_loop_tiles (fuel : nat) :
  forall (i j sz nSubs : Z) (calls : list GSUB.subtable_call),
    0 <= i <= j -> j < len ->
    nSubs = GSUB.to_uint32 (between i j) ->
    (i < j -> sz = size (j - i) nSubs /\ sz <= 0xFFFF) ->
    (2 * (len - j) + (if i <? j then 1 else 0) + 1 <= Z.of_nat fuel) ->
    exists new,
      GSUB.fill_loop size to_count fuel rules i j sz nSubs calls =
        GSUB.Done (calls ++ new) /\
      new <> [] /\
      AutoBreak.tiles size to_count rules i new.
Proof.
  induction fuel as [| fuel IH]; intros i j sz nSubs calls Hij Hj HnSubs Hsz Hfuel.
  { destruct (i <? j); lia. }
  destruct (rule_at j ltac:(lia)) as (r & Hr & Hdup & Hfit).
  rewrite (fill_loop_step fuel i j sz nSubs calls r ltac:(lia) Hr Hdup).
  assert (HnNew : GSUB.to_uint32 (nSubs + count r) = GSUB.to_uint32 (between i (j + 1))).
  { rewrite HnSubs, to_uint32_add, (between_snoc i j r) by (lia || exact Hr).
    reflexivity. }
  destruct (Z.ltb_spec 0xFFFF (size (j - i + 1) (GSUB.to_uint32 (nSubs + count r))))
    as [Hover | Hfits].
  - (* the subtable is full: close it before rule [j] *)
    assert (Hlt : i < j).
    { destruct (Z.eq_dec i j) as [-> | NE]; [| lia]. exfalso.
      rewrite HnSubs, between_empty in Hover.
      replace (j - j + 1) with 1 in Hover by lia.
      change (GSUB.to_uint32 0) with 0 in Hover. rewrite Z.add_0_l in Hover.
      cbv beta in Hover, Hfit. lia. }
    destruct (Hsz Hlt) as [Hszeq Hszle].
    destruct (IH j j 0 0 (calls ++ [GSUB.mkCall i (j - 1) sz (to_count nSubs)]))
      as (new & Hnew & Hne & Htiles).
    + lia.
    + exact Hj.
    + rewrite between_empty. reflexivity.
    + lia.
    + destruct (Z.ltb_spec i j); [| lia]. destruct (Z.ltb_spec j j); lia.
    + exists (GSUB.mkCall i (j - 1) sz (to_count nSubs) :: new).
      split; [rewrite Hnew, <- app_assoc; reflexivity |].
      split; [discriminate |].
      cbn [AutoBreak.tiles GSUB.call_beg GSUB.call_end GSUB.call_sz GSUB.call_nSubs].
      replace (j - 1 + 1) with j by lia. replace (j - 1 - i + 1) with (j - i) by lia.
      replace (j - 1 - i + 2) with (j - i + 1) by lia.
      replace (j - 1 + 2) with (j + 1) by lia.
      split; [reflexivity |]. split; [lia |].
      split; [rewrite HnSubs; reflexivity |].
      split; [rewrite <- HnSubs; exact Hszeq |]. split; [exact Hszle |].
      split; [intros _; rewrite <- HnNew; exact Hover | exact Htiles].
  - destruct (Z.eqb_spec j (len - 1)) as [Hlast | Hmore].
    + (* the last rule: the final subtable *)
      destruct fuel as [| fuel]; [destruct (i <? j); lia |].
      rewrite fill_loop_end by lia.
      eexists [_]. split; [reflexivity |]. split; [discriminate |].
      cbn [AutoBreak.tiles GSUB.call_beg GSUB.call_end GSUB.call_sz GSUB.call_nSubs].
      split; [reflexivity |]. split; [lia |].
      split; [rewrite HnNew; reflexivity |].
      split; [rewrite HnNew; reflexivity |]. split; [exact Hfits |].
      split; [intros H; contradiction | lia].
    + (* the rule goes into the open subtable *)
      destruct (IH i (j + 1)
                   (size (j - i + 1) (GSUB.to_uint32 (nSubs + count r)))
                   (GSUB.to_uint32 (nSubs + count r)) calls)
        as (new & Hnew & Hne & Htiles).
      * lia.
      * lia.
      * exact HnNew.
      * intros _. replace (j + 1 - i) with (j - i + 1) by lia. split; [reflexivity | exact Hfits].
      * destruct (Z.ltb_spec i (j + 1)); [| lia]. destruct (i <? j); lia.
      * exists new. split; [exact Hnew |]. split; assumption.
Qed.

End AutoBreakFacts.

(** X25: on sorted rules of which each fits a subtable of its own and no
    two neighbours share their target glyph, the loop of
    [MultipleSubst::fill] and [AlternateSubst::fill] ends (twice the number
    of rules plus one turns are enough) and its constructor calls tile the
    rules in order: each subtable takes at least one rule, its size is the
    one computed for its rules and is at most 0xFFFF, and a subtable ends
    before exactly the rule that would have pushed the size over 0xFFFF. *)
Theorem fill_breaks_into_fitting_subtables
  (size : Z -> Z -> Z) (to_count : Z -> Z) (rules : list GSUB.SubstRule) (fuel : nat) :
  AutoBreak.breakable size rules ->
  (2 * length rules + 1 <= fuel)%nat ->
  exists calls,
    GSUB.fill_sorted size to_count fuel rules = GSUB.Done calls /\
    AutoBreak.tiles size to_count rules 0 calls.
Proof.
  intros Hb Hfuel. unfold GSUB.fill_sorted.
  destruct rules as [| r0 rest] eqn:Hrules.
  - destruct fuel as [| fuel]; [simpl in Hfuel; lia |].
    exists []. split; [reflexivity | reflexivity].
  - rewrite <- Hrules in *.
    assert (Hlen : 0 < Z.of_nat (length rules)) by (rewrite Hrules; simpl; lia).
    destruct (fill_loop_tiles size to_count rules Hb fuel 0 0 0 0 [])
      as (new & Hnew & _ & Htiles).
    + lia.
    + exact Hlen.
    + rewrite between_empty. reflexivity.
    + lia.
    + simpl. lia.
    + exists new. split; [exact Hnew | exact Htiles].
Qed.

Lemma fill_breaks_into_fitting_subtables_witness :
  exists calls,
    GSUB.fill_sorted (fun n s => 6 + 4 * n + 2 * s) (fun z => z) 7
      [GSUB.mkRule [3] [10; 11] 0; GSUB.mkRule [4] [12] 0; GSUB.mkRule [9] [13; 14; 15] 0] =
    GSUB.Done calls.
Proof.
  destruct (fill_breaks_into_fitting_subtables
              (fun n s => 6 + 4 * n + 2 * s) (fun z => z)
              [GSUB.mkRule [3] [10; 11] 0; GSUB.mkRule [4] [12] 0;
               GSUB.mkRule [9] [13; 14; 15] 0] 7) as (calls & Hcalls & _).
  - split.
    + repeat (apply Forall_cons; split; [split; [discriminate | vm_compute; discriminate] |]).
      apply Forall_nil_2.
    + intros [| [| [| j]]] a b Ha Hb; simpl in Ha, Hb; try discriminate;
        injection Ha as <-; injection Hb as <-; discriminate.
  - simpl. lia.
  - exists calls. exact Hcalls.
Defined.
